(** * OpenClaw monitor: the inbox router and the session readers

    A shallow embedding of [src/monitor/monitor.js] (Monitor V4.1.1):
    [processInbox], [parseSessionsFile], [getTasks] and the task-list merge
    of [updateStatus], with the properties the design document states about
    them; then [getTaskTitleFromLog], [loadEnv], [parseModelsOutput], the
    failure counter and the task array of [updateStatus], and the retry
    loop of the health check script [src/unnamed/part_000], with further
    properties of the code.

    Conventions.
    - A JavaScript string is the list of its UTF-16 code units ([list N]);
      regular expressions without the [u] flag, [trim], [slice] and
      [substring] all work on code units.
    - A file holds bytes. [readFileSync(path, 'utf8')] decodes them, each
      ill-formed part read as U+FFFD, and [writeFileSync(path, text)] writes
      the UTF-8 form of the text; a write fails on a file that is not
      writable.
    - [console.log] and [console.error] are not modelled. *)

From Stdlib Require Import ZArith NArith QArith Qround Lia String Ascii
  DecimalString DecimalNat.
From stdpp Require Import base option list gmap sorting.

Local Open Scope Z_scope.

(** ** JavaScript strings *)

Abbreviation jsstring := (list N).

(** An ASCII literal as a JavaScript string. *)
Definition js (s : string) : jsstring :=
  map N_of_ascii (list_ascii_of_string s).

Arguments js : simpl never.

Definition jseqb (a b : jsstring) : bool := bool_decide (a = b).

(** [\s] of a regular expression, which is also the set [trim] strips:
    WhiteSpace and LineTerminator of ECMAScript. *)
Definition is_space (c : N) : bool :=
  ((9 <=? c) && (c <=? 13) || (c =? 32) || (c =? 160) || (c =? 0x1680)
   || (0x2000 <=? c) && (c <=? 0x200A) || (c =? 0x2028) || (c =? 0x2029)
   || (c =? 0x202F) || (c =? 0x205F) || (c =? 0x3000) || (c =? 0xFEFF))%N.

(** [\w]: [A-Za-z0-9_]. *)
Definition is_word (c : N) : bool :=
  ((48 <=? c) && (c <=? 57) || (65 <=? c) && (c <=? 90) || (c =? 95)
   || (97 <=? c) && (c <=? 122))%N.

(** The class of the two quote characters, code units 34 and 39. *)
Definition is_quote (c : N) : bool := ((c =? 34) || (c =? 39))%N.

(** [strip_prefix p s] is what follows [p] when [s] starts with [p]. *)
Fixpoint strip_prefix (p s : jsstring) : option jsstring :=
  match p, s with
  | [], _ => Some s
  | a :: p', b :: s' => if (a =? b)%N then strip_prefix p' s' else None
  | _ :: _, [] => None
  end.

Definition startsWith (s p : jsstring) : bool :=
  match strip_prefix p s with Some _ => true | None => false end.

Definition endsWith (s p : jsstring) : bool := startsWith (rev s) (rev p).

(** The longest prefix whose code units satisfy [f], and the rest: a greedy
    [c*] of a regular expression. *)
Fixpoint span (f : N -> bool) (s : jsstring) : jsstring * jsstring :=
  match s with
  | c :: s' =>
      if f c then let '(a, b) := span f s' in (c :: a, b) else ([], s)
  | [] => ([], [])
  end.

(** [String.prototype.trim]. *)
Definition trimStart (s : jsstring) : jsstring := snd (span is_space s).
Definition trim (s : jsstring) : jsstring := rev (trimStart (rev (trimStart s))).

(** [s.split('\n')[0]]: the text before the first line feed. *)
Definition firstLineOf (s : jsstring) : jsstring :=
  fst (span (fun c => negb (c =? 10)%N) s).

(** ** UTF-8

    A task file holds bytes; [readFileSync(path, 'utf8')] decodes them and
    [writeFileSync(path, text)] encodes the text. A byte is a number below
    256. *)

Definition is_high (c : N) : bool := ((0xD800 <=? c) && (c <=? 0xDBFF))%N.
Definition is_low (c : N) : bool := ((0xDC00 <=? c) && (c <=? 0xDFFF))%N.

(** The UTF-8 form of a code point. *)
Definition utf8 (cp : N) : list N :=
  (if cp <? 0x80 then [cp]
   else if cp <? 0x800 then [0xC0 + cp / 64; 0x80 + cp mod 64]
   else if cp <? 0x10000 then
     [0xE0 + cp / 4096; 0x80 + (cp / 64) mod 64; 0x80 + cp mod 64]
   else
     [0xF0 + cp / 262144; 0x80 + (cp / 4096) mod 64;
      0x80 + (cp / 64) mod 64; 0x80 + cp mod 64])%N.

(** The code units of a code point. *)
Definition units (cp : N) : jsstring :=
  (if cp <? 0x10000 then [cp]
   else [0xD800 + (cp - 0x10000) / 1024; 0xDC00 + (cp - 0x10000) mod 1024])%N.

(** The bytes [writeFileSync] writes for a text: a surrogate pair is one
    code point, and a surrogate without its partner is written as U+FFFD. *)
Fixpoint encodeUtf8 (s : jsstring) : list N :=
  match s with
  | [] => []
  | c :: s' =>
      if is_high c then
        match s' with
        | d :: s'' =>
            if is_low d
            then utf8 (0x10000 + (c - 0xD800) * 1024 + (d - 0xDC00))%N
                 ++ encodeUtf8 s''
            else utf8 0xFFFD ++ encodeUtf8 s'
        | [] => utf8 0xFFFD
        end
      else if is_low c then utf8 0xFFFD ++ encodeUtf8 s'
      else utf8 c ++ encodeUtf8 s'
  end.

(** A continuation byte. *)
Definition is_cont (b : N) : bool := ((0x80 <=? b) && (b <=? 0xBF))%N.

(** The range of the second byte of a sequence, which depends on the first:
    it excludes the overlong forms, the surrogates and what lies above
    U+10FFFF. *)
Definition second (b0 b1 : N) : bool :=
  (((if b0 =? 0xE0 then 0xA0 else if b0 =? 0xF0 then 0x90 else 0x80) <=? b1)
   && (b1 <=? (if b0 =? 0xED then 0x9F else if b0 =? 0xF4 then 0x8F
               else 0xBF)))%N.

(** The text [readFileSync(path, 'utf8')] gives for the bytes of a file:
    each well-formed sequence is its code point; a byte that can start no
    sequence, and each longest beginning of a sequence that is not
    continued, is read as one U+FFFD, and reading goes on at the byte that
    did not fit. The byte order mark is not removed. *)
Fixpoint decodeUtf8 (b : list N) : jsstring :=
  match b with
  | [] => []
  | b0 :: r0 =>
      if (b0 <? 0x80)%N then b0 :: decodeUtf8 r0
      else if ((0xC2 <=? b0) && (b0 <=? 0xDF))%N then
        match r0 with
        | b1 :: r1 =>
            if is_cont b1
            then units ((b0 - 0xC0) * 64 + (b1 - 0x80))%N ++ decodeUtf8 r1
            else 0xFFFD%N :: decodeUtf8 r0
        | [] => [0xFFFD%N]
        end
      else if ((0xE0 <=? b0) && (b0 <=? 0xEF))%N then
        match r0 with
        | b1 :: r1 =>
            if second b0 b1 then
              match r1 with
              | b2 :: r2 =>
                  if is_cont b2
                  then units ((b0 - 0xE0) * 4096 + (b1 - 0x80) * 64
                              + (b2 - 0x80))%N ++ decodeUtf8 r2
                  else 0xFFFD%N :: decodeUtf8 r1
              | [] => [0xFFFD%N]
              end
            else 0xFFFD%N :: decodeUtf8 r0
        | [] => [0xFFFD%N]
        end
      else if ((0xF0 <=? b0) && (b0 <=? 0xF4))%N then
        match r0 with
        | b1 :: r1 =>
            if second b0 b1 then
              match r1 with
              | b2 :: r2 =>
                  if is_cont b2 then
                    match r2 with
                    | b3 :: r3 =>
                        if is_cont b3
                        then units ((b0 - 0xF0) * 262144 + (b1 - 0x80) * 4096
                                    + (b2 - 0x80) * 64 + (b3 - 0x80))%N
                             ++ decodeUtf8 r3
                        else 0xFFFD%N :: decodeUtf8 r2
                    | [] => [0xFFFD%N]
                    end
                  else 0xFFFD%N :: decodeUtf8 r1
              | [] => [0xFFFD%N]
              end
            else 0xFFFD%N :: decodeUtf8 r0
        | [] => [0xFFFD%N]
        end
      else 0xFFFD%N :: decodeUtf8 r0
  end.

(** [String.prototype.isWellFormed]: the code units are below 65536 and
    every surrogate is part of a pair. *)
Fixpoint isWellFormed (s : jsstring) : bool :=
  match s with
  | [] => true
  | c :: s' =>
      if is_high c then
        match s' with
        | d :: s'' => is_low d && isWellFormed s''
        | [] => false
        end
      else negb (is_low c) && (c <? 0x10000)%N && isWellFormed s'
  end.

(** Well-formed UTF-8: a sequence of the byte sequences of the Unicode
    Standard (table 3-7). *)
Inductive wellFormedUtf8 : list N -> Prop :=
| wf8_nil : wellFormedUtf8 []
| wf8_1 b0 r :
    (b0 < 0x80)%N -> wellFormedUtf8 r -> wellFormedUtf8 (b0 :: r)
| wf8_2 b0 b1 r :
    (0xC2 <= b0 <= 0xDF)%N -> (0x80 <= b1 <= 0xBF)%N ->
    wellFormedUtf8 r -> wellFormedUtf8 (b0 :: b1 :: r)
| wf8_3 b0 b1 b2 r :
    (0xE0 <= b0 <= 0xEF)%N -> (0x80 <= b1 <= 0xBF)%N ->
    (b0 = 0xE0 -> 0xA0 <= b1)%N -> (b0 = 0xED -> b1 <= 0x9F)%N ->
    (0x80 <= b2 <= 0xBF)%N ->
    wellFormedUtf8 r -> wellFormedUtf8 (b0 :: b1 :: b2 :: r)
| wf8_4 b0 b1 b2 b3 r :
    (0xF0 <= b0 <= 0xF4)%N -> (0x80 <= b1 <= 0xBF)%N ->
    (b0 = 0xF0 -> 0x90 <= b1)%N -> (b0 = 0xF4 -> b1 <= 0x8F)%N ->
    (0x80 <= b2 <= 0xBF)%N -> (0x80 <= b3 <= 0xBF)%N ->
    wellFormedUtf8 r -> wellFormedUtf8 (b0 :: b1 :: b2 :: b3 :: r).

(** A code point that is not a surrogate. *)
Definition scalar (cp : N) : Prop :=
  (cp < 0x110000 /\ ~ (0xD800 <= cp <= 0xDFFF))%N.

(** Linear arithmetic with the divisions by a constant written out. *)
Ltac dlia := zify; Z.to_euclidean_division_equations; lia.

(** Settles the comparisons of a goal that the hypotheses decide. *)
Ltac decide_cmp_by tac :=
  repeat match goal with
  | |- context [(?a <? ?b)%N] =>
      first [ rewrite (proj2 (N.ltb_lt a b)) by tac
            | rewrite (proj2 (N.ltb_ge a b)) by tac ]
  | |- context [(?a <=? ?b)%N] =>
      first [ rewrite (proj2 (N.leb_le a b)) by tac
            | rewrite (proj2 (N.leb_gt a b)) by tac ]
  | |- context [(?a =? ?b)%N] =>
      first [ rewrite (proj2 (N.eqb_eq a b)) by tac
            | rewrite (proj2 (N.eqb_neq a b)) by tac ]
  end; cbn [andb orb negb].

Ltac decide_cmp := decide_cmp_by lia.

(** Reads the comparisons among the hypotheses. *)
Ltac read_cmp :=
  repeat match goal with
  | H : andb _ _ = true |- _ => apply andb_true_iff in H as [? ?]
  | H : (_ <=? _)%N = true |- _ => apply N.leb_le in H
  | H : (_ <=? _)%N = false |- _ => apply N.leb_gt in H
  | H : (_ <? _)%N = true |- _ => apply N.ltb_lt in H
  | H : (_ <? _)%N = false |- _ => apply N.ltb_ge in H
  | H : (_ =? _)%N = true |- _ => apply N.eqb_eq in H
  | H : (_ =? _)%N = false |- _ => apply N.eqb_neq in H
  | H : context [(?a =? ?b)%N] |- _ => destruct (N.eqb_spec a b)
  end.

(** ** Regular expressions

    The patterns of the router are sequences of four kinds of items, matched
    the way an ECMAScript engine does it: each item takes as much as it can,
    and gives back one code unit at a time when what follows does not
    match. *)

Inductive item :=
| Lit (l : jsstring)       (* a literal text *)
| Star (f : N -> bool)     (* [c*], greedy *)
| Opt (f : N -> bool)      (* [c?], greedy *)
| Group (f : N -> bool).   (* [(c+)], greedy, the capture group *)

(** A result is the matched text, capture group 1 and the text after the
    match. [consumed seg capture x] puts the text [seg] an item took in
    front of the result [x] of the rest of the pattern. *)
Definition consumed (seg : jsstring) (capture : bool)
    (x : option (jsstring * jsstring * jsstring))
  : option (jsstring * jsstring * jsstring) :=
  match x with
  | Some (t, g, r) => Some (seg ++ t, if capture then seg else g, r)
  | None => None
  end.

(** A run of the class [f] after the [acc] already taken: the longest run is
    tried first, then each shorter one, down to [acc] alone; [k] matches the
    rest of the pattern. *)
Fixpoint starK (f : N -> bool) (capture : bool)
    (k : jsstring -> option (jsstring * jsstring * jsstring))
    (acc s : jsstring) : option (jsstring * jsstring * jsstring) :=
  match s with
  | c :: s' =>
      if f c then
        match starK f capture k (acc ++ [c]) s' with
        | Some x => Some x
        | None => consumed acc capture (k s)
        end
      else consumed acc capture (k s)
  | [] => consumed acc capture (k [])
  end.

(** The pattern [p] tried at the head of [s]. *)
Fixpoint execAt (p : list item) (s : jsstring)
  : option (jsstring * jsstring * jsstring) :=
  match p with
  | [] => Some ([], [], s)
  | Lit l :: p' =>
      match strip_prefix l s with
      | Some r => consumed l false (execAt p' r)
      | None => None
      end
  | Star f :: p' => starK f false (execAt p') [] s
  | Opt f :: p' =>
      match s with
      | c :: s' =>
          if f c then
            match consumed [c] false (execAt p' s') with
            | Some x => Some x
            | None => execAt p' s
            end
          else execAt p' s
      | [] => execAt p' []
      end
  | Group f :: p' =>
      match s with
      | c :: s' => if f c then starK f true (execAt p') [c] s' else None
      | [] => None
      end
  end.

(** The pattern of [statusMatch] and of [typeMatch]: the key and a colon,
    [\s*], an optional quote, the captured [\w+], an optional quote. *)
Definition fieldRe (key : jsstring) : list item :=
  [Lit (key ++ js ":"); Star is_space; Opt is_quote; Group is_word;
   Opt is_quote].

(** The pattern of the dispatch write: [status:], [\s*], an optional quote,
    [pending], an optional quote. *)
Definition pendingRe : list item :=
  [Lit (js "status:"); Star is_space; Opt is_quote; Lit (js "pending");
   Opt is_quote].

Record rmatch := RMatch {
  m_pre : jsstring;    (* the text before the match *)
  m_text : jsstring;   (* the matched text *)
  m_group : jsstring;  (* capture group 1 *)
  m_post : jsstring    (* the text after the match *)
}.

(** A literal pattern, as in [file.replace('.md', '')]. *)
Definition match_literal_at (p s : jsstring)
  : option (jsstring * jsstring * jsstring) :=
  match strip_prefix p s with
  | Some r => Some (p, [], r)
  | None => None
  end.

(** The leftmost match of an anchored matcher ([String.prototype.match]
    without the [g] flag). *)
Fixpoint search (m : jsstring -> option (jsstring * jsstring * jsstring))
    (s : jsstring) : option rmatch :=
  match m s with
  | Some (t, g, r) => Some (RMatch [] t g r)
  | None =>
      match s with
      | [] => None
      | c :: s' =>
          match search m s' with
          | Some x => Some (RMatch (c :: m_pre x) (m_text x) (m_group x) (m_post x))
          | None => None
          end
      end
  end.

(** [s.replace(pattern, repl)] for a pattern without the [g] flag and a
    replacement text without [$]: the first match is replaced. *)
Definition replace_first (m : jsstring -> option (jsstring * jsstring * jsstring))
    (repl s : jsstring) : jsstring :=
  match search m s with
  | Some x => m_pre x ++ repl ++ m_post x
  | None => s
  end.

(** ** [processInbox]: the pure part of the loop body *)

(** [statusMatch ? statusMatch[1] : 'unknown'] *)
Definition statusOf (content : jsstring) : jsstring :=
  match search (execAt (fieldRe (js "status"))) content with
  | Some x => m_group x
  | None => js "unknown"
  end.

(** [typeMatch ? typeMatch[1] : 'general'] *)
Definition typeOf (content : jsstring) : jsstring :=
  match search (execAt (fieldRe (js "type"))) content with
  | Some x => m_group x
  | None => js "general"
  end.

(** The title: the file name without its first [.md], overridden by the
    first line of the content. *)
Definition titleOf (file content : jsstring) : jsstring :=
  let title := replace_first (match_literal_at (js ".md")) [] file in
  let firstLine := firstLineOf content in
  if startsWith firstLine (js "# ") then trim (drop 2 firstLine)
  else if startsWith firstLine (js "## ") then trim (drop 3 firstLine)
  else match trim firstLine with
       | _ :: _ => take 50 (trim firstLine)
       | [] => title
       end.

(** The routing rule: [(targetLabel, targetModel)] of a task type. *)
Definition route (type : jsstring) : jsstring * jsstring :=
  if jseqb type (js "coding")
  then (js "tech_team", js "google-antigravity/claude-opus-4-5-thinking")
  else (js "handyman", js "google-antigravity/gemini-3-pro-high").

(** The replacement text of the dispatch write: [status: ] and the word
    [dispatched] between two double quotes (code unit 34). *)
Definition dispatchedField : jsstring :=
  js "status: " ++ [34%N] ++ js "dispatched" ++ [34%N].

Definition markDispatched (content : jsstring) : jsstring :=
  replace_first (execAt pendingRe) dispatchedField content.

(** ** [Array.prototype.sort]

    The sort of an array is stable. For a comparator that is a total
    preorder the result is therefore the one of a stable insertion sort,
    which is how the sort is written here: an element goes in front of the
    first one it does not compare greater than. (For a comparator that is
    not consistent the order an engine gives is its own; the list is a
    permutation of the array all the same.) *)
Fixpoint insertBy {A} (cmp : A -> A -> Z) (x : A) (l : list A) : list A :=
  match l with
  | [] => [x]
  | u :: l' => if cmp x u <=? 0 then x :: l else u :: insertBy cmp x l'
  end.

Definition sortBy {A} (cmp : A -> A -> Z) (l : list A) : list A :=
  foldr (insertBy cmp) [] l.

(** ** Workers *)

Inductive agent_status := active | idle.

(** One element of the array [parseSessionsFile] returns. A field that can
    be [undefined] is an [option]. *)
(** A label is a text, or one of the objects every object inherits from
    [Object.prototype], which [labelMapping[label]] gives for a label that
    names one; [text] is what [String] makes of the object. *)
Inductive jslabel :=
| LText (s : jsstring)
| LObject (text : jsstring).

#[global] Instance jslabel_eq_dec : EqDecision jslabel.
Proof. solve_decision. Defined.

(** The property key a label stands for, and what a template literal
    prints for it. *)
Definition labelKey (l : jslabel) : jsstring :=
  match l with LText s => s | LObject text => text end.

Record agent := Agent {
  a_key : option jsstring;
  a_label : jslabel;
  a_model : jsstring;
  a_status : agent_status;
  a_ageMs : Z;
  a_tokens : Z;
  a_sessionId : option jsstring;
  a_updatedAt : option Z;
  a_sessionFile : option jsstring
}.

Definition is_active (st : agent_status) : bool :=
  match st with active => true | idle => false end.

(** [label === text]: an object is not equal to a text. *)
Definition labelIs (l : jslabel) (text : jsstring) : bool :=
  match l with LText s => jseqb s text | LObject _ => false end.

(** [agents.some(a => a.label === targetLabel && a.status === 'active')] *)
Definition isBusy (agents : list agent) (targetLabel : jsstring) : bool :=
  existsb (fun a => labelIs (a_label a) targetLabel && is_active (a_status a))
          agents.

(** ** The inbox directory

    The directory is the list [readdirSync] returns, in its order, and a
    store from entry names to nodes. An entry can be a regular file, a
    directory (which [statSync] accepts and [readFileSync] refuses) or be
    gone from the store (a dangling link, or a file removed since the
    listing), which [statSync] refuses. A regular file has its bytes, its
    modification time [mtimeMs], a fractional number of milliseconds, and
    what the process may do with it: [readFileSync] throws on a file it may
    not read, [writeFileSync] on a file it may not write. *)

Record file := File {
  bytes : list N;
  mtimeMs : Q;
  mayRead : bool;
  mayWrite : bool
}.

(** The text [readFileSync(path, 'utf8')] gives for the file. *)
Definition content (f : file) : jsstring := decodeUtf8 (bytes f).

Inductive node := Regular (f : file) | Directory (mtime : Q).

(** [NoInbox]: the inbox directory does not exist, or cannot be listed. *)
Inductive inbox := NoInbox | Inbox (files : list jsstring).

Inductive errno := ENOENT | EISDIR | EACCES.

Definition statSync (fs : gmap jsstring node) (name : jsstring) : errno + Q :=
  match fs !! name with
  | None => inl ENOENT
  | Some (Regular f) => inr (mtimeMs f)
  | Some (Directory m) => inr m
  end.

Definition readFileSync (fs : gmap jsstring node) (name : jsstring)
  : errno + jsstring :=
  match fs !! name with
  | None => inl ENOENT
  | Some (Regular f) => if mayRead f then inr (content f) else inl EACCES
  | Some (Directory _) => inl EISDIR
  end.

(** The file [f] after [data] was written to it at the time [stamp]. *)
Definition written (f : file) (data : jsstring) (stamp : Q) : file :=
  File (encodeUtf8 data) stamp (mayRead f) (mayWrite f).

(** [writeFileSync(path, data)]: the store it leaves, or the error it
    throws. A name that is gone is created when the directory allows it
    ([create]). *)
Definition writeFileSync (fs : gmap jsstring node) (name data : jsstring)
    (stamp : Q) (create : bool) : errno + gmap jsstring node :=
  match fs !! name with
  | Some (Regular f) =>
      if mayWrite f then inr (<[name := Regular (written f data stamp)]> fs)
      else inl EACCES
  | Some (Directory _) => inl EISDIR
  | None =>
      if create
      then inr (<[name := Regular (File (encodeUtf8 data) stamp true true)]> fs)
      else inl EACCES
  end.

(** ** The router *)

Record task := Task {
  id : jsstring;
  title : jsstring;
  status : jsstring;
  updatedAt : Z
}.

(** A worker invocation [exec(command, callback)]. The command line names
    the target label, the target model and, through the task instruction,
    the path of the task file; the callback keeps the path and the content
    read before the dispatch. *)
Record spawn := Spawn {
  sp_file : jsstring;
  sp_label : jsstring;
  sp_model : jsstring;
  sp_content : jsstring
}.

(** The effects of a tick, in program order. *)
Inductive event :=
| EvWrite (name data : jsstring)
| EvExec (r : spawn).

(** The clock: the reading [Date.now()] gives in the [k]-th dispatch of the
    tick, and the modification time its write leaves on the file. *)
Record env := Env {
  dateNow : nat -> Z;
  writeStamp : nat -> Q;
  mayCreate : bool          (* the inbox directory takes new entries *)
}.

Record rstate := RState {
  st_fs : gmap jsstring node;
  st_tasks : list task;     (* the array [tasks] *)
  st_log : list event;
  st_n : nat                (* dispatches so far *)
}.

Inductive outcome :=
| Next (s : rstate)
| Thrown (e : errno) (s : rstate).

Definition inboxId (file : jsstring) : jsstring := js "inbox-" ++ file.

Definition push (t : task) (s : rstate) : rstate :=
  RState (st_fs s) (st_tasks s ++ [t]) (st_log s) (st_n s).

(** The body of [for (const file of files)]. The dispatch write comes
    before the invocation and before the record is pushed: when it throws,
    the file has neither. *)
Definition step (E : env) (agents : list agent) (file : jsstring)
    (s : rstate) : outcome :=
  if negb (endsWith file (js ".md")) then Next s else
  match statSync (st_fs s) file with
  | inl e => Thrown e s
  | inr mtime =>
  match readFileSync (st_fs s) file with
  | inl e => Thrown e s
  | inr content =>
      let status := statusOf content in
      let title := titleOf file content in
      let shown := push (Task (inboxId file) title status (Qfloor mtime)) s in
      if jseqb status (js "pending") then
        let '(targetLabel, targetModel) := route (typeOf content) in
        if negb (isBusy agents targetLabel) then
          let newContent := markDispatched content in
          match writeFileSync (st_fs s) file newContent
                              (writeStamp E (st_n s)) (mayCreate E) with
          | inl e => Thrown e s
          | inr fs' =>
              Next (RState
                      fs'
                      (st_tasks s ++
                       [Task (inboxId file) title (js "dispatched")
                             (dateNow E (st_n s))])
                      (st_log s ++
                       [EvWrite file newContent;
                        EvExec (Spawn file targetLabel targetModel content)])
                      (S (st_n s)))
          end
        else Next shown
      else Next shown
  end
  end.

(** The loop: an exception leaves it, with what was done so far. *)
Fixpoint scan (E : env) (agents : list agent) (files : list jsstring)
    (s : rstate) : outcome :=
  match files with
  | [] => Next s
  | file :: rest =>
      match step E agents file s with
      | Next s' => scan E agents rest s'
      | Thrown e s' => Thrown e s'
      end
  end.

(** [tasks.sort((a, b) => a.updatedAt - b.updatedAt)] *)
Definition sortTasks (l : list task) : list task :=
  sortBy (fun a b => updatedAt a - updatedAt b) l.

(** [processInbox(agents)]: the array it returns and the state it leaves.
    The [try] encloses the whole loop and the sort; the [catch] only logs. *)
Definition processInbox (E : env) (agents : list agent) (dir : inbox)
    (fs : gmap jsstring node) : list task * rstate :=
  let s0 := RState fs [] [] 0 in
  match dir with
  | NoInbox => ([], s0)
  | Inbox files =>
      match scan E agents files s0 with
      | Next s => (sortTasks (st_tasks s), s)
      | Thrown _ s => (st_tasks s, s)
      end
  end.

(** The callback of [exec], run after the tick when the invocation ends:
    on an error it writes the saved content back. The write is outside any
    [try]: when it throws, the store stays as it is. *)
Definition execCallback (r : spawn) (err : bool) (stamp : Q) (create : bool)
    (fs : gmap jsstring node) : errno + gmap jsstring node :=
  if err then writeFileSync fs (sp_file r) (sp_content r) stamp create
  else inr fs.

(** The invocations of a log. *)
Definition execsOf (log : list event) : list spawn :=
  omap (fun e => match e with EvExec r => Some r | EvWrite _ _ => None end) log.

(** ** The session registry *)

(** A record of [sessions.json]; a field that can be absent is an
    [option]. *)
Record session := Session {
  s_sessionId : option jsstring;
  s_key : option jsstring;
  s_label : option jsstring;
  s_model : option jsstring;
  s_modelProvider : option jsstring;
  s_updatedAt : option Z;
  s_totalTokens : option Z;
  s_inputTokens : option Z;
  s_outputTokens : option Z;
  s_sessionFile : option jsstring
}.

(** [x || d] for a string that can be [undefined]: the empty string is
    falsy too. *)
Definition strOr (x : option jsstring) (d : jsstring) : jsstring :=
  match x with
  | Some (c :: r) => c :: r
  | _ => d
  end.

(** [x || 0] for a number that can be [undefined]. *)
Definition numOr0 (x : option Z) : Z := default 0 x.

Definition mainKey : jsstring := js "agent:main:main".
Definition mainSessionId : jsstring := js "5907ddda-6411-4999-9578-7e841f351d63".
(* the label of the main session, two code units U+7F8A *)
Definition mainLabel : jsstring := [0x7F8A; 0x7F8A]%N.

(** The names of the properties every object inherits from
    [Object.prototype]. *)
Definition inheritedNames : list jsstring :=
  [js "constructor"; js "__defineGetter__"; js "__defineSetter__";
   js "hasOwnProperty"; js "__lookupGetter__"; js "__lookupSetter__";
   js "isPrototypeOf"; js "propertyIsEnumerable"; js "toString";
   js "valueOf"; js "__proto__"; js "toLocaleString"].

(** [name] is the name of an inherited property: a look-up of [name] in an
    object written as a literal finds something, and what it finds is an
    object, which is truthy. *)
Definition inherited (name : jsstring) : bool :=
  bool_decide (name ∈ inheritedNames).

(** What [String] makes of the inherited property: [__proto__] is the
    prototype itself, [constructor] is the function [Object], and each of
    the others is a built-in function of its own name. *)
Definition inheritedText (name : jsstring) : jsstring :=
  if jseqb name (js "__proto__") then js "[object Object]"
  else js "function "
       ++ (if jseqb name (js "constructor") then js "Object" else name)
       ++ js "() { [native code] }".

(** [labelMapping[label]]: one of the three entries of the table, or the
    object inherited under the name [label], or [undefined]. *)
Definition labelMapping (label : jsstring) : option jslabel :=
  if jseqb label (js "coding_team") then Some (LText [0x7A0B; 0x5F0F; 0x7D44]%N)
  else if jseqb label (js "dev_team") then Some (LText [0x958B; 0x767C; 0x7D44]%N)
  else if jseqb label (js "handyman") then Some (LText [0x96DC; 0x5DE5]%N)
  else if inherited label then Some (LObject (inheritedText label))
  else None.

Definition optEqb (x : option jsstring) (v : jsstring) : bool :=
  match x with Some y => jseqb y v | None => false end.

(** The body of [Object.values(data).forEach(session => ...)]. *)
Definition toAgent (now : Z) (session : session) : agent :=
  let ageMs := now - numOr0 (s_updatedAt session) in
  let isActive := ageMs <? 300000 in
  let label := strOr (s_label session) (js "Unknown") in
  let label :=
    match labelMapping label with
    | Some l => l
    | None =>
        if optEqb (s_sessionId session) mainSessionId
           || optEqb (s_key session) mainKey
        then LText mainLabel else LText label
    end in
  (* [inputTokens + outputTokens || 0]: a sum with [undefined] is [NaN] *)
  let sum :=
    match s_inputTokens session, s_outputTokens session with
    | Some i, Some o => i + o
    | _, _ => 0
    end in
  Agent (s_sessionId session)
        label
        (strOr (s_model session) (strOr (s_modelProvider session) (js "unknown")))
        (if isActive then active else idle)
        ageMs
        (match s_totalTokens session with
         | Some t => if t =? 0 then sum else t
         | None => sum
         end)
        (s_sessionId session)
        (s_updatedAt session)
        (s_sessionFile session).

(** [labelCounts]: how many agents carry each label. The table is keyed by
    the label as a property key; no label [toAgent] gives is the name of an
    inherited property, so that the table is a map. *)
Definition countLabels (agents : list agent) : gmap jsstring nat :=
  foldl (fun m a => <[labelKey (a_label a) :=
                        S (default 0%nat (m !! labelKey (a_label a)))]> m)
        ∅ agents.

(** A count in decimal, as a template literal prints it. *)
Definition decimal (n : nat) : jsstring :=
  js (DecimalString.NilEmpty.string_of_uint (Nat.to_uint n)).

Definition withLabel (a : agent) (l : jslabel) : agent :=
  Agent (a_key a) l (a_model a) (a_status a) (a_ageMs a) (a_tokens a)
        (a_sessionId a) (a_updatedAt a) (a_sessionFile a).

(** The second pass: a label carried more than once, the main one apart,
    gets a running number. *)
Fixpoint suffixLabels (labelCounts currentCounts : gmap jsstring nat)
    (agents : list agent) : list agent :=
  match agents with
  | [] => []
  | a :: rest =>
      let key := labelKey (a_label a) in
      if (1 <? default 0 (labelCounts !! key))%nat
         && negb (labelIs (a_label a) mainLabel)
      then
        let n := S (default 0%nat (currentCounts !! key)) in
        withLabel a (LText (key ++ js "-" ++ decimal n))
        :: suffixLabels labelCounts (<[key := n]> currentCounts) rest
      else a :: suffixLabels labelCounts currentCounts rest
  end.

(** The comparator of the final sort: the main label first, then by age. *)
Definition agentCmp (a b : agent) : Z :=
  if labelIs (a_label a) mainLabel then -1
  else if labelIs (a_label b) mainLabel then 1
  else a_ageMs a - a_ageMs b.

(** [parseSessionsFile()]: [registry] is [None] when the file is absent or
    does not parse, and the values of the parsed object otherwise. *)
Definition parseSessionsFile (now : Z) (registry : option (list session))
  : list agent :=
  match registry with
  | None => []
  | Some sessions =>
      let agents := map (toAgent now) sessions in
      sortBy agentCmp (suffixLabels (countLabels agents) ∅ agents)
  end.

(** ** [getTasks] *)

(** A record of the merged task list: the fields of a session can be
    [undefined]. *)
Record shown := Shown {
  sh_id : option jsstring;
  sh_title : jsstring;
  sh_status : jsstring;
  sh_updatedAt : option Z
}.

Definition ofTask (t : task) : shown :=
  Shown (Some (id t)) (title t) (status t) (Some (updatedAt t)).

(** What an [async] function resolves to: [return;] gives [undefined]. *)
Inductive jsvalue := Undefined | TaskList (l : list shown).

(** A comparison with [NaN] ([now - undefined]) is false. *)
Definition olderThan (now : Z) (u : option Z) (ms : Z) : bool :=
  match u with Some t => now - t >? ms | None => false end.

Definition isDone (now : Z) (session : session) : bool :=
  match s_totalTokens session with Some t => t >? 0 | None => false end
  && olderThan now (s_updatedAt session) 120000.

(** The sessions the loop passes over with [continue]. *)
Definition hidden (now : Z) (session : session) : bool :=
  isDone now session && olderThan now (s_updatedAt session) 3600000.

(** The code units whose lower case is an ASCII letter: the capital letters
    and the Kelvin sign. [toLowerCase] is only compared with an ASCII word,
    for which no other code unit matters. *)
Definition lowerUnit (c : N) : N :=
  (if (65 <=? c) && (c <=? 90) then c + 32
   else if c =? 0x212A then 107 else c)%N.

Definition toLowerCase (s : jsstring) : jsstring := map lowerUnit s.

Definition includes (s p : jsstring) : bool :=
  match search (match_literal_at p) s with Some _ => true | None => false end.

Inductive bodyResult :=
| BContinue               (* [continue] *)
| BReturn                 (* [return;] *)
| BThrow                  (* a TypeError, caught by the function *)
| BPush (t : shown).

(** The body of [for (const session of sessions)]. [titleFromLog] stands
    for [getTaskTitleFromLog], which reads the transcript of a session. *)
Definition sessionBody (titleFromLog : jsstring -> option jsstring)
    (now : Z) (session : session) : bodyResult :=
  if hidden now session then BContinue else
  let status := if isDone now session then js "done" else js "running" in
  let label := strOr (s_label session) (js "Unknown") in
  let title :=
    match s_sessionFile session with
    | Some (c :: f) =>
        match titleFromLog (c :: f) with
        | Some (d :: t) => d :: t
        | _ => label
        end
    | _ => label
    end in
  let translated : option jsstring :=
    if jseqb title label then
      if jseqb label (js "coding_team")
      then Some [0x7A0B; 0x5F0F; 0x7D44; 0x4EFB; 0x52D9]%N
      else if jseqb label (js "dev_team")
      then Some [0x958B; 0x767C; 0x7D44; 0x4EFB; 0x52D9]%N
      else if jseqb label (js "handyman")
      then Some [0x96DC; 0x5DE5; 0x4EFB; 0x52D9]%N
      else if jseqb (toLowerCase label) (js "unknown") then
        match s_sessionId session with
        | None => None
        | Some sid =>
            Some (if includes sid (js "subagent")
                  then [0x5B50; 0x4EFB; 0x52D9]%N
                  else [0x7CFB; 0x7D71; 0x7DAD; 0x8B77]%N)
        end
      else Some title
    else Some title in
  match translated with
  | None => BThrow
  | Some title =>
      if optEqb (s_key session) mainKey then BReturn
      else BPush (Shown (s_sessionId session) title status
                        (s_updatedAt session))
  end.

Inductive loopResult :=
| LDone (tasks : list shown)
| LReturn
| LThrow.

Fixpoint sessionLoop (titleFromLog : jsstring -> option jsstring) (now : Z)
    (sessions : list session) (tasks : list shown) : loopResult :=
  match sessions with
  | [] => LDone tasks
  | session :: rest =>
      match sessionBody titleFromLog now session with
      | BContinue => sessionLoop titleFromLog now rest tasks
      | BReturn => LReturn
      | BThrow => LThrow
      | BPush t => sessionLoop titleFromLog now rest (tasks ++ [t])
      end
  end.

(** [(a, b) => b.updatedAt - a.updatedAt], for two records that have their
    [updatedAt]. *)
Definition sessionCmp (a b : session) : Z :=
  numOr0 (s_updatedAt b) - numOr0 (s_updatedAt a).

(** [Object.values(data).sort((a, b) => b.updatedAt - a.updatedAt)]. When
    every record has its [updatedAt] the comparator is consistent and the
    sort, which is stable, gives the newest first. When a record lacks it
    the comparator gives [NaN] for that record and the order is the
    engine's own, [engine values]: a permutation of the array, about which
    the language says nothing more. *)
Definition sortSessions (engine : list session -> list session)
    (values : list session) : list session :=
  if forallb (fun s => bool_decide (is_Some (s_updatedAt s))) values
  then sortBy sessionCmp values
  else engine values.

(* the title of the scheduled entry *)
Definition cronTitle : jsstring :=
  [0x6BCF; 0x65E5; 0x0020; 0x0032; 0x0032; 0x003A; 0x0030; 0x0030; 0x0020;
   0x512A; 0x5316; 0x56DE; 0x9867]%N.

(** What [getTasks] does with the sorted array. *)
Definition tasksFrom (titleFromLog : jsstring -> option jsstring) (now : Z)
    (sessions : list session) : jsvalue :=
  match sessionLoop titleFromLog now sessions [] with
  | LDone tasks =>
      TaskList (tasks ++ [Shown (Some (js "cron-daily")) cronTitle
                                (js "scheduled") (Some now)])
  | LReturn => Undefined
  | LThrow => TaskList []
  end.

(** [getTasks()]: what its promise resolves to. *)
Definition getTasks (engine : list session -> list session)
    (titleFromLog : jsstring -> option jsstring) (now : Z)
    (registry : option (list session)) : jsvalue :=
  match registry with
  | None => TaskList []
  | Some values => tasksFrom titleFromLog now (sortSessions engine values)
  end.

(** [const allTasks = [...inboxTasks, ...tasks]] in [updateStatus]: to
    spread [undefined] is a TypeError. *)
Inductive merged := TypeError | AllTasks (l : list shown).

Definition mergeTasks (inboxTasks : list task) (tasks : jsvalue) : merged :=
  match tasks with
  | Undefined => TypeError
  | TaskList l => AllTasks (map ofTask inboxTasks ++ l)
  end.

(** * Vocabulary of the properties *)

(** ** The patterns without backtracking

    In each pattern of the router, to give back a white space or the quote
    leaves a white space or a quote in front of an item that accepts
    neither: backtracking never finds a match that the greedy reading
    misses. The readers below take each item once; they are shown to agree
    with [execAt]. *)

(** An optional quote (the class of [is_quote], once or not at all) at the
    head of [s]. *)
Definition opt_quote (s : jsstring) : jsstring * jsstring :=
  match s with
  | c :: r => if is_quote c then ([c], r) else ([], s)
  | [] => ([], [])
  end.

(** [fieldRe key] read once from left to right, each item taking as much as
    it can: it gives the matched text, the captured word and the rest. *)
Definition match_field_at (key s : jsstring)
  : option (jsstring * jsstring * jsstring) :=
  match strip_prefix (key ++ js ":") s with
  | None => None
  | Some r0 =>
      let '(ws, r1) := span is_space r0 in
      let '(oq, r2) := opt_quote r1 in
      let '(w, r3) := span is_word r2 in
      match w with
      | [] => None
      | _ :: _ =>
          let '(cq, r4) := opt_quote r3 in
          Some (key ++ js ":" ++ ws ++ oq ++ w ++ cq, w, r4)
      end
  end.

(** [pendingRe] read once from left to right. *)
Definition match_pending_at (s : jsstring)
  : option (jsstring * jsstring * jsstring) :=
  match strip_prefix (js "status:") s with
  | None => None
  | Some r0 =>
      let '(ws, r1) := span is_space r0 in
      let '(oq, r2) := opt_quote r1 in
      match strip_prefix (js "pending") r2 with
      | None => None
      | Some r3 =>
          let '(cq, r4) := opt_quote r3 in
          Some (js "status:" ++ ws ++ oq ++ js "pending" ++ cq, [], r4)
      end
  end.

(** Decides a fact on the classes of code units. *)
Ltac class_lia :=
  unfold is_space, is_word, is_quote;
  rewrite ?orb_true_iff, ?andb_true_iff, ?N.leb_le, ?N.eqb_eq; lia.

(** Splits an equation between two results of a matcher without computing
    the literals inside. *)
Ltac split_result H :=
  let Ht := fresh "Ht" in
  let Hg := fresh "Hg" in
  let Hr := fresh "Hr" in
  apply (inj Some) in H;
  apply pair_equal_spec in H as [H Hr];
  apply pair_equal_spec in H as [Ht Hg].

(** Nothing, or one quote. *)
Definition quoteish (oq : jsstring) : Prop :=
  oq = [] \/ exists c, is_quote c = true /\ oq = [c].

(** The text starts with a quote. *)
Definition headQuote (s : jsstring) : bool :=
  match s with c :: _ => is_quote c | [] => false end.

(** The text starts with a status field whose value is [pending]: the key
    and the colon, white space, an optional quote, the word. *)
Definition pendingFieldAt (s : jsstring) : Prop :=
  exists ws oq rest,
    s = js "status:" ++ ws ++ oq ++ js "pending" ++ rest /\
    Forall (fun c => is_space c = true) ws /\ quoteish oq.

(** The first and the last code unit of the text are ASCII. *)
Definition asciiEnds (t : jsstring) : Prop :=
  exists a m z, t = a :: m ++ [z] /\ (a < 0x80)%N /\ (z < 0x80)%N.

(** ** Files and records of a tick *)

Definition isMd (file : jsstring) : bool := endsWith file (js ".md").

(** The entry is a regular file the process may read. *)
Definition readable (fs : gmap jsstring node) (file : jsstring) : Prop :=
  exists f, fs !! file = Some (Regular f) /\ mayRead f = true.

(** The entry is a regular file the process may write. *)
Definition writable (fs : gmap jsstring node) (file : jsstring) : Prop :=
  exists f, fs !! file = Some (Regular f) /\ mayWrite f = true.

(** The label a task file is routed to. *)
Definition targetOf (content : jsstring) : jsstring := (route (typeOf content)).1.

(** The status read from the content is [pending]. *)
Definition isPending (content : jsstring) : bool :=
  jseqb (statusOf content) (js "pending").

(** The router dispatches a file when it is pending and its target is not
    busy in the snapshot. *)
Definition dispatchable (agents : list agent) (content : jsstring) : bool :=
  isPending content && negb (isBusy agents (targetOf content)).

(** The body of the loop does not throw on the entry: it is a readable
    file, and a writable one when the router dispatches it. *)
Definition passes (agents : list agent) (fs : gmap jsstring node)
    (file : jsstring) : Prop :=
  exists f, fs !! file = Some (Regular f) /\ mayRead f = true /\
            (dispatchable agents (content f) = true -> mayWrite f = true).

(** The record of a file that is shown as it is. *)
Definition shownTask (file content : jsstring) (mtime : Q) : task :=
  Task (inboxId file) (titleOf file content) (statusOf content) (Qfloor mtime).

(** The record of a file dispatched with the [k]-th clock reading. *)
Definition freshTask (E : env) (k : nat) (file content : jsstring) : task :=
  Task (inboxId file) (titleOf file content) (js "dispatched") (dateNow E k).

(** The invocation of a dispatch. *)
Definition spawnOf (file content : jsstring) : spawn :=
  Spawn file (route (typeOf content)).1 (route (typeOf content)).2 content.

(** The file a dispatch leaves in the place of [f]. *)
Definition dispatchedFile (E : env) (f : file) (k : nat) : file :=
  written f (markDispatched (content f)) (writeStamp E k).

(** The state the dispatch of the file [f] leaves. *)
Definition dispatchState (E : env) (name : jsstring) (f : file) (s : rstate)
  : rstate :=
  RState (<[name := Regular (dispatchedFile E f (st_n s))]> (st_fs s))
         (st_tasks s ++ [freshTask E (st_n s) name (content f)])
         (st_log s ++ [EvWrite name (markDispatched (content f));
                       EvExec (spawnOf name (content f))])
         (S (st_n s)).

(** The state a body or a scan leaves, thrown or not. *)
Definition final (o : outcome) : rstate :=
  match o with Next s => s | Thrown _ s => s end.

(** An event that concerns a file: a write to it or an invocation for it. *)
Definition touches (file : jsstring) (ev : event) : Prop :=
  match ev with
  | EvWrite g _ => g = file
  | EvExec r => sp_file r = file
  end.

(** [t] is the record of a file dispatched in the tick that ended in [s']:
    the dispatch of the file is the [k]-th of the tick, counted from zero,
    and the record carries the clock reading of that dispatch. *)
Definition freshEntry (E : env) (agents : list agent)
    (fs : gmap jsstring node) (files : list jsstring) (s' : rstate) (t : task)
  : Prop :=
  exists file f k,
    file ∈ files /\ isMd file = true /\
    fs !! file = Some (Regular f) /\ mayRead f = true /\ mayWrite f = true /\
    dispatchable agents (content f) = true /\
    execsOf (st_log s') !! k = Some (spawnOf file (content f)) /\
    t = freshTask E k file (content f).

(** [t] is the record of a file shown as the tick found it. *)
Definition shownEntry (agents : list agent) (fs : gmap jsstring node)
    (files : list jsstring) (t : task) : Prop :=
  exists file f,
    file ∈ files /\ isMd file = true /\
    fs !! file = Some (Regular f) /\ mayRead f = true /\
    dispatchable agents (content f) = false /\
    t = shownTask file (content f) (mtimeMs f).

(** A file was dispatched in the tick that ended in [s']. *)
Definition dispatchedIn (s' : rstate) (file : jsstring) : Prop :=
  exists r, EvExec r ∈ st_log s' /\ sp_file r = file.

(** The scan reaches [file]: the body of the loop throws on no [.md] entry
    listed before it. *)
Definition reached (agents : list agent) (fs : gmap jsstring node)
    (files : list jsstring) (file : jsstring) : Prop :=
  exists l1 l2,
    files = l1 ++ file :: l2 /\
    forall g, g ∈ l1 -> isMd g = true -> passes agents fs g.

(** No place of [c] reads as the field [key]: wherever the key and a colon
    stand, what follows the white space and the optional quote is not a
    word. *)
Definition noField (key c : jsstring) : Prop :=
  forall pre ws oq w post,
    c = pre ++ key ++ js ":" ++ ws ++ oq ++ w :: post ->
    Forall (fun x => is_space x = true) ws -> quoteish oq ->
    is_word w = false.

(** ** An example inbox and an example registry *)

Definition nl : jsstring := [10%N].

(** A task file with a metadata block and a body. *)
Definition taskText (st ty : string) : jsstring :=
  js "---" ++ nl ++ js "status: " ++ js st ++ nl ++ js "type: " ++ js ty
  ++ nl ++ js "---" ++ nl ++ js "Fix the build".

(** A file with the bytes of an ASCII text, last modified at [mtime],
    which the process may read and write. *)
Definition textFile (text : jsstring) (mtime : Z) : file :=
  File text (inject_Z mtime) true true.

(** The same for a task file. *)
Definition taskFile (st ty : string) (mtime : Z) : node :=
  Regular (textFile (taskText st ty) mtime).

(** A clock that reads 1000 at the first dispatch. *)
Definition exEnv : env :=
  Env (fun k => 1000 + Z.of_nat k) (fun k => inject_Z (1000 + Z.of_nat k))
      true.

(** Two pending coding tasks, a completed task, a note without metadata and
    a sub-directory whose name ends in [.md]. *)
Definition exInbox : gmap jsstring node :=
  <[js "n.md" := Regular (textFile (js "Buy milk") 70)]>
  (<[js "a.md" := taskFile "pending" "coding" 100]>
  (<[js "b.md" := taskFile "pending" "coding" 200]>
  (<[js "c.md" := taskFile "completed" "general" 50]>
  (<[js "d.md" := Directory (inject_Z 10)]> ∅)))).

(** A pending task the process may read and not write, and one it may
    write. *)
Definition lockedInbox : gmap jsstring node :=
  <[js "l.md" := Regular (File (taskText "pending" "general")
                               (inject_Z 30) true false)]>
  (<[js "a.md" := taskFile "pending" "coding" 100]> ∅).

(** A pending task whose status stands between double quotes after one
    space, and whose last byte is no UTF-8. *)
Definition quotedTask : jsstring :=
  js "---" ++ nl ++ js "status: " ++ [34%N] ++ js "pending" ++ [34%N] ++ nl
  ++ js "type: coding" ++ nl ++ js "---" ++ nl ++ js "Fix the build".

Definition rawFile : file :=
  File (quotedTask ++ [0xFF%N]) (inject_Z 100) true true.

Definition rawInbox : gmap jsstring node :=
  <[js "a.md" := Regular rawFile]> ∅.

(** An active worker labelled [tech_team]. *)
Definition techWorker : agent :=
  Agent (Some (js "s1")) (LText (js "tech_team")) (js "m") active 1000 0
        (Some (js "s1")) (Some 0) None.

(** Membership in a list written out. *)
Ltac in_list :=
  first [apply list_elem_of_here | apply list_elem_of_further; in_list].

(** A listing written out has no repeated name. *)
Ltac nodup_list :=
  match goal with
  | |- NoDup ?l => exact (bool_decide_unpack (NoDup l) I)
  end.

(** A side condition on the example inbox. *)
Ltac ex_side :=
  first [apply surjective_pairing | in_list | vm_compute; reflexivity].

(** The record of the main session. *)
Definition mainRecord (updatedAt : Z) : session :=
  Session (Some mainSessionId) (Some mainKey) (Some (js "main")) None None
          (Some updatedAt) (Some 5) None None None.

(** The record of a worker session. *)
Definition workerRecord (name : string) (updatedAt : option Z) : session :=
  Session (Some (js name)) None (Some (js "tech_team")) None None
          updatedAt (Some 7) None None None.

(** An engine whose sort leaves the array as it is when the comparator is
    not consistent. *)
Definition asListed : list session -> list session := fun l => l.

(** No session has a transcript. *)
Definition noLog : jsstring -> option jsstring := fun _ => None.

(** What is true of a worker derived from a session record. *)
Definition derivedFrom (now : Z) (s : session) (a : agent) : Prop :=
  a_sessionId a = s_sessionId s /\ a_updatedAt a = s_updatedAt s /\
  (forall u, s_updatedAt s = Some u ->
     a_ageMs a = now - u /\ (a_status a = active <-> now - u < 300000)) /\
  (s_updatedAt s = None ->
     a_ageMs a = now - 0 /\ (a_status a = active <-> now - 0 < 300000) /\
     (300000 <= now -> a_status a = idle)).

(** The second pass of [parseSessionsFile] changes labels only. *)
Definition sameButLabel (a b : agent) : Prop := b = withLabel a (a_label b).

(** ** The title as the design document words it *)

(** [s.split(sep)] for a separator of one code unit. *)
Fixpoint splitOn (sep : N) (s : jsstring) : list jsstring :=
  match s with
  | [] => [[]]
  | c :: s' =>
      if (c =? sep)%N then [] :: splitOn sep s'
      else match splitOn sep s' with
           | l :: ls => (c :: l) :: ls
           | [] => [[c]]
           end
  end.

(** The text of a heading line: one or more [#], a space, the text. *)
Definition headingText (l : jsstring) : option jsstring :=
  match span (fun c => (c =? 35)%N) l with
  | (_ :: _, 32%N :: text) => Some (trim text)
  | _ => None
  end.

(** The first line that is not empty. *)
Fixpoint firstNonEmpty (ls : list jsstring) : option jsstring :=
  match ls with
  | [] => None
  | [] :: ls' => firstNonEmpty ls'
  | (c :: l) :: _ => Some (c :: l)
  end.

(** The title as C10 words it: the text of the first line when it is a
    heading, otherwise the first non-empty line of the content cut to 50
    code units, otherwise the file name. *)
Definition claimedTitle (file content : jsstring) : jsstring :=
  match headingText (firstLineOf content) with
  | Some text => text
  | None =>
      match firstNonEmpty (splitOn 10 content) with
      | Some l => take 50 l
      | None => file
      end
  end.

(** ** The place a field pattern looks at for its word

    After the key and the colon the pattern skips white space and one
    optional quote; the word has to start right there. *)

Definition afterSkip (r0 : jsstring) : jsstring :=
  (opt_quote (span is_space r0).2).2.

Definition headWord (s : jsstring) : bool :=
  match s with c :: _ => is_word c | [] => false end.

(** ** The shape of a tick *)

(** The entries of a listing the loop looks at. *)
Definition taskFiles (files : list jsstring) : list jsstring :=
  List.filter isMd files.

(** What a dispatch adds to the effects: the write of the marked content,
    then the invocation. *)
Definition pairOf (r : spawn) : list event :=
  [EvWrite (sp_file r) (markDispatched (sp_content r)); EvExec r].

(** An invocation as the router builds one: for a task file whose content
    read as pending, to the label and the model of its type, the label not
    being busy in the snapshot. *)
Definition routed (agents : list agent) (r : spawn) : Prop :=
  r = spawnOf (sp_file r) (sp_content r) /\
  isMd (sp_file r) = true /\
  statusOf (sp_content r) = js "pending" /\
  isBusy agents (sp_label r) = false.

(** The effects are dispatches, one after the other, as many as counted. *)
Definition pairedLog (agents : list agent) (s : rstate) : Prop :=
  st_log s = flat_map pairOf (execsOf (st_log s)) /\
  length (execsOf (st_log s)) = st_n s /\
  Forall (routed agents) (execsOf (st_log s)).

(** ** Labels of a snapshot *)

(** How many workers carry the label [l], taken as a property key. *)
Definition carriers (l : jsstring) (agents : list agent) : nat :=
  length (filter (fun a => labelKey (a_label a) = l) agents).

(** The order of a snapshot: a worker with the main label before any
    other, and the others by age. *)
Definition mainThenAge (a b : agent) : Prop :=
  a_label a = LText mainLabel \/
  (a_label b <> LText mainLabel /\ a_ageMs a <= a_ageMs b).

(** ** The session tasks *)

(** The entry [getTasks] puts at the end of its list. *)
Definition cronEntry (now : Z) : shown :=
  Shown (Some (js "cron-daily")) cronTitle (js "scheduled") (Some now).

(** The task of a session record, its title apart. *)
Definition taskOf (now : Z) (s : session) (t : shown) : Prop :=
  sh_id t = s_sessionId s /\ sh_updatedAt t = s_updatedAt s /\
  sh_status t = (if isDone now s then js "done" else js "running").

(** [t] was updated before [u], or at the same time. *)
Definition notNewer (t u : shown) : Prop :=
  exists x y, sh_updatedAt t = Some x /\ sh_updatedAt u = Some y /\ x <= y.

(** ** [getTaskTitleFromLog]

    The transcript of a session is a file of lines; each line is parsed on
    its own. Of a parsed line the reader looks at the fields [type], [role],
    [content] and [message]. *)

(** A value of [content] or [message], as far as the reader tells values
    apart. *)
Inductive jsfield :=
| Falsy                    (* absent, [null], [false] or zero *)
| Text (s : jsstring)      (* a string; the empty one is falsy *)
| Other (longer : bool).   (* any other value: an array, an object, a number;
                              [longer]: its [length] is greater than 5 *)

(** A parsed line: [type] and [role] when they are strings. *)
Record entry := Entry {
  e_type : option jsstring;
  e_role : option jsstring;
  e_content : jsfield;
  e_message : jsfield
}.

Definition truthy (v : jsfield) : bool :=
  match v with
  | Falsy => false
  | Text [] => false
  | Text (_ :: _) => true
  | Other _ => true
  end.

(** [a || b] *)
Definition orField (a b : jsfield) : jsfield := if truthy a then a else b.

(** [entry.type === 'user' || entry.role === 'user'] *)
Definition isUser (e : entry) : bool :=
  optEqb (e_type e) (js "user") || optEqb (e_role e) (js "user").

(** [entry.content || entry.message || ''] *)
Definition textOf (e : entry) : jsfield :=
  orField (orField (e_content e) (e_message e)) (Text []).

(** [text.length > 5] *)
Definition longerThan5 (text : jsfield) : bool :=
  match text with
  | Falsy => false
  | Text s => (5 <? length s)%nat
  | Other longer => longer
  end.

(** The loop over the lines. A line is [None] when [JSON.parse] throws on
    it (or gives [null], on which the field access throws): the inner
    [catch] passes over it and the line is counted all the same. The result
    is the value of [firstUserMessage] after the loop, [None] for
    [null]. *)
Fixpoint firstUserMessage (lines : list (option entry)) (linesRead : nat)
  : option jsfield :=
  match lines with
  | [] => None
  | line :: rest =>
      if (10 <? linesRead)%nat then None else
      match line with
      | Some entry =>
          if isUser entry then
            let text := textOf entry in
            if longerThan5 text then Some text
            else firstUserMessage rest (S linesRead)
          else firstUserMessage rest (S linesRead)
      | None => firstUserMessage rest (S linesRead)
      end
  end.

(** [.] of a regular expression: any code unit but a line terminator. *)
Definition is_lineTerminator (c : N) : bool :=
  ((c =? 10) || (c =? 13) || (c =? 0x2028) || (c =? 0x2029))%N.

(** A lazy [c*?] in front of the rest [k] of a pattern: the rest is tried
    first, and one more code unit is taken only when it fails. [k] gives
    the text after the match. *)
Fixpoint lazyK (f : N -> bool) (k : jsstring -> option jsstring)
    (s : jsstring) : option jsstring :=
  match k s with
  | Some r => Some r
  | None =>
      match s with
      | c :: s' => if f c then lazyK f k s' else None
      | [] => None
      end
  end.

(** The end of the metadata pattern: a closing bracket (code unit 93) and
    all the white space that follows. *)
Definition closeBracket (s : jsstring) : option jsstring :=
  match s with
  | c :: r => if (c =? 93)%N then Some (trimStart r) else None
  | [] => None
  end.

(** [text.replace(/^\[.*?\]\s*/g, '')]: the pattern can only match at the
    start of the text, so that at most one match is removed. *)
Definition stripMeta (s : jsstring) : jsstring :=
  match s with
  | c :: s' =>
      if (c =? 91)%N then
        match lazyK (fun c => negb (is_lineTerminator c)) closeBracket s' with
        | Some r => r
        | None => s
        end
      else s
  | [] => s
  end.

(** [t.length > 50 ? t.substring(0, 50) + '...' : t] *)
Definition truncate50 (t : jsstring) : jsstring :=
  if (50 <? length t)%nat then take 50 t ++ js "..." else t.

(** [getTaskTitleFromLog(filePath)] on the lines of the file; [log] is
    [None] when the file does not exist or cannot be read. A message that
    is not a string has no [replace]: the call throws and the function
    returns [null]. *)
Definition getTaskTitleFromLog (log : option (list (option entry)))
  : option jsstring :=
  match log with
  | None => None
  | Some lines =>
      match firstUserMessage lines 0 with
      | Some (Text s) => Some (truncate50 (stripMeta s))
      | Some (Other _) => None
      | Some Falsy => None
      | None => None
      end
  end.

(** The line does not stop the loop. *)
Definition passedOver (line : option entry) : Prop :=
  forall e, line = Some e -> isUser e && longerThan5 (textOf e) = false.

(** A transcript: a line that does not parse, an entry of the system, and
    a message of the user behind a bracketed block. *)
Definition exLog : list (option entry) :=
  [None;
   Some (Entry (Some (js "system")) None (Text (js "session started")) Falsy);
   Some (Entry None (Some (js "user")) Falsy
               (Text (js "[Telegram 12:00] Please review the monitor script and report each failure")))].

(** ** [loadEnv] *)

(** [vals.join(sep)] for a separator of one code unit. *)
Fixpoint joinWith (sep : N) (l : list jsstring) : jsstring :=
  match l with
  | [] => []
  | [x] => x
  | x :: l' => x ++ sep :: joinWith sep l'
  end.

(** What a line of the file assigns: [const [key, ...vals] = line.split('=')]
    and, when [key] is not empty and [vals] has an element, the variable
    [key.trim()] and the value [vals.join('=').trim()]. *)
Definition assigned (line : jsstring) : option (jsstring * jsstring) :=
  match splitOn 61 line with
  | (c :: key) :: v :: vals =>
      Some (trim (c :: key), trim (joinWith 61 (v :: vals)))
  | _ => None
  end.

(** What [loadEnv] leaves: the process exits when the file cannot be
    read. *)
Inductive loaded :=
| Exit
| Loaded (env : gmap jsstring jsstring).

(** The body of [forEach(line => ...)]. An assignment to the variable whose
    name is empty (the key was white space) is ignored by the platform, and
    the next line is read. *)
Definition envLine (acc : loaded) (line : jsstring) : loaded :=
  match acc with
  | Loaded env =>
      match assigned line with
      | Some ([], _) => Loaded env
      | Some (name, value) => Loaded (<[name := value]> env)
      | None => Loaded env
      end
  | Exit => Exit
  end.

(** [loadEnv()]: [content] is [None] when [readFileSync] throws; [env] is
    [process.env] before the call. *)
Definition loadEnv (content : option jsstring) (env : gmap jsstring jsstring)
  : loaded :=
  match content with
  | None => Exit
  | Some c => foldl envLine (Loaded env) (splitOn 10 c)
  end.

(** The value the last line that assigns [name] gives it. *)
Fixpoint lastAssigned (name : jsstring) (lines : list jsstring)
  : option jsstring :=
  match lines with
  | [] => None
  | line :: rest =>
      match lastAssigned name rest with
      | Some v => Some v
      | None =>
          match assigned line with
          | Some (n, v) => if decide (n = name) then Some v else None
          | None => None
          end
      end
  end.

(** ** The health check of [updateStatus]

    The counter [consecutiveFailures] is written by the callbacks of the
    request, which run some time after the tick that sent it, and read by
    the check at the end of every tick. *)

Inductive hcEvent :=
| Response (statusCode : Z)   (* the response of a request has ended *)
| RequestError                (* a request has failed *)
| HealthCheck.                (* the check at the end of [updateStatus] *)

(** The counter, and the counts the alerts sent so far reported. *)
Record hcState := HcState {
  consecutiveFailures : nat;
  hc_alerts : list nat
}.

Definition MAX_FAILURES_BEFORE_ALERT : nat := 3.

Definition hcStep (s : hcState) (ev : hcEvent) : hcState :=
  match ev with
  | Response statusCode =>
      if (200 <=? statusCode) && (statusCode <? 300)
      then HcState 0 (hc_alerts s)
      else HcState (S (consecutiveFailures s)) (hc_alerts s)
  | RequestError => HcState (S (consecutiveFailures s)) (hc_alerts s)
  | HealthCheck =>
      if (MAX_FAILURES_BEFORE_ALERT <=? consecutiveFailures s)%nat
      then HcState 0 (hc_alerts s ++ [consecutiveFailures s])
      else s
  end.

Definition hcRun (evs : list hcEvent) (s : hcState) : hcState :=
  foldl hcStep s evs.

(** An event that counts as a failure. *)
Definition isFailure (ev : hcEvent) : bool :=
  match ev with
  | Response statusCode => negb ((200 <=? statusCode) && (statusCode <? 300))
  | RequestError => true
  | HealthCheck => false
  end.

(** [n] ticks whose requests all fail, each failure known before the next
    tick. *)
Definition failingTicks (n : nat) : list hcEvent :=
  concat (replicate n [HealthCheck; RequestError]).

(** ** The task array of the heartbeat *)

(** An element of the array [tasks] of the document: [id] is left out when
    it is [undefined]. *)
Record docTask := DocTask {
  d_id : option jsstring;
  d_title : jsstring;
  d_status : jsstring;
  d_updatedAt : Z
}.

(** [allTasks.map(t => ...)]: [t.updatedAt.toString()] on [undefined] is a
    TypeError, which nothing catches. *)
Definition tasksArray (allTasks : list shown) : option (list docTask) :=
  mapM (fun t => match sh_updatedAt t with
                 | Some u => Some (DocTask (sh_id t) (sh_title t) (sh_status t) u)
                 | None => None
                 end) allTasks.

(** The task array a tick sends, [None] when the tick throws before. *)
Definition publishedTasks (inboxTasks : list task) (tasks : jsvalue)
  : option (list docTask) :=
  match mergeTasks inboxTasks tasks with
  | TypeError => None
  | AllTasks l => tasksArray l
  end.

(** * The health check script

    [src/unnamed/part_000]: the dashboard is asked up to [retries] times;
    when every attempt fails an alert is sent. *)

(** How a request ends: with a response, with an error, or with the
    timeout. *)
Inductive httpOutcome :=
| Status (statusCode : nat)
| NetError (message : jsstring)
| Timeout.

(** What [checkHealth] resolves to. *)
Record probe := Probe { success : bool; p_message : jsstring }.

Definition checkHealth (o : httpOutcome) : probe :=
  match o with
  | Status statusCode =>
      Probe (statusCode =? 200)%nat (js "HTTP " ++ decimal statusCode)
  | NetError message => Probe false message
  | Timeout => Probe false (js "Request timeout")
  end.

(** The effects of a run, in order. *)
Inductive hEffect :=
| Get (attempt : nat)             (* a request to the dashboard *)
| Sleep                           (* [sleep(CONFIG.retryDelay)] *)
| Alert (status : jsstring).      (* the alert, with the last message *)

(** What the promise of [runHealthCheck] settles to. *)
Inductive report :=
| Healthy (attempts : nat)
| Down (attempts : nat) (error : jsstring)
| Rejected.   (* [lastResult.message] on [null] *)

(** [for (let attempt = 1; attempt <= retries; attempt++)], over the
    attempts still to make; [net attempt] is how the request of an attempt
    ends. The loop gives the attempt that succeeded, or the last result. *)
Fixpoint attemptLoop (net : nat -> httpOutcome) (retries : nat)
    (todo : list nat) (lastResult : option probe)
  : (nat + option probe) * list hEffect :=
  match todo with
  | [] => (inr lastResult, [])
  | attempt :: rest =>
      let result := checkHealth (net attempt) in
      if success result then (inl attempt, [Get attempt])
      else
        let '(e, log) := attemptLoop net retries rest (Some result) in
        (e, Get attempt :: (if (attempt <? retries)%nat then [Sleep] else [])
              ++ log)
  end.

(** [runHealthCheck()]; [configured]: the token and the chat of the alert
    are set, without which the alert is only logged. *)
Definition runHealthCheck (net : nat -> httpOutcome) (retries : nat)
    (configured : bool) : report * list hEffect :=
  match attemptLoop net retries (seq 1 retries) None with
  | (inl attempt, log) => (Healthy attempt, log)
  | (inr (Some lastResult), log) =>
      (Down retries (p_message lastResult),
       log ++ (if configured then [Alert (p_message lastResult)] else []))
  | (inr None, log) => (Rejected, log)
  end.

(** [process.exit(result.healthy ? 0 : 1)], and 1 when the promise is
    rejected. *)
Definition exitCode (r : report) : Z :=
  match r with Healthy _ => 0 | _ => 1 end.

(** The requests of the attempts [from], ..., [from + n - 1], each followed
    by the delay. *)
Definition failedAttempts (from n : nat) : list hEffect :=
  flat_map (fun a => [Get a; Sleep]) (seq from n).

(** * The model quotas: [parseModelsOutput]

    The patterns of this function are written with the rest of the pattern
    as a continuation: an item takes as much as it can and gives back one
    code unit at a time when the continuation fails. *)

Definition is_digit (c : N) : bool := ((48 <=? c) && (c <=? 57))%N.

(** A greedy [c*] after the [acc] already taken; [k] gets the text taken
    and the text left. *)
Fixpoint starR {R} (f : N -> bool) (k : jsstring -> jsstring -> option R)
    (acc s : jsstring) : option R :=
  match s with
  | c :: s' =>
      if f c then
        match starR f k (acc ++ [c]) s' with
        | Some x => Some x
        | None => k acc s
        end
      else k acc s
  | [] => k acc []
  end.

(** A greedy [c+]. *)
Definition plusR {R} (f : N -> bool) (k : jsstring -> jsstring -> option R)
    (s : jsstring) : option R :=
  match s with
  | c :: s' => if f c then starR f k [c] s' else None
  | [] => None
  end.

(** A literal text. *)
Definition litR {R} (l : jsstring) (k : jsstring -> option R) (s : jsstring)
  : option R :=
  match strip_prefix l s with Some r => k r | None => None end.

(** One code unit of a class. *)
Definition oneR {R} (f : N -> bool) (k : jsstring -> option R) (s : jsstring)
  : option R :=
  match s with c :: r => if f c then k r else None | [] => None end.

(** The leftmost place where a pattern matches. *)
Fixpoint searchR {R} (m : jsstring -> option R) (s : jsstring) : option R :=
  match m s with
  | Some x => Some x
  | None => match s with [] => None | _ :: s' => searchR m s' end
  end.

(** [/\x1B\[[0-9;]*[mK]/] at the head of [s]: the text after the match. *)
Definition ansiAt (s : jsstring) : option jsstring :=
  litR [27; 91]%N
    (starR (fun c => is_digit c || (c =? 59)%N)
       (fun _ => oneR (fun c => (c =? 109)%N || (c =? 75)%N) Some) [])
    s.

(** [output.replace(/\x1B\[[0-9;]*[mK]/g, '')]: every match is removed,
    from left to right, a match starting where the one before ended at the
    earliest. [skip] counts the code units of a match still to pass. *)
Fixpoint stripAnsi (s : jsstring) (skip : nat) : jsstring :=
  match s with
  | [] => []
  | c :: s' =>
      match skip with
      | S k => stripAnsi s' k
      | O =>
          match ansiAt s with
          | Some rest => stripAnsi s' (length s - length rest - 1)
          | None => c :: stripAnsi s' 0
          end
      end
  end.

(** [/(\S+)\s+(\d+)%\s+left/] at the head of [s]: the two groups and the
    text after the match. *)
Definition usageAt (s : jsstring) : option (jsstring * jsstring * jsstring) :=
  plusR (fun c => negb (is_space c))
    (fun name =>
       plusR is_space
         (fun _ =>
            plusR is_digit
              (fun digits =>
                 litR (js "%")
                   (plusR is_space
                      (fun _ => litR (js "left")
                                  (fun rest => Some (name, digits, rest)))))))
    s.

(** A number of the language that a quota can be: an integer that a double
    holds, or [Infinity]. *)
Inductive jsnum := Num (z : Z) | Infinity.

(** The double nearest to a natural number: below [2^53] the number itself;
    above, its first 53 binary digits, rounded to the nearest and to the
    even one on a tie; [Infinity] from [2^1024] on. *)
Definition toDouble (z : Z) : jsnum :=
  if z <? 2 ^ 53 then Num z
  else
    let e := Z.log2 z - 52 in
    let q := z / 2 ^ e in
    let r := z mod 2 ^ e in
    let half := 2 ^ (e - 1) in
    let q' := if (half <? r) || ((r =? half) && Z.odd q) then q + 1 else q in
    if 2 ^ 1024 <=? q' * 2 ^ e then Infinity else Num (q' * 2 ^ e).

(** The number a text of digits writes. *)
Definition decimalValue (digits : jsstring) : Z :=
  foldl (fun acc c => 10 * acc + (Z.of_N c - 48)) 0 digits.

(** [parseInt(digits, 10)] on a text of digits. *)
Definition parseInt (digits : jsstring) : jsnum :=
  toDouble (decimalValue digits).

(** The two filters on the name of a match. *)
Definition keepName (name : jsstring) : bool :=
  negb (jseqb name (js "usage") || jseqb name (js "usage:")
        || jseqb name (js "left") || (length name <? 3)%nat)
  && negb (negb (includes name (js "-")) && (length name <? 10)%nat).

(** [while ((match = regex.exec(output)) !== null)]: the matches from left
    to right, each search starting where the match before ended. The
    map [models] holds the own properties of the object: an assignment
    adds or replaces one. (The one name an assignment does not create,
    [__proto__], does not pass the filters, and is found as an inherited
    property by the look-up of the second loop.) *)
Fixpoint usageLoop (s : jsstring) (skip : nat) (models : gmap jsstring jsnum)
  : gmap jsstring jsnum :=
  match s with
  | [] => models
  | c :: s' =>
      match skip with
      | S k => usageLoop s' k models
      | O =>
          match usageAt s with
          | Some (name, digits, rest) =>
              usageLoop s' (length s - length rest - 1)
                (if keepName name then <[name := parseInt digits]> models
                 else models)
          | None => usageLoop s' 0 models
          end
      end
  end.

(** The upper case of a code unit, for a pattern with the flag [i] whose
    letters are ASCII: no other code unit folds to an ASCII letter. *)
Definition upperUnit (c : N) : N :=
  (if (97 <=? c) && (c <=? 122) then c - 32 else c)%N.

(** A literal text under the flag [i]. *)
Fixpoint strip_prefix_i (p s : jsstring) : option jsstring :=
  match p, s with
  | [], _ => Some s
  | a :: p', b :: s' =>
      if (upperUnit a =? upperUnit b)%N then strip_prefix_i p' s' else None
  | _ :: _, [] => None
  end.

(** [/Configured models \(\d+\):\s*(.+)/i] at the head of [s]: the
    group. *)
Definition configuredAt (s : jsstring) : option jsstring :=
  match strip_prefix_i (js "Configured models (") s with
  | None => None
  | Some r =>
      plusR is_digit
        (fun _ =>
           litR (js "):")
             (starR is_space
                (fun _ =>
                   plusR (fun c => negb (is_lineTerminator c))
                     (fun group _ => Some group)) []))
        r
  end.

(** [parts.length > 1 ? parts[parts.length - 1] : fullModel] *)
Definition modelNameOf (fullModel : jsstring) : jsstring :=
  match splitOn 47 fullModel with
  | (_ :: _ :: _) as parts => default [] (last parts)
  | _ => fullModel
  end.

(** [configuredMatch[1].split(',').map(s => s.trim())], and the name of
    each. *)
Definition namesOf (group : jsstring) : list jsstring :=
  map (fun s => modelNameOf (trim s)) (splitOn 44 group).

(** [!models[modelName]]: the entry is zero, or there is none and the name
    is not the name of a property every object inherits. *)
Definition noQuota (models : gmap jsstring jsnum) (modelName : jsstring)
  : bool :=
  match models !! modelName with
  | Some (Num v) => v =? 0
  | Some Infinity => false
  | None => negb (inherited modelName)
  end.

(** The body of [for (const fullModel of configuredList)]. *)
Definition addMissing (models : gmap jsstring jsnum) (modelName : jsstring)
  : gmap jsstring jsnum :=
  if noQuota models modelName && (3 <? length modelName)%nat
  then <[modelName := Num (-1)]> models else models.

(** The quotas read from the usage lines. *)
Definition usageOf (output : jsstring) : gmap jsstring jsnum :=
  usageLoop (stripAnsi output 0) 0 ∅.

(** The names of the configured models, when the output lists them. *)
Definition configuredNames (output : jsstring) : list jsstring :=
  match searchR configuredAt (stripAnsi output 0) with
  | Some group => namesOf group
  | None => []
  end.

(** [parseModelsOutput(output)] *)
Definition parseModelsOutput (output : jsstring) : gmap jsstring jsnum :=
  foldl addMissing (usageOf output) (configuredNames output).

(** A text with colour codes: each piece of text is followed by a code
    with the parameters [params] and the final letter [fin]. *)
Definition coloured (chunks : list (jsstring * jsstring * N)) : jsstring :=
  flat_map (fun '(text, params, fin) => text ++ [27; 91]%N ++ params ++ [fin])
           chunks.

(** The text of the pieces alone. *)
Definition plain (chunks : list (jsstring * jsstring * N)) : jsstring :=
  flat_map (fun '(text, _, _) => text) chunks.

(** The pieces are texts without the escape character, and the codes are
    codes. *)
Definition wellColoured (chunks : list (jsstring * jsstring * N)) : Prop :=
  Forall (fun '(text, params, fin) =>
            (27%N ∉ text) /\
            Forall (fun c => is_digit c || (c =? 59)%N = true) params /\
            (fin = 109%N \/ fin = 75%N)) chunks.

(** A quota read from a usage line: a percentage, for a name that passed
    the filters and has no white space. *)
Definition readQuota (name : jsstring) (v : jsnum) : Prop :=
  match v with Num z => 0 <= z | Infinity => True end /\
  keepName name = true /\ Forall (fun c => is_space c = false) name.

(** A usage line as the tool prints one: the name, the percentage left,
    some more text, and the line feed. *)
Definition usageLine (l : jsstring * jsstring * jsstring) : jsstring :=
  let '(name, digits, tail) := l in
  name ++ js " " ++ digits ++ js "% left" ++ tail ++ nl.

(** The line is what the usage pattern expects: a name without white
    space, digits, and no percent sign or escape character but the one
    behind the digits. *)
Definition wellFormedLine (l : jsstring * jsstring * jsstring) : Prop :=
  let '(name, digits, tail) := l in
  name <> [] /\ Forall (fun c => is_space c = false) name /\
  (37%N ∉ name) /\ (27%N ∉ name) /\
  digits <> [] /\ Forall (fun c => is_digit c = true) digits /\
  (37%N ∉ tail) /\ (27%N ∉ tail).

(** What the loop does with the match of a line. *)
Definition recordLine (models : gmap jsstring jsnum)
    (l : jsstring * jsstring * jsstring) : gmap jsstring jsnum :=
  let '(name, digits, _) := l in
  if keepName name then <[name := parseInt digits]> models else models.

(** A text that is empty or starts with a name and a space. *)
Definition lineStart (rest : jsstring) : Prop :=
  rest = [] \/
  exists name r, rest = name ++ 32%N :: r /\ name <> [] /\
                 Forall (fun c => is_space c = false) name /\ 37%N ∉ name.

(** * Properties *)

(** ** The definitions on small inputs *)

(** The engine gives back what it took when the rest does not match. *)
Example execAt_backtracks :
  execAt [Star is_word; Lit (js "d")] (js "pend!") = Some (js "pend", [], js "!").
Proof. reflexivity. Qed.

Example statusOf_single_quotes : statusOf (js "status: 'pending'") = js "pending".
Proof. reflexivity. Qed.

Example statusOf_no_space : statusOf (js "status:pending") = js "pending".
Proof. reflexivity. Qed.

(** The first place that reads as the field counts, inside another key
    too. *)
Example statusOf_leftmost :
  statusOf (js "status: ?" ++ nl ++ js "exit_status: failed") = js "failed".
Proof. reflexivity. Qed.

Example statusOf_absent : statusOf (js "Status = pending") = js "unknown".
Proof. reflexivity. Qed.

Example typeOf_absent : typeOf (js "status: pending") = js "general".
Proof. reflexivity. Qed.

Example markDispatched_single_quotes :
  markDispatched (js "a" ++ nl ++ js "status:  'pending'" ++ nl ++ js "b")
  = js "a" ++ nl ++ dispatchedField ++ nl ++ js "b".
Proof. reflexivity. Qed.

Example titleOf_heading :
  titleOf (js "t.md") (js "# Ship it " ++ nl ++ js "now") = js "Ship it".
Proof. reflexivity. Qed.

Example titleOf_metadata_first :
  titleOf (js "t.md") (taskText "pending" "coding") = js "---".
Proof. reflexivity. Qed.

Example titleOf_name : titleOf (js "a.md.md") [] = js "a.md".
Proof. reflexivity. Qed.

(** Records of equal [updatedAt] keep their order. *)
Example sortTasks_stable :
  sortTasks [Task (js "x") [] [] 5; Task (js "y") [] [] 3; Task (js "z") [] [] 5]
  = [Task (js "y") [] [] 3; Task (js "x") [] [] 5; Task (js "z") [] [] 5].
Proof. reflexivity. Qed.

Example processInbox_no_directory :
  (processInbox exEnv [] NoInbox exInbox).1 = [].
Proof. reflexivity. Qed.

(** A busy target: nothing is dispatched, both tasks are shown. *)
Example processInbox_busy :
  let res := processInbox exEnv [techWorker] (Inbox [js "a.md"; js "b.md"])
                          exInbox in
  st_log res.2 = [] /\
  res.1 = [shownTask (js "a.md") (taskText "pending" "coding") (inject_Z 100);
           shownTask (js "b.md") (taskText "pending" "coding") (inject_Z 200)].
Proof. by vm_compute. Qed.

(** Two workers of one pool get a running number, in the order of the
    registry; the list is by age. *)
Example parseSessionsFile_suffix :
  map a_label (parseSessionsFile 5000000
                 (Some [workerRecord "w1" (Some 4990000);
                        workerRecord "w2" (Some 4995000)]))
  = [LText (js "tech_team-2"); LText (js "tech_team-1")].
Proof. by vm_compute. Qed.

(** A label that names an inherited property becomes that property, which
    is equal to no text. *)
Example parseSessionsFile_inherited :
  let snapshot :=
    parseSessionsFile 5000000
      (Some [Session (Some (js "s")) None (Some (js "constructor")) None None
                     (Some 4990000) None None None None]) in
  map a_label snapshot = [LObject (js "function Object() { [native code] }")]
  /\ map a_status snapshot = [active]
  /\ isBusy snapshot (js "constructor") = false.
Proof. by vm_compute. Qed.

(** A write to a file that is not writable throws: the tick ends there. *)
Example processInbox_locked :
  let res := processInbox exEnv [] (Inbox [js "l.md"; js "a.md"]) lockedInbox in
  res.1 = [] /\ st_log res.2 = [] /\ st_fs res.2 = lockedInbox /\
  step exEnv [] (js "l.md") (RState lockedInbox [] [] 0)
  = Thrown EACCES (RState lockedInbox [] [] 0).
Proof. by vm_compute. Qed.

(** A byte that is no UTF-8 is read as U+FFFD. *)
Example content_raw : content rawFile = quotedTask ++ [0xFFFD%N].
Proof. by vm_compute. Qed.

(** [parseInt] gives the nearest double. *)
Example parseInt_rounds :
  parseInt (js "080") = Num 80 /\
  parseInt (js "9007199254740993") = Num 9007199254740992 /\
  parseInt (js "9007199254740995") = Num 9007199254740996 /\
  parseInt (js "12345678901234567890") = Num 12345678901234567168.
Proof. by vm_compute. Qed.

(** The line whose key is white space assigns nothing, and the lines after
    it are read. *)
Example loadEnv_empty_name :
  loadEnv (Some (js " =1" ++ nl ++ js "A=2")) ∅
  = Loaded (<[js "A" := js "2"]> ∅).
Proof. by vm_compute. Qed.

(** ** Strings and patterns *)

Lemma strip_prefix_Some p s r : strip_prefix p s = Some r <-> s = p ++ r.
Proof.
  revert s. induction p as [|a p IH]; intros s; simpl.
  - split; congruence.
  - destruct s as [|b s]; [split; discriminate|].
    destruct (N.eqb_spec a b) as [->|Hne].
    + rewrite IH. split; congruence.
    + split; [discriminate | congruence].
Qed.

Lemma strip_prefix_app p r : strip_prefix p (p ++ r) = Some r.
Proof. by apply strip_prefix_Some. Qed.

Lemma span_app f s : s = (span f s).1 ++ (span f s).2.
Proof.
  induction s as [|c s IH]; simpl; [done|].
  destruct (f c); [|done]. destruct (span f s) as [a b]; simpl in *.
  by rewrite <- IH.
Qed.

Lemma span_Forall f s : Forall (fun c => f c = true) (span f s).1.
Proof.
  induction s as [|c s IH]; simpl; [constructor|].
  destruct (f c) eqn:Hc; [|constructor].
  destruct (span f s) as [a b]; simpl in *. by constructor.
Qed.

Lemma span_rest f s c r : (span f s).2 = c :: r -> f c = false.
Proof.
  induction s as [|d s IH]; simpl; [discriminate|].
  destruct (f d) eqn:Hd.
  - destruct (span f s) as [a b]; simpl in *. exact IH.
  - simpl. congruence.
Qed.

(** A run that is followed by a code unit outside the class is the span. *)
Lemma span_exact f a b :
  Forall (fun c => f c = true) a ->
  match b with [] => True | c :: _ => f c = false end ->
  span f (a ++ b) = (a, b).
Proof.
  intros Ha Hb. induction Ha as [|c a Hc _ IH]; simpl.
  - destruct b as [|c b]; simpl; [done|]. by rewrite Hb.
  - by rewrite Hc, IH.
Qed.

Lemma trimStart_spec a t :
  Forall (fun c => is_space c = true) a ->
  match t with [] => True | c :: _ => is_space c = false end ->
  trimStart (a ++ t) = t.
Proof. intros Ha Ht. unfold trimStart. by rewrite span_exact. Qed.

(** [trim] takes the white space off both ends and nothing else. *)
Lemma trim_spec a t b :
  Forall (fun c => is_space c = true) a ->
  Forall (fun c => is_space c = true) b ->
  match t with [] => True | c :: _ => is_space c = false end ->
  match rev t with [] => True | c :: _ => is_space c = false end ->
  trim (a ++ t ++ b) = t.
Proof.
  intros Ha Hb Hhead Hlast. unfold trim. destruct t as [|c t].
  - simpl. rewrite <- (app_nil_r (a ++ b)).
    rewrite trimStart_spec; [done | by apply Forall_app | done].
  - rewrite trimStart_spec; [|done..]. rewrite rev_app_distr.
    rewrite trimStart_spec; [by rewrite rev_involutive | | done].
    apply Forall_forall. intros x Hx. apply list_elem_of_In, in_rev in Hx.
    rewrite Forall_forall in Hb. by apply Hb, list_elem_of_In.
Qed.

Lemma opt_quote_spec s oq r :
  opt_quote s = (oq, r) -> s = oq ++ r /\ quoteish oq.
Proof.
  unfold opt_quote, quoteish. destruct s as [|c s]; [naive_solver|].
  destruct (is_quote c) eqn:Hc; intros [= <- <-]; naive_solver.
Qed.

Lemma match_field_at_spec key s t g r :
  match_field_at key s = Some (t, g, r) ->
  s = t ++ r /\
  exists ws oq cq,
    t = key ++ js ":" ++ ws ++ oq ++ g ++ cq /\
    Forall (fun c => is_space c = true) ws /\ quoteish oq /\ quoteish cq /\
    g <> [] /\ Forall (fun c => is_word c = true) g /\
    match cq ++ r with [] => True | c :: _ => is_word c = false end.
Proof.
  unfold match_field_at.
  destruct (strip_prefix _ s) as [r0|] eqn:H0; [|discriminate].
  apply strip_prefix_Some in H0.
  pose proof (span_app is_space r0) as H1.
  pose proof (span_Forall is_space r0) as H1'.
  destruct (span is_space r0) as [ws r1]; cbn [fst snd] in *.
  destruct (opt_quote r1) as [oq r2] eqn:H2. apply opt_quote_spec in H2 as [H2 H2'].
  pose proof (span_app is_word r2) as H3.
  pose proof (span_Forall is_word r2) as H3'.
  pose proof (span_rest is_word r2) as H3''.
  destruct (span is_word r2) as [w r3]; cbn [fst snd] in *.
  destruct w as [|c w]; [discriminate|].
  destruct (opt_quote r3) as [cq r4] eqn:H4.
  pose proof H4 as H4'. apply opt_quote_spec in H4' as [H5 H5'].
  intros H. split_result H. subst t g r4. split.
  - subst. by rewrite <- !app_assoc.
  - exists ws, oq, cq. repeat split; try done.
    rewrite <- H5. destruct r3 as [|d r3]; [done|]. by eapply H3''.
Qed.

Lemma match_pending_at_spec s t g r :
  match_pending_at s = Some (t, g, r) ->
  s = t ++ r /\
  exists ws oq cq,
    t = js "status:" ++ ws ++ oq ++ js "pending" ++ cq /\
    Forall (fun c => is_space c = true) ws /\ quoteish oq /\ quoteish cq.
Proof.
  unfold match_pending_at.
  destruct (strip_prefix _ s) as [r0|] eqn:H0; [|discriminate].
  apply strip_prefix_Some in H0.
  pose proof (span_app is_space r0) as H1.
  pose proof (span_Forall is_space r0) as H1'.
  destruct (span is_space r0) as [ws r1]; cbn [fst snd] in *.
  destruct (opt_quote r1) as [oq r2] eqn:H2. apply opt_quote_spec in H2 as [H2 H2'].
  destruct (strip_prefix _ r2) as [r3|] eqn:H3; [|discriminate].
  apply strip_prefix_Some in H3.
  destruct (opt_quote r3) as [cq r4] eqn:H4. apply opt_quote_spec in H4 as [H4 H4'].
  intros H. split_result H. subst t g r4. split.
  - subst. by rewrite <- !app_assoc.
  - by exists ws, oq, cq.
Qed.

(** ** The greedy reading agrees with the engine *)

Lemma consumed_nil x : consumed [] false x = x.
Proof. by destruct x as [[[t g] r]|]. Qed.

(** When the rest of the pattern refuses every text that starts in the
    class, no shorter run can match: the run is the span. *)
Lemma starK_refused f cap k acc s :
  (forall c s', f c = true -> k (c :: s') = None) ->
  starK f cap k acc s = consumed (acc ++ (span f s).1) cap (k (span f s).2).
Proof.
  intros Hk. revert acc. induction s as [|c s IH]; intros acc; simpl.
  { by rewrite app_nil_r. }
  destruct (f c) eqn:Hc; [|by rewrite app_nil_r].
  rewrite IH. destruct (span f s) as [a b]; simpl.
  rewrite <- app_assoc. simpl.
  destruct (consumed (acc ++ c :: a) cap (k b)) eqn:Hres; [done|].
  by rewrite (Hk c s Hc).
Qed.

(** When the rest of the pattern accepts every text, the longest run is
    the match. *)
Lemma starK_accepted f cap k acc s :
  (forall s', k s' <> None) ->
  starK f cap k acc s = consumed (acc ++ (span f s).1) cap (k (span f s).2).
Proof.
  intros Hk. revert acc. induction s as [|c s IH]; intros acc; simpl.
  { by rewrite app_nil_r. }
  destruct (f c) eqn:Hc; [|by rewrite app_nil_r].
  rewrite IH. destruct (span f s) as [a b]; simpl.
  rewrite <- app_assoc. simpl.
  destruct (consumed (acc ++ c :: a) cap (k b)) eqn:Hres; [done|].
  destruct (k b) as [[[t g] r]|] eqn:Hb; [done|]. by destruct (Hk b).
Qed.

(** One item of a pattern. *)
Lemma execAt_Lit l p s :
  execAt (Lit l :: p) s =
  match strip_prefix l s with
  | Some r => consumed l false (execAt p r)
  | None => None
  end.
Proof. done. Qed.

Lemma execAt_Star f p s : execAt (Star f :: p) s = starK f false (execAt p) [] s.
Proof. done. Qed.

Lemma execAt_Group f p s :
  execAt (Group f :: p) s =
  match s with
  | c :: s' => if f c then starK f true (execAt p) [c] s' else None
  | [] => None
  end.
Proof. done. Qed.

(** An optional item whose code unit the rest of the pattern refuses, or
    which is the last item. *)
Lemma execAt_Opt f p s :
  (forall c s', f c = true -> execAt p (c :: s') = None) ->
  execAt (Opt f :: p) s =
  match s with
  | c :: s' => if f c then consumed [c] false (execAt p s') else execAt p s
  | [] => execAt p []
  end.
Proof.
  intros Hp. destruct s as [|c s]; [done|]. cbn [execAt].
  destruct (f c) eqn:Hc; [|done].
  destruct (consumed [c] false (execAt p s)); [done|]. by apply Hp.
Qed.

Lemma execAt_opt_quote s :
  execAt [Opt is_quote] s = Some ((opt_quote s).1, [], (opt_quote s).2).
Proof.
  destruct s as [|c s]; [done|]. cbn [execAt opt_quote].
  destruct (is_quote c); by cbn.
Qed.

(** The classes of the patterns are disjoint. *)
Lemma space_not_quote c : is_space c = true -> is_quote c = false.
Proof. intros H. apply not_true_iff_false. revert H. class_lia. Qed.

Lemma space_not_word c : is_space c = true -> is_word c = false.
Proof. intros H. apply not_true_iff_false. revert H. class_lia. Qed.

Lemma quote_not_word c : is_quote c = true -> is_word c = false.
Proof. intros H. apply not_true_iff_false. revert H. class_lia. Qed.

(** The captured word and the final quote. *)
Lemma execAt_word_quote s :
  execAt [Group is_word; Opt is_quote] s =
  match (span is_word s).1 with
  | [] => None
  | c :: w =>
      Some ((c :: w) ++ (opt_quote (span is_word s).2).1, c :: w,
            (opt_quote (span is_word s).2).2)
  end.
Proof.
  rewrite execAt_Group. destruct s as [|c s]; [done|]. cbn [span].
  destruct (is_word c); [|done].
  rewrite starK_accepted by (intros s'; by rewrite execAt_opt_quote).
  rewrite execAt_opt_quote. by destruct (span is_word s) as [a b].
Qed.

Lemma execAt_word_refuses c s :
  is_word c = false -> execAt [Group is_word; Opt is_quote] (c :: s) = None.
Proof. intros Hc. rewrite execAt_Group. by rewrite Hc. Qed.

(** From the optional quote on. *)
Lemma execAt_quote_word s :
  execAt [Opt is_quote; Group is_word; Opt is_quote] s =
  consumed (opt_quote s).1 false
           (execAt [Group is_word; Opt is_quote] (opt_quote s).2).
Proof.
  rewrite execAt_Opt
    by (intros c s' Hc; by apply execAt_word_refuses, quote_not_word).
  destruct s as [|c s]; cbn [opt_quote]; [by rewrite consumed_nil|].
  destruct (is_quote c); cbn [fst snd]; [done | by rewrite consumed_nil].
Qed.

Lemma execAt_field key s : execAt (fieldRe key) s = match_field_at key s.
Proof.
  unfold fieldRe, match_field_at. rewrite execAt_Lit.
  destruct (strip_prefix (key ++ js ":") s) as [r0|]; [|done].
  rewrite execAt_Star, starK_refused.
  2:{ intros c s' Hc. rewrite execAt_quote_word. cbn [opt_quote].
      rewrite (space_not_quote c Hc). cbn [fst snd consumed].
      by rewrite execAt_word_refuses by (by apply space_not_word). }
  destruct (span is_space r0) as [ws r1]. cbn [fst snd app].
  rewrite execAt_quote_word. destruct (opt_quote r1) as [oq r2].
  cbn [fst snd]. rewrite execAt_word_quote.
  destruct (span is_word r2) as [w r3]. cbn [fst snd].
  destruct w as [|c w]; [done|]. destruct (opt_quote r3) as [cq r4].
  cbn [fst snd consumed]. by rewrite <- !app_assoc.
Qed.

(** From [pending] on. *)
Lemma execAt_pending_tail s :
  execAt [Lit (js "pending"); Opt is_quote] s =
  match strip_prefix (js "pending") s with
  | Some r => Some (js "pending" ++ (opt_quote r).1, [], (opt_quote r).2)
  | None => None
  end.
Proof.
  rewrite execAt_Lit.
  destruct (strip_prefix (js "pending") s) as [r|]; [|done].
  by rewrite execAt_opt_quote.
Qed.

Lemma execAt_pending_refuses c s :
  is_word c = false ->
  execAt [Lit (js "pending"); Opt is_quote] (c :: s) = None.
Proof.
  intros Hc. rewrite execAt_pending_tail.
  destruct (strip_prefix _ _) as [r|] eqn:Hr; [|done].
  apply strip_prefix_Some in Hr. injection Hr as -> _. done.
Qed.

Lemma execAt_quote_pending s :
  execAt [Opt is_quote; Lit (js "pending"); Opt is_quote] s =
  consumed (opt_quote s).1 false
           (execAt [Lit (js "pending"); Opt is_quote] (opt_quote s).2).
Proof.
  rewrite execAt_Opt
    by (intros c s' Hc; by apply execAt_pending_refuses, quote_not_word).
  destruct s as [|c s]; cbn [opt_quote]; [by rewrite consumed_nil|].
  destruct (is_quote c); cbn [fst snd]; [done | by rewrite consumed_nil].
Qed.

Lemma execAt_pending s : execAt pendingRe s = match_pending_at s.
Proof.
  unfold pendingRe, match_pending_at. rewrite execAt_Lit.
  destruct (strip_prefix (js "status:") s) as [r0|]; [|done].
  rewrite execAt_Star, starK_refused.
  2:{ intros c s' Hc. rewrite execAt_quote_pending. cbn [opt_quote].
      rewrite (space_not_quote c Hc). cbn [fst snd consumed].
      by rewrite execAt_pending_refuses by (by apply space_not_word). }
  destruct (span is_space r0) as [ws r1]. cbn [fst snd app].
  rewrite execAt_quote_pending. destruct (opt_quote r1) as [oq r2].
  cbn [fst snd]. rewrite execAt_pending_tail.
  destruct (strip_prefix (js "pending") r2) as [r3|]; [|done].
  destruct (opt_quote r3) as [cq r4].
  cbn [fst snd consumed]. by rewrite <- ?app_assoc.
Qed.

Lemma search_ext m1 m2 s :
  (forall u, m1 u = m2 u) -> search m1 s = search m2 s.
Proof.
  intros Hm. induction s as [|c s IH]; simpl; rewrite Hm; [done|].
  by rewrite IH.
Qed.

Lemma statusOf_greedy content :
  statusOf content =
  match search (match_field_at (js "status")) content with
  | Some x => m_group x
  | None => js "unknown"
  end.
Proof. unfold statusOf. by rewrite (search_ext _ _ _ (execAt_field _)). Qed.

Lemma typeOf_greedy content :
  typeOf content =
  match search (match_field_at (js "type")) content with
  | Some x => m_group x
  | None => js "general"
  end.
Proof. unfold typeOf. by rewrite (search_ext _ _ _ (execAt_field _)). Qed.

Lemma markDispatched_greedy content :
  markDispatched content =
  replace_first match_pending_at dispatchedField content.
Proof.
  unfold markDispatched, replace_first.
  by rewrite (search_ext _ _ _ execAt_pending).
Qed.

Section Search.
Context (m : jsstring -> option (jsstring * jsstring * jsstring)).
Hypothesis m_split : forall s t g r, m s = Some (t, g, r) -> s = t ++ r.

(** A match found is a match at its position, and the leftmost one. *)
Lemma search_Some s x :
  search m s = Some x ->
  s = m_pre x ++ m_text x ++ m_post x /\
  m (m_text x ++ m_post x) = Some (m_text x, m_group x, m_post x) /\
  forall a b, b <> [] -> m_pre x = a ++ b ->
              m (b ++ m_text x ++ m_post x) = None.
Proof.
  revert x. induction s as [|c s IH]; intros x; simpl.
  - destruct (m []) as [[[t g] r]|] eqn:Hm; [|discriminate].
    intros [= <-]; simpl. pose proof (m_split _ _ _ _ Hm) as Hs.
    rewrite <- Hs. repeat split; [done|].
    intros a b Hb Hab. by destruct a, b.
  - destruct (m (c :: s)) as [[[t g] r]|] eqn:Hm.
    + intros [= <-]; simpl. pose proof (m_split _ _ _ _ Hm) as Hs.
      rewrite <- Hs. repeat split; [done|].
      intros a b Hb Hab. by destruct a, b.
    + destruct (search m s) as [y|] eqn:Hy; [|discriminate].
      intros [= <-]; simpl. destruct (IH y eq_refl) as (Hs & Hat & Hleft).
      repeat split; [by rewrite Hs at 1 | done |].
      intros a b Hb Hab. destruct a as [|d a]; simpl in Hab.
      * subst b. simpl. by rewrite <- Hs.
      * injection Hab as -> Hab. by apply (Hleft a b).
Qed.

Lemma search_None s :
  search m s = None <-> forall a b, s = a ++ b -> m b = None.
Proof.
  induction s as [|c s IH]; simpl.
  - destruct (m []) as [[[t g] r]|] eqn:Hm.
    + split; [discriminate|]. intros H. by rewrite (H [] []) in Hm.
    + split; [|done]. intros _ a b Hab. by destruct a, b.
  - destruct (m (c :: s)) as [[[t g] r]|] eqn:Hm.
    + split; [discriminate|]. intros H. by rewrite (H [] (c :: s)) in Hm.
    + destruct (search m s) as [y|] eqn:Hy.
      * split; [discriminate|]. intros H.
        assert (Some y = None) as Hn; [|discriminate].
        apply IH. intros a b ->. by apply (H (c :: a) b).
      * split; [|done]. intros _ a b Hab.
        destruct a as [|d a]; simpl in Hab; [by subst|].
        injection Hab as -> ->. by apply IH with a.
Qed.
End Search.

(** Two matchers that succeed at the same places on the same text give the
    same split of the string. *)
Lemma search_agree (m1 m2 : jsstring -> option (jsstring * jsstring * jsstring))
    (P : jsstring -> Prop) (g2 : jsstring) s x :
  (forall u, m1 u = None -> m2 u = None) ->
  (forall u t g r, m1 u = Some (t, g, r) -> P g -> m2 u = Some (t, g2, r)) ->
  search m1 s = Some x -> P (m_group x) ->
  search m2 s = Some (RMatch (m_pre x) (m_text x) g2 (m_post x)).
Proof.
  intros Hnone Hsome. revert x. induction s as [|c s IH]; intros x; simpl.
  - destruct (m1 []) as [[[t g] r]|] eqn:Hm; [|discriminate].
    intros [= <-] HP; simpl in *. by rewrite (Hsome _ _ _ _ Hm HP).
  - destruct (m1 (c :: s)) as [[[t g] r]|] eqn:Hm.
    + intros [= <-] HP; simpl in *. by rewrite (Hsome _ _ _ _ Hm HP).
    + rewrite (Hnone _ Hm).
      destruct (search m1 s) as [y|] eqn:Hy; [|discriminate].
      intros [= <-] HP; simpl in *. by rewrite (IH y eq_refl HP).
Qed.

Lemma match_field_at_split key s t g r :
  match_field_at key s = Some (t, g, r) -> s = t ++ r.
Proof. intros H. by apply match_field_at_spec in H as [-> _]. Qed.

Lemma match_pending_at_split s t g r :
  match_pending_at s = Some (t, g, r) -> s = t ++ r.
Proof. intros H. by apply match_pending_at_spec in H as [-> _]. Qed.

(** Where the status pattern captures [pending], the pattern of the
    dispatch write matches the same text. *)
Lemma pending_at_of_field s t r :
  match_field_at (js "status") s = Some (t, js "pending", r) ->
  match_pending_at s = Some (t, [], r).
Proof.
  unfold match_field_at, match_pending_at.
  change (js "status" ++ js ":") with (js "status:").
  destruct (strip_prefix _ s) as [r0|]; [|discriminate].
  destruct (span is_space r0) as [ws r1].
  destruct (opt_quote r1) as [oq r2].
  pose proof (span_app is_word r2) as H3.
  destruct (span is_word r2) as [w r3]; simpl in H3.
  destruct w as [|c w]; [discriminate|].
  destruct (opt_quote r3) as [cq r4] eqn:Hq.
  intros H. split_result H. subst t r4. rewrite Hg in H3.
  rewrite H3, strip_prefix_app, Hq, Hg. reflexivity.
Qed.

Lemma pending_at_None s :
  match_field_at (js "status") s = None -> match_pending_at s = None.
Proof.
  unfold match_field_at, match_pending_at.
  change (js "status" ++ js ":") with (js "status:").
  destruct (strip_prefix _ s) as [r0|]; [|done].
  destruct (span is_space r0) as [ws r1].
  destruct (opt_quote r1) as [oq r2].
  destruct (strip_prefix (js "pending") r2) as [r3|] eqn:Hp; [|done].
  apply strip_prefix_Some in Hp. subst r2. simpl.
  destruct (span is_word _) as [w r4]. destruct (opt_quote r4). discriminate.
Qed.

(** The dispatch write on a pending file: the text the status pattern
    matched is replaced, and nothing else. *)
Lemma markDispatched_pending content :
  statusOf content = js "pending" ->
  exists pre ws oq cq post,
    content = pre ++ (js "status:" ++ ws ++ oq ++ js "pending" ++ cq) ++ post /\
    markDispatched content = pre ++ dispatchedField ++ post /\
    Forall (fun c => is_space c = true) ws /\ quoteish oq /\ quoteish cq.
Proof.
  rewrite statusOf_greedy, markDispatched_greedy. unfold replace_first.
  destruct (search (match_field_at _) content) as [x|] eqn:Hx;
    [|intros H; vm_compute in H; discriminate].
  intros Hg.
  pose proof (search_agree _ match_pending_at (fun g => g = js "pending") []
                content x pending_at_None) as Hag.
  rewrite Hag; [| |done|done]; cbn [m_pre m_post].
  2:{ intros u t g r Hu ->. by apply pending_at_of_field. }
  apply (search_Some _ (match_field_at_split _)) in Hx as (Hs & Hat & _).
  rewrite Hg in Hat. apply pending_at_of_field in Hat.
  apply match_pending_at_spec in Hat as (_ & ws & oq & cq & Ht & Hws & Hoq & Hcq).
  exists (m_pre x), ws, oq, cq, (m_post x). rewrite <- Ht. by repeat split.
Qed.

(** ** UTF-8 *)

Lemma decode_1 b0 r :
  (b0 < 0x80)%N -> decodeUtf8 (b0 :: r) = b0 :: decodeUtf8 r.
Proof. intros H. cbn [decodeUtf8]. by decide_cmp. Qed.

Lemma decode_2 b0 b1 r :
  (0xC2 <= b0 <= 0xDF)%N -> (0x80 <= b1 <= 0xBF)%N ->
  decodeUtf8 (b0 :: b1 :: r)
  = units ((b0 - 0xC0) * 64 + (b1 - 0x80))%N ++ decodeUtf8 r.
Proof.
  intros H0 H1. remember (b1 :: r) as r0 eqn:Hr0. cbn [decodeUtf8].
  subst r0. cbv iota. unfold is_cont. by decide_cmp.
Qed.

Lemma decode_3 b0 b1 b2 r :
  (0xE0 <= b0 <= 0xEF)%N -> (0x80 <= b1 <= 0xBF)%N ->
  (b0 = 0xE0 -> 0xA0 <= b1)%N -> (b0 = 0xED -> b1 <= 0x9F)%N ->
  (0x80 <= b2 <= 0xBF)%N ->
  decodeUtf8 (b0 :: b1 :: b2 :: r)
  = units ((b0 - 0xE0) * 4096 + (b1 - 0x80) * 64 + (b2 - 0x80))%N
    ++ decodeUtf8 r.
Proof.
  intros H0 H1 Hlo Hhi H2. remember (b1 :: b2 :: r) as r0 eqn:Hr0.
  cbn [decodeUtf8]. subst r0. cbv iota. unfold is_cont, second.
  destruct (N.eq_dec b0 0xE0%N) as [He|He]; [pose proof (Hlo He)|];
    (destruct (N.eq_dec b0 0xED%N) as [Hd|Hd]; [pose proof (Hhi Hd)|]);
    first [lia | by decide_cmp].
Qed.

Lemma decode_4 b0 b1 b2 b3 r :
  (0xF0 <= b0 <= 0xF4)%N -> (0x80 <= b1 <= 0xBF)%N ->
  (b0 = 0xF0 -> 0x90 <= b1)%N -> (b0 = 0xF4 -> b1 <= 0x8F)%N ->
  (0x80 <= b2 <= 0xBF)%N -> (0x80 <= b3 <= 0xBF)%N ->
  decodeUtf8 (b0 :: b1 :: b2 :: b3 :: r)
  = units ((b0 - 0xF0) * 262144 + (b1 - 0x80) * 4096 + (b2 - 0x80) * 64
           + (b3 - 0x80))%N ++ decodeUtf8 r.
Proof.
  intros H0 H1 Hlo Hhi H2 H3. remember (b1 :: b2 :: b3 :: r) as r0 eqn:Hr0.
  cbn [decodeUtf8]. subst r0. cbv iota. unfold is_cont, second.
  destruct (N.eq_dec b0 0xF0%N) as [He|He]; [pose proof (Hlo He)|];
    (destruct (N.eq_dec b0 0xF4%N) as [Hd|Hd]; [pose proof (Hhi Hd)|]);
    first [lia | by decide_cmp].
Qed.

Lemma utf8_2 cp :
  (0x80 <= cp < 0x800)%N ->
  exists b0 b1, utf8 cp = [b0; b1] /\ (0xC2 <= b0 <= 0xDF)%N /\
    (0x80 <= b1 <= 0xBF)%N /\ ((b0 - 0xC0) * 64 + (b1 - 0x80) = cp)%N.
Proof.
  intros H. unfold utf8. decide_cmp. eexists _, _.
  split; [done|]. split_and!; dlia.
Qed.

Lemma utf8_3 cp :
  (0x800 <= cp < 0x10000)%N -> ~ (0xD800 <= cp <= 0xDFFF)%N ->
  exists b0 b1 b2, utf8 cp = [b0; b1; b2] /\ (0xE0 <= b0 <= 0xEF)%N /\
    (0x80 <= b1 <= 0xBF)%N /\ (b0 = 0xE0 -> 0xA0 <= b1)%N /\
    (b0 = 0xED -> b1 <= 0x9F)%N /\ (0x80 <= b2 <= 0xBF)%N /\
    ((b0 - 0xE0) * 4096 + (b1 - 0x80) * 64 + (b2 - 0x80) = cp)%N.
Proof.
  intros H Hs. unfold utf8. decide_cmp. eexists _, _, _.
  split; [done|]. split_and!; dlia.
Qed.

Lemma utf8_4 cp :
  (0x10000 <= cp < 0x110000)%N ->
  exists b0 b1 b2 b3, utf8 cp = [b0; b1; b2; b3] /\ (0xF0 <= b0 <= 0xF4)%N /\
    (0x80 <= b1 <= 0xBF)%N /\ (b0 = 0xF0 -> 0x90 <= b1)%N /\
    (b0 = 0xF4 -> b1 <= 0x8F)%N /\ (0x80 <= b2 <= 0xBF)%N /\
    (0x80 <= b3 <= 0xBF)%N /\
    ((b0 - 0xF0) * 262144 + (b1 - 0x80) * 4096 + (b2 - 0x80) * 64
     + (b3 - 0x80) = cp)%N.
Proof.
  intros H. unfold utf8. decide_cmp. eexists _, _, _, _.
  split; [done|]. split_and!; dlia.
Qed.

Lemma decode_utf8 cp r :
  scalar cp -> decodeUtf8 (utf8 cp ++ r) = units cp ++ decodeUtf8 r.
Proof.
  intros [Hmax Hsur].
  destruct (N.lt_ge_cases cp 0x80%N) as [H1|H1].
  { unfold utf8, units. decide_cmp. cbn [app]. by apply decode_1. }
  destruct (N.lt_ge_cases cp 0x800%N) as [H2|H2].
  { destruct (utf8_2 cp) as (b0 & b1 & -> & ? & ? & Hcp); [lia|].
    cbn [app]. rewrite decode_2 by done. by rewrite Hcp. }
  destruct (N.lt_ge_cases cp 0x10000%N) as [H3|H3].
  { destruct (utf8_3 cp) as (b0 & b1 & b2 & -> & ? & ? & ? & ? & ? & Hcp);
      [lia|done|].
    cbn [app]. rewrite decode_3 by done. by rewrite Hcp. }
  destruct (utf8_4 cp) as (b0 & b1 & b2 & b3 & -> & ? & ? & ? & ? & ? & ? & Hcp);
    [lia|].
  cbn [app]. rewrite decode_4 by done. by rewrite Hcp.
Qed.

Lemma list_ind2 {A} (P : list A -> Prop) :
  P [] -> (forall a, P [a]) ->
  (forall a b l, P l -> P (b :: l) -> P (a :: b :: l)) ->
  forall l, P l.
Proof.
  intros H0 H1 H2 l. enough (P l /\ forall a, P (a :: l)) as [H _] by done.
  induction l as [|b l [IH1 IH2]]; [by split|].
  split; [apply IH2|]. intros a. by apply H2.
Qed.

Lemma list_length_ind {A} (P : list A -> Prop) :
  (forall l, (forall l', (length l' < length l)%nat -> P l') -> P l) ->
  forall l, P l.
Proof.
  intros H l. remember (length l) as n eqn:Hn. revert l Hn.
  induction n as [n IH] using lt_wf_ind. intros l ->.
  apply H. intros l' Hl'. by apply (IH (length l')).
Qed.

Lemma encode_cons2 x y l :
  encodeUtf8 (x :: y :: l)
  = if is_high x then
      if is_low y
      then utf8 (0x10000 + (x - 0xD800) * 1024 + (y - 0xDC00))%N
           ++ encodeUtf8 l
      else utf8 0xFFFD ++ encodeUtf8 (y :: l)
    else if is_low x then utf8 0xFFFD ++ encodeUtf8 (y :: l)
    else utf8 x ++ encodeUtf8 (y :: l).
Proof. reflexivity. Qed.

Lemma wellFormed_cons2 x y l :
  isWellFormed (x :: y :: l)
  = if is_high x then is_low y && isWellFormed l
    else negb (is_low x) && (x <? 0x10000)%N && isWellFormed (y :: l).
Proof. reflexivity. Qed.

Lemma encode_bmp c r :
  is_high c = false -> is_low c = false ->
  encodeUtf8 (c :: r) = utf8 c ++ encodeUtf8 r.
Proof. intros Hh Hl. cbn [encodeUtf8]. by rewrite Hh, Hl. Qed.

Lemma encode_ascii_cons c r :
  (c < 0x80)%N -> encodeUtf8 (c :: r) = c :: encodeUtf8 r.
Proof.
  intros H. rewrite encode_bmp.
  - unfold utf8. by decide_cmp.
  - unfold is_high. by decide_cmp.
  - unfold is_low. by decide_cmp.
Qed.

Lemma encode_ascii a r :
  Forall (fun c => (c < 0x80)%N) a -> encodeUtf8 (a ++ r) = a ++ encodeUtf8 r.
Proof.
  induction 1 as [|c a Hc _ IH]; [done|].
  cbn [app]. by rewrite encode_ascii_cons, IH.
Qed.

Lemma encode_app_ascii a c r :
  (c < 0x80)%N ->
  encodeUtf8 (a ++ c :: r) = encodeUtf8 a ++ c :: encodeUtf8 r.
Proof.
  intros Hc. assert (is_low c = false) as Hlow.
  { unfold is_low. by decide_cmp. }
  induction a as [|x|x y l IH1 IH2] using list_ind2.
  - by apply encode_ascii_cons.
  - change ([x] ++ c :: r) with (x :: c :: r).
    rewrite encode_cons2, Hlow, encode_ascii_cons by done.
    cbn [encodeUtf8]. rewrite !app_nil_r.
    by destruct (is_high x), (is_low x).
  - change ((x :: y :: l) ++ c :: r) with (x :: y :: (l ++ c :: r)).
    rewrite (encode_cons2 x y (l ++ c :: r)), (encode_cons2 x y l).
    change (y :: l ++ c :: r) with ((y :: l) ++ c :: r).
    destruct (is_high x).
    + destruct (is_low y); [by rewrite IH1, app_assoc|].
      by rewrite IH2, app_assoc.
    + destruct (is_low x); by rewrite IH2, app_assoc.
Qed.

Lemma not_surrogate c :
  ~ (0xD800 <= c <= 0xDFFF)%N -> is_high c = false /\ is_low c = false.
Proof.
  intros Hs. unfold is_high, is_low.
  destruct (N.le_gt_cases 0xD800%N c); by decide_cmp.
Qed.

Lemma not_surrogate_inv c :
  is_high c = false -> is_low c = false -> ~ (0xD800 <= c <= 0xDFFF)%N.
Proof.
  unfold is_high, is_low. intros Hh Hl [H1 H2].
  destruct (N.le_gt_cases c 0xDBFF%N); revert Hh Hl; decide_cmp; done.
Qed.

Lemma encode_units cp r :
  scalar cp -> encodeUtf8 (units cp ++ r) = utf8 cp ++ encodeUtf8 r.
Proof.
  intros [Hmax Hsur]. unfold units.
  destruct (N.lt_ge_cases cp 0x10000%N) as [H|H]; decide_cmp.
  - cbn [app]. by apply encode_bmp; apply not_surrogate.
  - cbn [app encodeUtf8]. unfold is_high, is_low.
    decide_cmp_by dlia. f_equal. f_equal. dlia.
Qed.

Lemma wellFormed_bmp c r :
  (c < 0x10000)%N -> ~ (0xD800 <= c <= 0xDFFF)%N ->
  isWellFormed (c :: r) = isWellFormed r.
Proof.
  intros Hc Hs. cbn [isWellFormed].
  destruct (not_surrogate c Hs) as [-> ->]. by decide_cmp.
Qed.

Lemma wellFormed_units cp r :
  scalar cp -> isWellFormed (units cp ++ r) = isWellFormed r.
Proof.
  intros [Hmax Hsur]. unfold units.
  destruct (N.lt_ge_cases cp 0x10000%N) as [H|H]; decide_cmp.
  - by apply wellFormed_bmp.
  - cbn [app isWellFormed]. unfold is_high, is_low. by decide_cmp_by dlia.
Qed.

Lemma wellFormed_app_ascii a c r :
  (c < 0x80)%N ->
  isWellFormed (a ++ c :: r) = isWellFormed a && isWellFormed r.
Proof.
  intros Hc.
  assert (forall x, isWellFormed (c :: x) = isWellFormed x) as Hcx.
  { intros x. apply wellFormed_bmp; lia. }
  assert (is_low c = false) as Hlow.
  { unfold is_low. by decide_cmp. }
  induction a as [|x|x y l IH1 IH2] using list_ind2.
  - apply Hcx.
  - change ([x] ++ c :: r) with (x :: c :: r).
    rewrite wellFormed_cons2, Hlow, Hcx. cbn [isWellFormed].
    destruct (is_high x); [done|]. by rewrite andb_true_r.
  - change ((x :: y :: l) ++ c :: r) with (x :: y :: (l ++ c :: r)).
    rewrite (wellFormed_cons2 x y (l ++ c :: r)), (wellFormed_cons2 x y l).
    change (y :: l ++ c :: r) with ((y :: l) ++ c :: r).
    rewrite IH1, IH2.
    destruct (is_high x); by rewrite andb_assoc.
Qed.

Lemma wellFormed_ascii a r :
  Forall (fun c => (c < 0x80)%N) a ->
  isWellFormed (a ++ r) = isWellFormed r.
Proof.
  induction 1 as [|c a Hc _ IH]; [done|].
  cbn [app]. rewrite wellFormed_bmp by lia. done.
Qed.

Lemma decode_encode s :
  isWellFormed s = true -> decodeUtf8 (encodeUtf8 s) = s.
Proof.
  induction s as [|x|x y l IH1 IH2] using list_ind2.
  - done.
  - cbn [isWellFormed encodeUtf8]. destruct (is_high x) eqn:Hh; [done|].
    destruct (is_low x) eqn:Hl; [done|]. cbn [negb andb].
    rewrite andb_true_r. intros Hx%N.ltb_lt.
    assert (scalar x) as Hs.
    { split; [lia|]. by apply not_surrogate_inv. }
    rewrite decode_utf8 by done. unfold units. by decide_cmp.
  - rewrite wellFormed_cons2, encode_cons2. destruct (is_high x) eqn:Hh.
    + intros [Hy Hl]%andb_true_iff. rewrite Hy.
      unfold is_high, is_low in Hh, Hy. read_cmp.
      rewrite decode_utf8 by (split; lia). rewrite (IH1 Hl).
      unfold units. decide_cmp. cbn [app]. f_equal; [|f_equal]; dlia.
    + destruct (is_low x) eqn:Hlx; [done|]. cbn [negb andb].
      intros [Hx%N.ltb_lt Hl]%andb_true_iff.
      assert (scalar x) as Hs.
      { split; [lia|]. by apply not_surrogate_inv. }
      rewrite decode_utf8 by done. rewrite (IH2 Hl).
      unfold units. by decide_cmp.
Qed.

Example decodeUtf8_examples :
  decodeUtf8 [0xC3; 0xA9]%N = [0xE9]%N /\
  decodeUtf8 [0xE2; 0x82; 0xAC]%N = [0x20AC]%N /\
  decodeUtf8 [0xF0; 0x9F; 0x98; 0x80]%N = [0xD83D; 0xDE00]%N /\
  decodeUtf8 [0x41; 0xFF; 0x42]%N = [0x41; 0xFFFD; 0x42]%N /\
  decodeUtf8 [0xE2; 0x82]%N = [0xFFFD]%N /\
  decodeUtf8 [0xE2; 0x82; 0x41]%N = [0xFFFD; 0x41]%N /\
  decodeUtf8 [0xC0; 0x80]%N = [0xFFFD; 0xFFFD]%N /\
  decodeUtf8 [0xED; 0xA0; 0x80]%N = [0xFFFD; 0xFFFD; 0xFFFD]%N /\
  decodeUtf8 [0xEF; 0xBB; 0xBF; 0x41]%N = [0xFEFF; 0x41]%N /\
  encodeUtf8 [0xD83D; 0xDE00]%N = [0xF0; 0x9F; 0x98; 0x80]%N /\
  encodeUtf8 [0xD800; 0x41]%N = [0xEF; 0xBF; 0xBD; 0x41]%N /\
  encodeUtf8 [0x20AC]%N = [0xE2; 0x82; 0xAC]%N.
Proof. by vm_compute. Qed.

Lemma decode_wellFormed b : isWellFormed (decodeUtf8 b) = true.
Proof.
  induction b as [b IH] using list_length_ind.
  destruct b as [|b0 r0]; [done|]. cbn [decodeUtf8].
  assert (forall x, isWellFormed (0xFFFD%N :: x) = isWellFormed x) as Hrep.
  { intros x. apply wellFormed_bmp; lia. }
  repeat case_match; subst; rewrite ?Hrep; try done;
    try (apply IH; simpl; lia).
  all: unfold is_cont, second in *; read_cmp.
  all: try (rewrite wellFormed_bmp by lia).
  all: try (rewrite wellFormed_units by (split; lia)).
  all: apply IH; simpl; lia.
Qed.

Lemma decode_encode_decode b :
  decodeUtf8 (encodeUtf8 (decodeUtf8 b)) = decodeUtf8 b.
Proof. apply decode_encode, decode_wellFormed. Qed.

Lemma wellFormedUtf8_stable b :
  wellFormedUtf8 b -> encodeUtf8 (decodeUtf8 b) = b.
Proof.
  induction 1 as [|b0 r H0 _ IH|b0 b1 r H0 H1 _ IH
                  |b0 b1 b2 r H0 H1 Hlo Hhi H2 _ IH
                  |b0 b1 b2 b3 r H0 H1 Hlo Hhi H2 H3 _ IH].
  - done.
  - rewrite decode_1, encode_ascii_cons by done. by rewrite IH.
  - rewrite decode_2, encode_units by (done || split; lia). rewrite IH.
    unfold utf8. decide_cmp. cbn [app]. f_equal; [|f_equal]; dlia.
  - assert (0xA0 <= b1 \/ 0xE0 < b0)%N as Hlo' by lia.
    assert (b1 <= 0x9F \/ b0 <> 0xED)%N as Hhi' by lia.
    rewrite decode_3, encode_units by (done || split; lia). rewrite IH.
    unfold utf8. decide_cmp. cbn [app]. f_equal; [|f_equal; [|f_equal]]; dlia.
  - assert (0x90 <= b1 \/ 0xF0 < b0)%N as Hlo' by lia.
    assert (b1 <= 0x8F \/ b0 <> 0xF4)%N as Hhi' by lia.
    rewrite decode_4, encode_units by (done || split; lia). rewrite IH.
    unfold utf8. decide_cmp. cbn [app].
    f_equal; [|f_equal; [|f_equal; [|f_equal]]]; dlia.
Qed.

Lemma ascii_wellFormedUtf8 b :
  Forall (fun c => (c < 0x80)%N) b -> wellFormedUtf8 b.
Proof. induction 1; by constructor. Qed.

Lemma decode_ascii b :
  Forall (fun c => (c < 0x80)%N) b -> decodeUtf8 b = b.
Proof.
  induction 1 as [|c b Hc _ IH]; [done|]. by rewrite decode_1, IH.
Qed.

(** ** The loop body *)

Lemma step_not_md E agents file s :
  isMd file = false -> step E agents file s = Next s.
Proof. unfold step, isMd. by intros ->. Qed.

Lemma step_file E agents file s f :
  isMd file = true ->
  st_fs s !! file = Some (Regular f) -> mayRead f = true ->
  step E agents file s =
  if dispatchable agents (content f)
  then if mayWrite f then Next (dispatchState E file f s)
       else Thrown EACCES s
  else Next (push (shownTask file (content f) (mtimeMs f)) s).
Proof.
  unfold step, isMd, statSync, readFileSync, writeFileSync.
  intros -> -> ->. cbn [negb].
  unfold dispatchable, isPending, targetOf, dispatchState, dispatchedFile,
    freshTask, spawnOf.
  destruct (jseqb (statusOf (content f)) (js "pending")); [|done].
  destruct (route (typeOf (content f))) as [l md]. cbn [fst snd andb].
  destruct (isBusy agents l); [done|]. cbn [negb]. by destruct (mayWrite f).
Qed.

(** The body throws on an entry it cannot read, and on a file it has to
    dispatch and cannot write. *)
Lemma step_throws E agents file s :
  isMd file = true -> ~ passes agents (st_fs s) file ->
  exists e, step E agents file s = Thrown e s.
Proof.
  intros Hmd Hn.
  destruct (st_fs s !! file) as [[f|m]|] eqn:Hf.
  - destruct (mayRead f) eqn:Hr.
    + rewrite (step_file _ _ _ _ _ Hmd Hf Hr).
      destruct (dispatchable agents (content f)) eqn:Hd.
      * destruct (mayWrite f) eqn:Hw; [|eauto].
        destruct Hn. exists f. by rewrite Hd.
      * destruct Hn. exists f. by rewrite Hd.
    + unfold step, statSync, readFileSync. unfold isMd in Hmd.
      rewrite Hmd, Hf, Hr. cbn [negb]. eauto.
  - unfold step, statSync, readFileSync. unfold isMd in Hmd.
    rewrite Hmd, Hf. cbn [negb]. eauto.
  - unfold step, statSync. unfold isMd in Hmd.
    rewrite Hmd, Hf. cbn [negb]. eauto.
Qed.

(** The three ways the body ends. *)
Lemma step_cases E agents file s :
  (step E agents file s = Next s /\ isMd file = false) \/
  (exists e, step E agents file s = Thrown e s /\ isMd file = true /\
             ~ passes agents (st_fs s) file) \/
  (exists f, isMd file = true /\
     st_fs s !! file = Some (Regular f) /\ mayRead f = true /\
     (dispatchable agents (content f) = true -> mayWrite f = true) /\
     step E agents file s =
     Next (if dispatchable agents (content f) then dispatchState E file f s
           else push (shownTask file (content f) (mtimeMs f)) s)).
Proof.
  destruct (isMd file) eqn:Hmd; [|left; eauto using step_not_md].
  right.
  destruct (st_fs s !! file) as [[f|m]|] eqn:Hf.
  - destruct (mayRead f) eqn:Hr.
    + destruct (dispatchable agents (content f)) eqn:Hd.
      * destruct (mayWrite f) eqn:Hw.
        -- right. exists f. split_and!; try done.
           by rewrite (step_file _ _ _ _ _ Hmd Hf Hr), Hd, Hw.
        -- left. exists EACCES. split_and!; try done.
           { by rewrite (step_file _ _ _ _ _ Hmd Hf Hr), Hd, Hw. }
           intros (f' & Hf' & _ & Hok).
           rewrite Hf in Hf'. injection Hf' as <-.
           rewrite Hw in Hok. by discriminate Hok.
      * right. exists f. split_and!; try done; [congruence|].
        by rewrite (step_file _ _ _ _ _ Hmd Hf Hr), Hd.
    + left. assert (~ passes agents (st_fs s) file) as Hn.
      { intros (f' & Hf' & Hr' & _). congruence. }
      destruct (step_throws E agents file s Hmd Hn) as [e He]. by exists e.
  - left. assert (~ passes agents (st_fs s) file) as Hn.
    { intros (f' & Hf' & _). congruence. }
    destruct (step_throws E agents file s Hmd Hn) as [e He]. by exists e.
  - left. assert (~ passes agents (st_fs s) file) as Hn.
    { intros (f' & Hf' & _). congruence. }
    destruct (step_throws E agents file s Hmd Hn) as [e He]. by exists e.
Qed.

(** ** The sort *)

Section Sort.
Context {A : Type}.

Lemma insertBy_Permutation (cmp : A -> A -> Z) x l :
  insertBy cmp x l ≡ₚ x :: l.
Proof.
  induction l as [|u l IH]; simpl; [done|].
  destruct (cmp x u <=? 0); [done|]. rewrite IH. apply Permutation_swap.
Qed.

Lemma sortBy_Permutation (cmp : A -> A -> Z) l : sortBy cmp l ≡ₚ l.
Proof.
  induction l as [|x l IH]; simpl; [done|].
  by rewrite insertBy_Permutation, IH.
Qed.

Lemma sortBy_elem_of (cmp : A -> A -> Z) l x : x ∈ sortBy cmp l <-> x ∈ l.
Proof. by rewrite sortBy_Permutation. Qed.

Context (key : A -> Z).

Lemma insertBy_sorted x l :
  StronglySorted (fun a b => key a <= key b) l ->
  StronglySorted (fun a b => key a <= key b)
                 (insertBy (fun a b => key a - key b) x l).
Proof.
  induction 1 as [|u l Hl IH Hu]; simpl; [repeat constructor|].
  destruct (Z.leb_spec (key x - key u) 0) as [Hle|Hgt].
  - constructor; [by constructor|]. constructor; [lia|].
    eapply Forall_impl; [exact Hu|]. intros; simpl in *. lia.
  - constructor; [done|]. rewrite insertBy_Permutation.
    constructor; [lia | done].
Qed.

Lemma sortBy_sorted l :
  StronglySorted (fun a b => key a <= key b)
                 (sortBy (fun a b => key a - key b) l).
Proof.
  induction l as [|x l IH]; simpl; [constructor|]. by apply insertBy_sorted.
Qed.
End Sort.

Lemma StronglySorted_lookup {A} (R : relation A) l i j a b :
  StronglySorted R l -> (i < j)%nat ->
  l !! i = Some a -> l !! j = Some b -> R a b.
Proof.
  intros Hl. revert i j. induction Hl as [|x l Hl IH Hx]; intros i j Hij Hi Hj.
  - by rewrite lookup_nil in Hi.
  - destruct j as [|j]; [lia|]. simpl in Hj. destruct i as [|i]; simpl in Hi.
    + injection Hi as ->. rewrite Forall_forall in Hx. apply Hx.
      by eapply list_elem_of_lookup_2.
    + apply (IH i j); [lia|done..].
Qed.

Lemma sortTasks_sorted l :
  StronglySorted (fun a b => updatedAt a <= updatedAt b) (sortTasks l).
Proof. apply (sortBy_sorted updatedAt). Qed.

(** ** The scan *)

Lemma execsOf_app l1 l2 : execsOf (l1 ++ l2) = execsOf l1 ++ execsOf l2.
Proof. unfold execsOf. apply omap_app. Qed.

Section Scan.
Context (E : env) (agents : list agent).

Lemma scan_app l1 l2 s :
  scan E agents (l1 ++ l2) s =
  match scan E agents l1 s with
  | Next s1 => scan E agents l2 s1
  | Thrown e s1 => Thrown e s1
  end.
Proof.
  revert s. induction l1 as [|f l1 IH]; intros s; simpl; [done|].
  destruct (step E agents f s); [apply IH | done].
Qed.

Lemma scan_app_Next l1 l2 s s1 :
  scan E agents l1 s = Next s1 ->
  scan E agents (l1 ++ l2) s = scan E agents l2 s1.
Proof. intros H. by rewrite scan_app, H. Qed.

(** The body touches no file but its own. *)
Lemma step_fs_other file s g :
  g <> file -> st_fs (final (step E agents file s)) !! g = st_fs s !! g.
Proof.
  intros Hg.
  destruct (step_cases E agents file s)
    as [[-> _]|[(e & -> & _)|(f & _ & _ & _ & _ & ->)]]; simpl; [done..|].
  destruct (dispatchable agents (content f)); simpl; [|done].
  by rewrite lookup_insert_ne.
Qed.

(** An entry on which the body does not throw stays one. *)
Lemma step_passes file s g :
  passes agents (st_fs s) g ->
  passes agents (st_fs (final (step E agents file s))) g.
Proof.
  intros Hp. destruct (decide (g = file)) as [->|Hne];
    [|unfold passes; by rewrite step_fs_other].
  destruct (step_cases E agents file s)
    as [[-> _]|[(e & -> & _)|(f & _ & _ & Hr & Hw & ->)]]; simpl; [done..|].
  destruct (dispatchable agents (content f)) eqn:Hd; simpl; [|done].
  exists (dispatchedFile E f (st_n s)). rewrite lookup_insert_eq.
  split; [done|]. split; [done|]. intros _. by apply Hw.
Qed.

Lemma step_extends file s :
  let s' := final (step E agents file s) in
  st_tasks s `prefix_of` st_tasks s' /\ st_log s `prefix_of` st_log s' /\
  (st_n s <= st_n s')%nat.
Proof.
  destruct (step_cases E agents file s)
    as [[-> _]|[(e & -> & _)|(f & _ & _ & _ & _ & ->)]]; simpl; [done..|].
  destruct (dispatchable agents (content f)); simpl;
    repeat split; try done; try (by apply prefix_app_r); lia.
Qed.

Lemma scan_extends files s :
  let s' := final (scan E agents files s) in
  st_tasks s `prefix_of` st_tasks s' /\ st_log s `prefix_of` st_log s' /\
  (st_n s <= st_n s')%nat.
Proof.
  revert s. induction files as [|f files IH]; intros s; simpl; [done|].
  pose proof (step_extends f s) as (Ht & Hl & Hn).
  destruct (step E agents f s) as [s1|e s1]; simpl in *; [|done].
  destruct (IH s1) as (Ht' & Hl' & Hn').
  repeat split; [by etrans | by etrans | lia].
Qed.

Lemma scan_fs_other files s g :
  g ∉ files -> st_fs (final (scan E agents files s)) !! g = st_fs s !! g.
Proof.
  revert s. induction files as [|f files IH]; intros s Hg; simpl; [done|].
  apply not_elem_of_cons in Hg as [Hne Hg].
  pose proof (step_fs_other f s g Hne) as Hs.
  destruct (step E agents f s) as [s1|e s1]; simpl in *; [|done].
  by rewrite IH.
Qed.

(** When the body throws on no listed [.md] entry the scan reaches the end
    of the listing. *)
Lemma scan_completes files s :
  (forall f, f ∈ files -> isMd f = true -> passes agents (st_fs s) f) ->
  exists s', scan E agents files s = Next s'.
Proof.
  revert s. induction files as [|f files IH]; intros s Hr; simpl; [eauto|].
  pose proof (step_passes f s) as Hmono.
  destruct (step_cases E agents f s)
    as [[Hs _]|[(e & _ & Hmd & Hn)|(fl & _ & _ & _ & _ & Hs)]].
  - rewrite Hs in *. apply IH. intros g Hg. apply Hr. by right.
  - destruct Hn. apply Hr; [by left | done].
  - rewrite Hs in *. apply IH. intros g Hg Hmd. apply Hmono, Hr; [by right|done].
Qed.

(** A readable pending file whose target is free is dispatched by a scan
    that reaches the end. *)
Lemma scan_dispatches files s s' f fl :
  scan E agents files s = Next s' ->
  f ∈ files -> isMd f = true ->
  st_fs s !! f = Some (Regular fl) -> mayRead fl = true ->
  dispatchable agents (content fl) = true ->
  mayWrite fl = true /\
  EvWrite f (markDispatched (content fl)) ∈ st_log s' /\
  EvExec (spawnOf f (content fl)) ∈ st_log s' /\
  exists k, freshTask E k f (content fl) ∈ st_tasks s'.
Proof.
  revert s. induction files as [|g files IH]; intros s Hscan Hf Hmd Hfs Hr Hd.
  { by apply elem_of_nil in Hf. }
  simpl in Hscan.
  destruct (decide (g = f)) as [->|Hne].
  - rewrite (step_file _ _ _ _ _ Hmd Hfs Hr), Hd in Hscan.
    destruct (mayWrite fl); [|done]. split; [done|].
    pose proof (scan_extends files (dispatchState E f fl s)) as (Ht & Hl & _).
    rewrite Hscan in Ht, Hl. simpl in Ht, Hl.
    destruct Ht as [ts Ht], Hl as [evs Hl]. rewrite Ht, Hl.
    repeat split; [| |exists (st_n s)];
      rewrite !elem_of_app, !elem_of_cons; auto.
  - pose proof (step_fs_other g s f (not_eq_sym Hne)) as Hfr.
    destruct (step E agents g s) as [s1|e s1]; [|done]. simpl in Hfr.
    apply (IH s1); [done | | done | by rewrite Hfr | done..].
    apply elem_of_cons in Hf as [->|Hf]; done.
Qed.

(** A file the router does not dispatch, because it is not pending, or its
    target is busy, or it cannot be read, or it cannot be written, is left
    as it is, and no event of the tick concerns it. *)
Lemma scan_leaves files s f fl :
  st_fs s !! f = Some (Regular fl) ->
  mayRead fl && mayWrite fl && dispatchable agents (content fl) = false ->
  let s' := final (scan E agents files s) in
  st_fs s' !! f = Some (Regular fl) /\
  exists evs, st_log s' = st_log s ++ evs /\
              Forall (fun ev => ~ touches f ev) evs.
Proof.
  revert s. induction files as [|g files IH]; intros s Hfs Hd; simpl.
  { split; [done|]. exists []. by rewrite app_nil_r. }
  destruct (step_cases E agents g s)
    as [[Hs _]|[(e & Hs & _)|(f' & Hmd & Hg & Hr' & Hw' & Hs)]]; rewrite Hs.
  - by apply IH.
  - simpl. split; [done|]. exists []. by rewrite app_nil_r.
  - destruct (dispatchable agents (content f')) eqn:Hd'.
    + assert (g <> f) as Hne.
      { intros ->. rewrite Hfs in Hg. injection Hg as <-.
        rewrite Hr', Hd', (Hw' eq_refl) in Hd. discriminate Hd. }
      destruct (IH (dispatchState E g f' s)) as (Hfs' & evs & Hl & Hev).
      { simpl. by rewrite lookup_insert_ne. }
      { done. }
      split; [done|]. simpl in Hl.
      exists ([EvWrite g (markDispatched (content f'));
               EvExec (spawnOf g (content f'))] ++ evs).
      split; [by rewrite Hl, <- app_assoc|].
      apply Forall_app. split; [|done].
      repeat constructor; simpl; congruence.
    + by apply (IH (push (shownTask g (content f') (mtimeMs f')) s)).
Qed.

Lemma scan_shows files s s' f fl :
  scan E agents files s = Next s' ->
  f ∈ files -> isMd f = true ->
  st_fs s !! f = Some (Regular fl) -> mayRead fl = true ->
  dispatchable agents (content fl) = false ->
  shownTask f (content fl) (mtimeMs fl) ∈ st_tasks s'.
Proof.
  revert s. induction files as [|g files IH]; intros s Hscan Hf Hmd Hfs Hr Hd.
  { by apply elem_of_nil in Hf. }
  simpl in Hscan.
  destruct (decide (g = f)) as [->|Hne].
  - rewrite (step_file _ _ _ _ _ Hmd Hfs Hr), Hd in Hscan.
    pose proof (scan_extends files
                  (push (shownTask f (content fl) (mtimeMs fl)) s)) as (Ht & _).
    rewrite Hscan in Ht. simpl in Ht. destruct Ht as [ts ->].
    rewrite !elem_of_app, !elem_of_cons; auto.
  - pose proof (step_fs_other g s f (not_eq_sym Hne)) as Hfr.
    destruct (step E agents g s) as [s1|e s1]; [|done]. simpl in Hfr.
    apply (IH s1); [done | | done | by rewrite Hfr | done..].
    apply elem_of_cons in Hf as [->|Hf]; done.
Qed.

(** What the scan does with a file it reaches, and on which the body does
    not throw. *)
Lemma scan_reached files s f fl :
  reached agents (st_fs s) files f -> isMd f = true ->
  st_fs s !! f = Some (Regular fl) -> mayRead fl = true ->
  (dispatchable agents (content fl) = true -> mayWrite fl = true) ->
  let s' := final (scan E agents files s) in
  if dispatchable agents (content fl)
  then EvWrite f (markDispatched (content fl)) ∈ st_log s' /\
       EvExec (spawnOf f (content fl)) ∈ st_log s' /\
       exists k, freshTask E k f (content fl) ∈ st_tasks s'
  else shownTask f (content fl) (mtimeMs fl) ∈ st_tasks s'.
Proof.
  intros (l1 & l2 & -> & Hr) Hmd Hfs Hread Hwrite s'. subst s'.
  destruct (scan_completes l1 s Hr) as [s1 Hs1].
  rewrite (scan_app_Next _ _ _ _ Hs1).
  pose proof (scan_extends (f :: l2) s1) as ([ts Hts] & [evs Hevs] & _).
  destruct (decide (f ∈ l1)) as [Hin|Hout].
  - destruct (dispatchable agents (content fl)) eqn:Hd.
    + destruct (scan_dispatches l1 s s1 f fl Hs1 Hin Hmd Hfs Hread Hd)
        as (_ & Hw & He & k & Hk).
      rewrite Hts, Hevs. split_and!; [| |exists k];
        rewrite elem_of_app; by left.
    + pose proof (scan_shows l1 s s1 f fl Hs1 Hin Hmd Hfs Hread Hd) as Hsh.
      rewrite Hts. rewrite elem_of_app. by left.
  - pose proof (scan_fs_other l1 s f Hout) as Hsame.
    rewrite Hs1 in Hsame. simpl in Hsame. rewrite <- Hsame in Hfs.
    clear Hts Hevs ts evs. simpl. rewrite (step_file _ _ _ _ _ Hmd Hfs Hread).
    destruct (dispatchable agents (content fl)) eqn:Hd.
    + rewrite (Hwrite eq_refl).
      pose proof (scan_extends l2 (dispatchState E f fl s1))
        as ([ts Hts] & [evs Hevs] & _).
      rewrite Hts, Hevs. simpl. split_and!; [| |exists (st_n s1)];
        rewrite !elem_of_app, !elem_of_cons; auto.
    + pose proof (scan_extends l2
                    (push (shownTask f (content fl) (mtimeMs fl)) s1))
        as ([ts Hts] & _).
      rewrite Hts. simpl. rewrite !elem_of_app, !elem_of_cons; auto.
Qed.
End Scan.

(** ** The records and the invocations of a tick

    [readdirSync] lists each entry once; the scan then meets every file as
    the tick found it. *)

Section Tick.
Context (E : env) (agents : list agent) (fs0 : gmap jsstring node).

Lemma scan_entries files s :
  NoDup files ->
  (forall g, g ∈ files -> st_fs s !! g = fs0 !! g) ->
  length (execsOf (st_log s)) = st_n s ->
  let s' := final (scan E agents files s) in
  exists ts, st_tasks s' = st_tasks s ++ ts /\
    Forall (fun t => freshEntry E agents fs0 files s' t \/
                     shownEntry agents fs0 files t) ts.
Proof.
  intros Hnd. revert s.
  induction Hnd as [|g files Hg Hnd IH]; intros s Hfs Hlen; simpl.
  { exists []. by rewrite app_nil_r. }
  assert (forall s1, (forall h, h ≠ g -> st_fs s1 !! h = st_fs s !! h) ->
                     forall h, h ∈ files -> st_fs s1 !! h = fs0 !! h) as Hrest.
  { intros s1 H1 h Hh. rewrite H1; [apply Hfs; by right|]. by intros ->. }
  assert (forall s' ts,
    Forall (fun t => freshEntry E agents fs0 files s' t \/
                     shownEntry agents fs0 files t) ts ->
    Forall (fun t => freshEntry E agents fs0 (g :: files) s' t \/
                     shownEntry agents fs0 (g :: files) t) ts) as Hweak.
  { intros s' ts Hts. eapply Forall_impl; [exact Hts|].
    intros t [(f & fl & k & Hf & H)|(f & fl & Hf & H)]; [left|right].
    - exists f, fl, k. split; [by right | done].
    - exists f, fl. split; [by right | done]. }
  destruct (step_cases E agents g s)
    as [[Hs _]|[(e & Hs & _)|(fl & Hmd & Hgs & Hr & Hw & Hs)]]; rewrite Hs.
  - destruct (IH s) as (ts & Ht & Hts); [by apply Hrest|done|]. eauto.
  - exists []. by rewrite app_nil_r.
  - assert (fs0 !! g = Some (Regular fl)) as Hg0.
    { rewrite <- Hgs. symmetry. apply Hfs. by left. }
    destruct (dispatchable agents (content fl)) eqn:Hd.
    + destruct (IH (dispatchState E g fl s)) as (ts & Ht & Hts).
      { apply Hrest. intros h Hh. simpl. by rewrite lookup_insert_ne. }
      { simpl. rewrite execsOf_app, length_app, Hlen. simpl. lia. }
      pose proof (scan_extends E agents files (dispatchState E g fl s))
        as (_ & [evs Hevs] & _). simpl in Hevs, Ht.
      exists (freshTask E (st_n s) g (content fl) :: ts).
      split; [by rewrite Ht, <- app_assoc|].
      constructor; [|by apply Hweak]. left.
      exists g, fl, (st_n s).
      split_and!; try done; [by left | by apply Hw |].
      rewrite Hevs, <- app_assoc, !execsOf_app.
      rewrite lookup_app_r by lia. by rewrite Hlen, Nat.sub_diag.
    + destruct (IH (push (shownTask g (content fl) (mtimeMs fl)) s))
        as (ts & Ht & Hts).
      { by apply Hrest. }
      { done. }
      simpl in Ht. exists (shownTask g (content fl) (mtimeMs fl) :: ts).
      split; [by rewrite Ht, <- app_assoc|].
      constructor; [|by apply Hweak]. right.
      exists g, fl. split_and!; first [done | by left].
Qed.

(** An invocation of the tick is the dispatch of a file of the listing,
    which the tick found readable, writable and pending, its target free;
    the file holds the rewritten content afterwards, and the write stands
    in the log just before the invocation. *)
Lemma scan_execs files s r :
  NoDup files ->
  (forall g, g ∈ files -> st_fs s !! g = fs0 !! g) ->
  let s' := final (scan E agents files s) in
  EvExec r ∈ st_log s' ->
  EvExec r ∈ st_log s \/
  (sp_file r ∈ files /\ isMd (sp_file r) = true /\
   r = spawnOf (sp_file r) (sp_content r) /\
   dispatchable agents (sp_content r) = true /\
   (exists fl k,
      fs0 !! sp_file r = Some (Regular fl) /\ sp_content r = content fl /\
      mayRead fl = true /\ mayWrite fl = true /\
      st_fs s' !! sp_file r = Some (Regular (dispatchedFile E fl k))) /\
   (exists l1 l2, st_log s' =
      l1 ++ [EvWrite (sp_file r) (markDispatched (sp_content r)); EvExec r]
         ++ l2)).
Proof.
  intros Hnd. revert s.
  induction Hnd as [|g files Hg Hnd IH]; intros s Hfs; simpl; [auto|].
  assert (forall s1, (forall h, h ≠ g -> st_fs s1 !! h = st_fs s !! h) ->
                     forall h, h ∈ files -> st_fs s1 !! h = fs0 !! h) as Hrest.
  { intros s1 H1 h Hh. rewrite H1; [apply Hfs; by right|]. by intros ->. }
  destruct (step_cases E agents g s)
    as [[Hs _]|[(e & Hs & _)|(fl & Hmd & Hgs & Hread & Hw & Hs)]]; rewrite Hs.
  - intros Hr. destruct (IH s (Hrest s (fun _ _ => eq_refl)) Hr)
      as [?|(Hf & H)]; [by left|right]. split; [by right|done].
  - auto.
  - assert (fs0 !! g = Some (Regular fl)) as Hg0.
    { rewrite <- Hgs. symmetry. apply Hfs. by left. }
    destruct (dispatchable agents (content fl)) eqn:Hd.
    + intros Hr.
      assert (forall h, h ∈ files ->
                st_fs (dispatchState E g fl s) !! h = fs0 !! h) as Hfs1.
      { apply Hrest. intros h Hh. simpl. by rewrite lookup_insert_ne. }
      destruct (IH _ Hfs1 Hr) as [Hin|(Hf & H)].
      * simpl in Hin. rewrite elem_of_app, !elem_of_cons, elem_of_nil in Hin.
        destruct Hin as [Hin|[Hin|[Hin|[]]]]; [by left|done|].
        injection Hin as ->. right. simpl.
        pose proof (scan_extends E agents files (dispatchState E g fl s))
          as (_ & [l2 Hl] & _).
        split_and!; [by left|done..| |].
        -- exists fl, (st_n s). split_and!; try done; [by apply Hw|].
           rewrite scan_fs_other by done. simpl.
           by rewrite lookup_insert_eq.
        -- exists (st_log s), l2. rewrite Hl. simpl.
           by rewrite <- app_assoc.
      * right. split; [by right|done].
    + intros Hr.
      destruct (IH (push (shownTask g (content fl) (mtimeMs fl)) s)
                  (Hrest _ (fun _ _ => eq_refl)) Hr)
        as [?|(Hf & H)]; [by left|right]. split; [by right|done].
Qed.
End Tick.

(** ** Absent metadata *)

Lemma noField_search key c :
  noField key c -> search (match_field_at key) c = None.
Proof.
  intros Hno. apply search_None.
  intros a b ->.
  destruct (match_field_at key b) as [[[t g] r]|] eqn:Hm; [|done].
  apply match_field_at_spec in Hm
    as (-> & ws & oq & cq & -> & Hws & Hoq & _ & Hg & Hw & _).
  destruct g as [|w g]; [done|]. apply Forall_cons in Hw as [Hw _].
  rewrite (Hno a ws oq w (g ++ cq ++ r)) in Hw; [done| |done..].
  by rewrite <- !app_assoc.
Qed.

(** A content in which the key and a colon nowhere stand has no such
    field. *)
Lemma noField_absent key c :
  includes c (key ++ js ":") = false -> noField key c.
Proof.
  unfold includes. intros Hinc pre ws oq w post Hc _ _.
  destruct (search _ c) as [x|] eqn:Hx; [done|].
  rewrite search_None in Hx.
  specialize (Hx pre ((key ++ js ":") ++ ws ++ oq ++ w :: post)).
  unfold match_literal_at in Hx. rewrite strip_prefix_app in Hx.
  discriminate Hx. by rewrite <- app_assoc.
Qed.

Lemma isPending_status c : isPending c = true -> statusOf c = js "pending".
Proof. unfold isPending, jseqb. apply bool_decide_eq_true_1. Qed.

Lemma dispatchable_true agents c :
  dispatchable agents c = true <->
  isPending c = true /\ isBusy agents (targetOf c) = false.
Proof.
  unfold dispatchable. rewrite andb_true_iff, negb_true_iff. tauto.
Qed.

Lemma processInbox_completes E agents files fs out s' :
  (forall f, f ∈ files -> isMd f = true -> passes agents fs f) ->
  processInbox E agents (Inbox files) fs = (out, s') ->
  scan E agents files (RState fs [] [] 0) = Next s' /\
  out = sortTasks (st_tasks s').
Proof.
  intros Hr. unfold processInbox.
  destruct (scan_completes E agents files (RState fs [] [] 0) Hr) as [s1 ->].
  by intros [= <- <-].
Qed.

Lemma processInbox_final E agents files fs out s' :
  processInbox E agents (Inbox files) fs = (out, s') ->
  s' = final (scan E agents files (RState fs [] [] 0)) /\
  (out = sortTasks (st_tasks s') \/ out = st_tasks s').
Proof.
  unfold processInbox. destruct (scan _ _ _ _); intros [= <- <-]; auto.
Qed.

(** What the router does with a file its scan reaches, and on which the
    body does not throw. *)
Lemma processInbox_reached E agents files fs out s' f fl :
  processInbox E agents (Inbox files) fs = (out, s') ->
  reached agents fs files f -> isMd f = true ->
  fs !! f = Some (Regular fl) -> mayRead fl = true ->
  (dispatchable agents (content fl) = true -> mayWrite fl = true) ->
  if dispatchable agents (content fl)
  then EvExec (spawnOf f (content fl)) ∈ st_log s' /\
       exists k, freshTask E k f (content fl) ∈ out
  else shownTask f (content fl) (mtimeMs fl) ∈ out.
Proof.
  intros Hp Hreach Hmd Hfs Hread Hwrite.
  destruct (processInbox_final _ _ _ _ _ _ Hp) as [Hs' Hout].
  pose proof (scan_reached E agents files (RState fs [] [] 0) f fl
                Hreach Hmd Hfs Hread Hwrite) as H.
  rewrite <- Hs' in H.
  assert (forall t, t ∈ st_tasks s' -> t ∈ out) as Hin.
  { intros t Ht. destruct Hout as [->| ->]; [by apply sortBy_elem_of | done]. }
  destruct (dispatchable agents (content fl)); [|by apply Hin].
  destruct H as (_ & He & k & Hk). split; [done|]. exists k. by apply Hin.
Qed.

(** An entry on which the body throws is never written by the scan. *)
Lemma scan_stuck E agents files s g :
  ~ passes agents (st_fs s) g ->
  st_fs (final (scan E agents files s)) !! g = st_fs s !! g.
Proof.
  revert s. induction files as [|f files IH]; intros s Hg; simpl; [done|].
  destruct (decide (f = g)) as [->|Hne].
  - destruct (step_cases E agents g s)
      as [[Hs _]|[(e & Hs & _)|(fl & _ & Hf & Hr & Hw & _)]].
    + rewrite Hs. by apply IH.
    + by rewrite Hs.
    + destruct Hg. by exists fl.
  - pose proof (step_fs_other E agents f s g (not_eq_sym Hne)) as Hs.
    destruct (step E agents f s) as [s1|e s1]; simpl in *; [|done].
    rewrite IH; [done|]. unfold passes. by rewrite Hs.
Qed.

(** ** The dispatch write *)

Lemma opt_quote_greedy s r : opt_quote s = ([], r) -> headQuote r = false.
Proof.
  unfold opt_quote. destruct s as [|c s]; [by intros [= <-]|].
  destruct (is_quote c) eqn:Hc; [discriminate|]. by intros [= <-].
Qed.

(** What the pattern of the dispatch write matches; it takes the closing
    quote when there is one. *)
Lemma match_pending_at_quote s t g r :
  match_pending_at s = Some (t, g, r) ->
  exists ws oq cq,
    t = js "status:" ++ ws ++ oq ++ js "pending" ++ cq /\
    Forall (fun c => is_space c = true) ws /\ quoteish oq /\ quoteish cq /\
    (cq = [] -> headQuote r = false).
Proof.
  unfold match_pending_at.
  destruct (strip_prefix _ s) as [r0|]; [|discriminate].
  pose proof (span_Forall is_space r0) as H1'.
  destruct (span is_space r0) as [ws r1]; cbn [fst snd] in *.
  destruct (opt_quote r1) as [oq r2] eqn:H2. apply opt_quote_spec in H2 as [H2 H2'].
  destruct (strip_prefix _ r2) as [r3|]; [|discriminate].
  destruct (opt_quote r3) as [cq r4] eqn:H4.
  pose proof H4 as H4'. apply opt_quote_spec in H4' as [_ H5].
  intros H. split_result H. subst t g r4.
  exists ws, oq, cq. split_and!; try done.
  intros ->. by apply opt_quote_greedy in H4.
Qed.

(** The pattern matches wherever a pending status field stands. *)
Lemma match_pending_at_complete s :
  pendingFieldAt s -> match_pending_at s <> None.
Proof.
  intros (ws & oq & rest & -> & Hws & Hoq). unfold match_pending_at.
  rewrite strip_prefix_app.
  assert (span is_space (ws ++ oq ++ js "pending" ++ rest)
          = (ws, oq ++ js "pending" ++ rest)) as ->.
  { apply span_exact; [done|].
    destruct Hoq as [->|(c & Hc & ->)]; [reflexivity|].
    cbn [app]. destruct (is_space c) eqn:Hd; [|done].
    by rewrite (space_not_quote c Hd) in Hc. }
  assert (opt_quote (oq ++ js "pending" ++ rest)
          = (oq, js "pending" ++ rest)) as ->.
  { destruct Hoq as [->|(c & Hc & ->)]; [reflexivity|].
    unfold opt_quote. cbn [app]. by rewrite Hc. }
  rewrite strip_prefix_app. by destruct (opt_quote rest).
Qed.

(** The dispatch write on a pending file: the leftmost pending status
    field is replaced, its closing quote included, and nothing else. *)
Lemma markDispatched_leftmost content :
  statusOf content = js "pending" ->
  exists pre ws oq cq post,
    content = pre ++ (js "status:" ++ ws ++ oq ++ js "pending" ++ cq) ++ post /\
    markDispatched content = pre ++ dispatchedField ++ post /\
    Forall (fun c => is_space c = true) ws /\ quoteish oq /\ quoteish cq /\
    (cq = [] -> headQuote post = false) /\
    (forall a b, pre = a ++ b -> b <> [] ->
       ~ pendingFieldAt
           (b ++ (js "status:" ++ ws ++ oq ++ js "pending" ++ cq) ++ post)).
Proof.
  rewrite statusOf_greedy, markDispatched_greedy. unfold replace_first.
  destruct (search (match_field_at _) content) as [x|] eqn:Hx;
    [|intros H; vm_compute in H; discriminate].
  intros Hg.
  pose proof (search_agree _ match_pending_at (fun g => g = js "pending") []
                content x pending_at_None) as Hag.
  rewrite Hag; [| |done|done]; cbn [m_pre m_post].
  2:{ intros u t g r Hu ->. by apply pending_at_of_field. }
  apply (search_Some _ (match_field_at_split _)) in Hx as (Hs & Hat & Hleft).
  rewrite Hg in Hat. apply pending_at_of_field in Hat.
  apply match_pending_at_quote in Hat
    as (ws & oq & cq & Ht & Hws & Hoq & Hcq & Hq).
  exists (m_pre x), ws, oq, cq, (m_post x). rewrite <- Ht.
  split_and!; try done.
  intros a b Hab Hb Hfield.
  apply match_pending_at_complete in Hfield. apply Hfield.
  apply pending_at_None. by apply (Hleft a b).
Qed.

(** ** The bytes a dispatch writes *)

Lemma ascii_check l :
  forallb (fun c => (c <? 0x80)%N) l = true ->
  Forall (fun c => (c < 0x80)%N) l.
Proof.
  rewrite forallb_forall, Forall_forall. intros H c Hc.
  apply N.ltb_lt, H. by apply list_elem_of_In.
Qed.

(** A text between two ASCII code units is encoded by itself, whatever
    stands around it. *)
Lemma encode_between pre t post :
  asciiEnds t ->
  encodeUtf8 (pre ++ t ++ post)
  = encodeUtf8 pre ++ encodeUtf8 t ++ encodeUtf8 post.
Proof.
  intros (a & m & z & -> & Ha & Hz).
  change ((a :: m ++ [z]) ++ post) with (a :: (m ++ [z]) ++ post).
  rewrite <- (app_assoc m [z] post). cbn [app].
  rewrite (encode_app_ascii pre a) by done.
  rewrite (encode_app_ascii m z post) by done.
  rewrite (encode_ascii_cons a) by done.
  rewrite (encode_app_ascii m z []) by done.
  cbn [encodeUtf8 app]. by rewrite <- !app_assoc.
Qed.

Lemma wellFormed_between pre t post :
  asciiEnds t ->
  isWellFormed (pre ++ t ++ post)
  = isWellFormed pre && isWellFormed t && isWellFormed post.
Proof.
  intros (a & m & z & -> & Ha & Hz).
  change ((a :: m ++ [z]) ++ post) with (a :: (m ++ [z]) ++ post).
  rewrite <- (app_assoc m [z] post). cbn [app].
  rewrite (wellFormed_app_ascii pre a) by done.
  rewrite (wellFormed_app_ascii m z post) by done.
  rewrite (wellFormed_bmp a) by lia.
  rewrite (wellFormed_app_ascii m z []) by done.
  cbn [isWellFormed]. by rewrite andb_true_r, andb_assoc.
Qed.

Lemma field_asciiEnds ws oq cq :
  quoteish cq ->
  asciiEnds (js "status:" ++ ws ++ oq ++ js "pending" ++ cq).
Proof.
  intros [->|(c & Hc & ->)].
  - exists 115%N, (js "tatus:" ++ ws ++ oq ++ js "pendin"), 103%N.
    split; [|lia].
    change (js "status:") with (115%N :: js "tatus:").
    change (js "pending") with (js "pendin" ++ [103%N]).
    cbn [app]. by rewrite app_nil_r, <- !app_assoc.
  - exists 115%N, (js "tatus:" ++ ws ++ oq ++ js "pending"), c.
    split.
    + change (js "status:") with (115%N :: js "tatus:").
      cbn [app]. by rewrite <- !app_assoc.
    + unfold is_quote in Hc.
      apply orb_true_iff in Hc as [Hc%N.eqb_eq|Hc%N.eqb_eq]; lia.
Qed.

Lemma dispatchedField_asciiEnds : asciiEnds dispatchedField.
Proof.
  exists 115%N, (js "tatus: " ++ [34%N] ++ js "dispatched"), 34%N.
  split; [reflexivity | lia].
Qed.

Lemma dispatchedField_ascii : Forall (fun c => (c < 0x80)%N) dispatchedField.
Proof. by apply ascii_check. Qed.

(** The text a dispatch writes is well formed when the text read was. *)
Lemma markDispatched_wellFormed c :
  isWellFormed c = true -> isWellFormed (markDispatched c) = true.
Proof.
  intros Hwf. unfold markDispatched, replace_first.
  destruct (search (execAt pendingRe) c) as [x|] eqn:Hx; [|done].
  rewrite (search_ext _ match_pending_at c execAt_pending) in Hx.
  apply (search_Some _ match_pending_at_split) in Hx as (Hs & Hat & _).
  apply match_pending_at_quote in Hat as (ws & oq & cq & Ht & _ & _ & Hcq & _).
  rewrite Hs, Ht, wellFormed_between in Hwf by by apply field_asciiEnds.
  apply andb_true_iff in Hwf as [[Hpre _]%andb_true_iff Hpost].
  rewrite wellFormed_between by apply dispatchedField_asciiEnds.
  rewrite Hpre, Hpost.
  by rewrite <- (app_nil_r dispatchedField),
       (wellFormed_ascii _ _ dispatchedField_ascii).
Qed.

(** The next read of a dispatched file gives the text that was written. *)
Lemma content_dispatchedFile E f k :
  content (dispatchedFile E f k) = markDispatched (content f).
Proof.
  unfold dispatchedFile, written, content at 1. cbn [bytes].
  apply decode_encode, markDispatched_wellFormed, decode_wellFormed.
Qed.

(** The bytes a dispatch writes: those of the text before the field, the
    new field, those of the text after it. *)
Lemma encode_markDispatched pre post :
  encodeUtf8 (pre ++ dispatchedField ++ post)
  = encodeUtf8 pre ++ dispatchedField ++ encodeUtf8 post.
Proof.
  rewrite encode_between by apply dispatchedField_asciiEnds.
  by rewrite <- (app_nil_r dispatchedField) at 1;
    rewrite (encode_ascii _ _ dispatchedField_ascii), app_nil_r.
Qed.
(** ** The claims on the router *)

(** C1, as stated, fails: with a sub-directory [d.md] listed between two
    pending coding tasks and no worker at all, [a.md] is dispatched, the
    read of [d.md] throws, and [b.md] is neither dispatched nor shown. *)
Lemma C1_counterexample :
  let res := processInbox exEnv [] (Inbox [js "a.md"; js "d.md"; js "b.md"])
                          exInbox in
  isPending (taskText "pending" "coding") = true /\
  isBusy [] (targetOf (taskText "pending" "coding")) = false /\
  execsOf (st_log res.2) = [spawnOf (js "a.md") (taskText "pending" "coding")] /\
  res.1 = [freshTask exEnv 0 (js "a.md") (taskText "pending" "coding")] /\
  st_fs res.2 !! js "b.md" = exInbox !! js "b.md".
Proof. vm_compute. by repeat split. Qed.

(** C1 (amended): a readable file the scan reaches is dispatched exactly
    when it is pending, its target label has no active worker in the
    snapshot the router was given, whatever was dispatched earlier in the
    tick, and the file can be written; hence two pending tasks with the same
    free target label, both readable, writable and reached by the scan, are
    both dispatched in that tick. *)
Theorem C1_stale_snapshot E agents files fs out s' :
  processInbox E agents (Inbox files) fs = (out, s') ->
  (forall f fl, reached agents fs files f -> isMd f = true ->
     fs !! f = Some (Regular fl) -> mayRead fl = true ->
     (dispatchedIn s' f <->
      isPending (content fl) = true /\
      isBusy agents (targetOf (content fl)) = false /\
      mayWrite fl = true)) /\
  (forall f1 f2 fl1 fl2 l,
     reached agents fs files f1 -> reached agents fs files f2 ->
     isMd f1 = true -> isMd f2 = true ->
     fs !! f1 = Some (Regular fl1) -> fs !! f2 = Some (Regular fl2) ->
     mayRead fl1 = true -> mayWrite fl1 = true ->
     mayRead fl2 = true -> mayWrite fl2 = true ->
     isPending (content fl1) = true -> isPending (content fl2) = true ->
     targetOf (content fl1) = l -> targetOf (content fl2) = l ->
     isBusy agents l = false ->
     (EvExec (spawnOf f1 (content fl1)) ∈ st_log s' /\
      exists k, freshTask E k f1 (content fl1) ∈ out) /\
     (EvExec (spawnOf f2 (content fl2)) ∈ st_log s' /\
      exists k, freshTask E k f2 (content fl2) ∈ out)).
Proof.
  intros Hp.
  assert (forall f fl, reached agents fs files f -> isMd f = true ->
            fs !! f = Some (Regular fl) ->
            mayRead fl = true -> mayWrite fl = true ->
            dispatchable agents (content fl) = true ->
            EvExec (spawnOf f (content fl)) ∈ st_log s' /\
            exists k, freshTask E k f (content fl) ∈ out) as Hdisp.
  { intros f fl Hf Hmd Hfs Hr Hw Hd.
    pose proof (processInbox_reached _ _ _ _ _ _ f fl Hp Hf Hmd Hfs Hr
                  (fun _ => Hw)) as H.
    by rewrite Hd in H. }
  split.
  - intros f fl Hf Hmd Hfs Hr. split.
    + intros (r & Hr' & Hfile).
      destruct (mayRead fl && mayWrite fl
                && dispatchable agents (content fl)) eqn:Hd.
      * apply andb_true_iff in Hd as [[_ Hw]%andb_true_iff Hd].
        apply dispatchable_true in Hd as [? ?]. done.
      * destruct (scan_leaves E agents files (RState fs [] [] 0) f fl Hfs Hd)
          as (_ & evs & Hl & Hev).
        destruct (processInbox_final _ _ _ _ _ _ Hp) as [Hs' _].
        rewrite <- Hs' in Hl. simpl in Hl. subst evs.
        rewrite Forall_forall in Hev. by destruct (Hev _ Hr').
    + intros (Hpend & Hfree & Hw). exists (spawnOf f (content fl)).
      split; [|done]. apply (Hdisp f fl); try done.
      by apply dispatchable_true.
  - intros f1 f2 fl1 fl2 l Hf1 Hf2 Hmd1 Hmd2 Hfs1 Hfs2 Hr1 Hw1 Hr2 Hw2
      Hp1 Hp2 Hl1 Hl2 Hb.
    split.
    + apply (Hdisp f1 fl1); try done. apply dispatchable_true.
      by rewrite Hl1.
    + apply (Hdisp f2 fl2); try done. apply dispatchable_true.
      by rewrite Hl2.
Qed.

(** In the example inbox every regular file can be read and written. *)
Lemma exInbox_passes agents (files : list jsstring) :
  files ⊆ [js "a.md"; js "b.md"; js "c.md"; js "n.md"] ->
  forall f, f ∈ files -> isMd f = true -> passes agents exInbox f.
Proof.
  intros Hsub f Hf _. apply Hsub in Hf.
  rewrite !elem_of_cons, elem_of_nil in Hf.
  destruct Hf as [->|[->|[->|[->|[]]]]]; eexists;
    (split; [vm_compute; reflexivity|]); split; reflexivity.
Defined.

(** In the example inbox the scan reaches a file listed after regular files
    only. *)
Lemma exInbox_reached agents (l1 l2 : list jsstring) (f : jsstring) :
  l1 ⊆ [js "a.md"; js "b.md"; js "c.md"; js "n.md"] ->
  reached agents exInbox (l1 ++ f :: l2) f.
Proof.
  intros Hsub. exists l1, l2. split; [done|]. by apply exInbox_passes.
Defined.

Lemma C1_stale_snapshot_witness :
  let res := processInbox exEnv [] (Inbox [js "a.md"; js "b.md"; js "d.md"])
                          exInbox in
  (EvExec (spawnOf (js "a.md") (taskText "pending" "coding")) ∈ st_log res.2 /\
   exists k, freshTask exEnv k (js "a.md") (taskText "pending" "coding") ∈ res.1) /\
  (EvExec (spawnOf (js "b.md") (taskText "pending" "coding")) ∈ st_log res.2 /\
   exists k, freshTask exEnv k (js "b.md") (taskText "pending" "coding") ∈ res.1).
Proof.
  intros res.
  refine (proj2 (C1_stale_snapshot exEnv [] [js "a.md"; js "b.md"; js "d.md"]
                   exInbox res.1 res.2 _)
            (js "a.md") (js "b.md")
            (textFile (taskText "pending" "coding") 100)
            (textFile (taskText "pending" "coding") 200)
            (js "tech_team") _ _ _ _ _ _ _ _ _ _ _ _ _ _ _).
  - apply surjective_pairing.
  - apply (exInbox_reached [] [] [js "b.md"; js "d.md"]).
    by intros f Hf%elem_of_nil.
  - apply (exInbox_reached [] [js "a.md"] [js "d.md"]).
    intros f. rewrite !elem_of_cons. tauto.
  - by vm_compute.
  - by vm_compute.
  - by vm_compute.
  - by vm_compute.
  - by vm_compute.
  - by vm_compute.
  - by vm_compute.
  - by vm_compute.
  - by vm_compute.
  - by vm_compute.
  - by vm_compute.
  - by vm_compute.
  - by vm_compute.
Defined.

(** C4, as stated, fails: with the sub-directory [d.md] listed first and an
    active worker labelled [tech_team], the pending coding task [a.md] does
    not appear in the list the router returns. *)
Lemma C4_counterexample :
  let res := processInbox exEnv [techWorker] (Inbox [js "d.md"; js "a.md"])
                          exInbox in
  exInbox !! js "a.md" = Some (taskFile "pending" "coding" 100) /\
  isPending (taskText "pending" "coding") = true /\
  isBusy [techWorker] (targetOf (taskText "pending" "coding")) = true /\
  res.1 = [].
Proof. vm_compute. by repeat split. Qed.

(** C4 (amended): a pending task file whose target label is busy in the
    snapshot is not written and no event of the tick concerns it, whatever
    happens to the other entries; when the file can be read and the scan
    reaches it, the task is in the list returned, with status [pending] and
    the floor of the file's modification time. *)
Theorem C4_busy_untouched E agents files fs out s' f fl :
  processInbox E agents (Inbox files) fs = (out, s') ->
  isMd f = true ->
  fs !! f = Some (Regular fl) ->
  isPending (content fl) = true ->
  isBusy agents (targetOf (content fl)) = true ->
  st_fs s' !! f = fs !! f /\
  Forall (fun ev => ~ touches f ev) (st_log s') /\
  (reached agents fs files f -> mayRead fl = true ->
   Task (inboxId f) (titleOf f (content fl)) (js "pending")
        (Qfloor (mtimeMs fl)) ∈ out).
Proof.
  intros Hp Hmd Hfs Hpend Hbusy.
  assert (dispatchable agents (content fl) = false) as Hd.
  { unfold dispatchable. by rewrite Hbusy, andb_false_r. }
  assert (mayRead fl && mayWrite fl && dispatchable agents (content fl)
          = false) as Hd' by (by rewrite Hd, andb_false_r).
  destruct (scan_leaves E agents files (RState fs [] [] 0) f fl Hfs Hd')
    as (Hkeep & evs & Hl & Hev).
  pose proof (processInbox_final _ _ _ _ _ _ Hp) as [Hs' _].
  rewrite <- Hs' in Hkeep, Hl. simpl in Hl. subst evs.
  split; [by rewrite Hfs|]. split; [done|]. intros Hreach Hread.
  assert (dispatchable agents (content fl) = true -> mayWrite fl = true)
    as Hw by (by rewrite Hd).
  pose proof (processInbox_reached _ _ _ _ _ _ f fl Hp Hreach Hmd Hfs Hread Hw)
    as H.
  rewrite Hd in H. by rewrite <- (isPending_status _ Hpend).
Qed.

Lemma C4_busy_untouched_witness :
  let res := processInbox exEnv [techWorker]
               (Inbox [js "c.md"; js "a.md"; js "d.md"]) exInbox in
  st_fs res.2 !! js "a.md" = exInbox !! js "a.md" /\
  Forall (fun ev => ~ touches (js "a.md") ev) (st_log res.2) /\
  Task (inboxId (js "a.md")) (titleOf (js "a.md") (taskText "pending" "coding"))
       (js "pending") (Qfloor (inject_Z 100)) ∈ res.1.
Proof.
  intros res.
  destruct (C4_busy_untouched exEnv [techWorker]
              [js "c.md"; js "a.md"; js "d.md"] exInbox
              res.1 res.2 (js "a.md")
              (textFile (taskText "pending" "coding") 100))
    as (H1 & H2 & H3); [ex_side..|].
  split; [done|]. split; [done|]. apply H3; [|reflexivity].
  apply (exInbox_reached [techWorker] [js "c.md"] [js "d.md"]).
  intros f. rewrite !elem_of_cons. tauto.
Defined.

(** C2, as stated, fails: the file [a.md] of [rawInbox] ends in a byte that
    is no UTF-8; the router reads that byte as U+FFFD, and after a failed
    invocation the callback writes three bytes where there was one: the
    file restored is two bytes longer than the file was before the
    dispatch. *)
Lemma C2_counterexample :
  let res := processInbox exEnv [] (Inbox [js "a.md"]) rawInbox in
  let r := spawnOf (js "a.md") (content rawFile) in
  st_log res.2 = [EvWrite (js "a.md") (markDispatched (content rawFile));
                  EvExec r] /\
  exists restored after,
    execCallback r true (inject_Z 2000) true (st_fs res.2) = inr after /\
    after !! js "a.md" = Some (Regular restored) /\
    bytes restored <> bytes rawFile /\
    length (bytes restored) = (length (bytes rawFile) + 2)%nat.
Proof.
  intros res r. split; [by vm_compute|].
  exists (written rawFile (content rawFile) (inject_Z 2000)).
  eexists. split; [by vm_compute|]. split; [by vm_compute|].
  split; [|by vm_compute].
  intros H. apply (f_equal length) in H. vm_compute in H. discriminate H.
Qed.

(** C2 (amended): every invocation of a tick saved the text read from its
    file before the dispatch, which was pending, and the file holds the
    rewritten text after the tick. A success changes nothing. When the
    invocation reports a failure, at any later state of the directory in
    which the file is a regular file: if the file can be written, the
    callback leaves it with the UTF-8 form of the saved text, so that it
    reads as before the dispatch and is pending again, and leaves every
    other file as it was; these bytes are the bytes the file had before
    the dispatch when those were well-formed UTF-8; if the file cannot be
    written, the write throws and nothing is restored. *)
Theorem C2_rollback_roundtrip E agents files fs out s' r :
  NoDup files ->
  processInbox E agents (Inbox files) fs = (out, s') ->
  EvExec r ∈ st_log s' ->
  exists fl k,
    fs !! sp_file r = Some (Regular fl) /\ sp_content r = content fl /\
    statusOf (content fl) = js "pending" /\
    st_fs s' !! sp_file r = Some (Regular (dispatchedFile E fl k)) /\
    forall (later : gmap jsstring node) (stamp : Q) (create : bool),
      execCallback r false stamp create later = inr later /\
      forall cur, later !! sp_file r = Some (Regular cur) ->
        (mayWrite cur = false ->
         execCallback r true stamp create later = inl EACCES) /\
        (mayWrite cur = true ->
         exists after restored,
           execCallback r true stamp create later = inr after /\
           after !! sp_file r = Some (Regular restored) /\
           bytes restored = encodeUtf8 (content fl) /\
           mtimeMs restored = stamp /\
           content restored = content fl /\
           statusOf (content restored) = js "pending" /\
           (wellFormedUtf8 (bytes fl) -> bytes restored = bytes fl) /\
           (forall g, g <> sp_file r -> after !! g = later !! g)).
Proof.
  intros Hnd Hp Hr.
  pose proof (processInbox_final _ _ _ _ _ _ Hp) as [Hs' _].
  pose proof (scan_execs E agents fs files (RState fs [] [] 0) r Hnd
                (fun _ _ => eq_refl)) as Hex.
  rewrite <- Hs' in Hex.
  destruct (Hex Hr)
    as [Hin|(_ & _ & _ & Hd & (fl & k & Hfl & Hc & _ & _ & Hst) & _)].
  { by apply elem_of_nil in Hin. }
  rewrite Hc in Hd. apply dispatchable_true in Hd as [Hpend _].
  apply isPending_status in Hpend.
  exists fl, k. split_and!; try done.
  intros later stamp create. split; [done|]. intros cur Hcur.
  unfold execCallback, writeFileSync. rewrite Hcur. split.
  - by intros ->.
  - intros ->. eexists _, (written cur (sp_content r) stamp).
    split; [done|]. rewrite lookup_insert_eq. split; [done|].
    assert (content (written cur (sp_content r) stamp) = content fl) as Hsame.
    { unfold content at 1, written. cbn [bytes]. rewrite Hc.
      apply decode_encode_decode. }
    split_and!.
    + by rewrite Hc.
    + done.
    + done.
    + by rewrite Hsame.
    + intros Hwf. cbn [written bytes]. rewrite Hc.
      by apply wellFormedUtf8_stable.
    + intros g Hg. by rewrite lookup_insert_ne.
Qed.

Lemma C2_rollback_roundtrip_witness :
  let res := processInbox exEnv [] (Inbox [js "a.md"; js "c.md"]) exInbox in
  let r := spawnOf (js "a.md") (taskText "pending" "coding") in
  exists after restored,
    execCallback r true (inject_Z 2000) true (st_fs res.2) = inr after /\
    after !! js "a.md" = Some (Regular restored) /\
    bytes restored = taskText "pending" "coding".
Proof.
  intros res r.
  destruct (C2_rollback_roundtrip exEnv [] [js "a.md"; js "c.md"] exInbox
              res.1 res.2 r) as (fl & k & Hfl & _ & _ & Hst & H).
  - nodup_list.
  - apply surjective_pairing.
  - vm_compute. in_list.
  - assert (fl = textFile (taskText "pending" "coding") 100) as ->.
    { vm_compute in Hfl. by injection Hfl as <-. }
    destruct (H (st_fs res.2) (inject_Z 2000) true) as [_ H'].
    destruct (H' _ Hst) as [_ H2].
    destruct (H2 eq_refl) as (after & restored & Ha & Hr & _ & _ & _ & _ & Hb & _).
    exists after, restored. split; [done|]. split; [done|].
    apply Hb. apply ascii_wellFormedUtf8, ascii_check. by vm_compute.
Defined.

(** C3, as stated, fails: the file [a.md] of [rawInbox] has its status
    between double quotes after one space, so that the text written differs
    from the text read in the value alone; but its last byte, which is no
    UTF-8, is written back as the three bytes of U+FFFD: the bytes written
    are not the bytes read with [pending] replaced by [dispatched]. *)
Lemma C3_counterexample :
  let res := processInbox exEnv [] (Inbox [js "a.md"]) rawInbox in
  (exists a b, content rawFile = a ++ js "pending" ++ b /\
               markDispatched (content rawFile) = a ++ js "dispatched" ++ b) /\
  st_log res.2 = [EvWrite (js "a.md") (markDispatched (content rawFile));
                  EvExec (spawnOf (js "a.md") (content rawFile))] /\
  exists after,
    st_fs res.2 !! js "a.md" = Some (Regular after) /\
    ~ exists a b, bytes rawFile = a ++ js "pending" ++ b /\
                  bytes after = a ++ js "dispatched" ++ b.
Proof.
  intros res. split; [|split; [by vm_compute|]].
  - exists (js "---" ++ nl ++ js "status: " ++ [34%N]),
           ([34%N] ++ nl ++ js "type: coding" ++ nl ++ js "---" ++ nl
            ++ js "Fix the build" ++ [0xFFFD%N]).
    by vm_compute.
  - exists (dispatchedFile exEnv rawFile 0). split; [by vm_compute|].
    intros (a & b & Hc & Hn).
    assert (length (bytes (dispatchedFile exEnv rawFile 0))
            = length (bytes rawFile) + 5)%nat as Hlen
      by (vm_compute; reflexivity).
    apply (f_equal length) in Hc, Hn. rewrite !length_app in Hc, Hn.
    change (length (js "pending")) with 7%nat in Hc.
    change (length (js "dispatched")) with 10%nat in Hn. lia.
Qed.

(** C3 (amended): the write of a dispatch replaces the leftmost pending
    status field of the text read (the key, any white space, an optional
    quote, [pending] and the closing quote when there is one) by the key,
    one space and [dispatched] between double quotes, and keeps every code
    unit before and after that field; when the field was written as the
    key, one space and [pending] between double quotes, only the value
    changes. The bytes written are the UTF-8 form of the text before the
    field, the new field, and the UTF-8 form of the text after it; when the
    bytes read were well-formed UTF-8 these are the bytes read, the field
    apart. The write succeeds, and is the event just before the
    invocation. *)
Theorem C3_dispatch_write E agents files fs out s' r :
  NoDup files ->
  processInbox E agents (Inbox files) fs = (out, s') ->
  EvExec r ∈ st_log s' ->
  exists fl k pre ws oq cq post l1 l2,
    let field := js "status:" ++ ws ++ oq ++ js "pending" ++ cq in
    fs !! sp_file r = Some (Regular fl) /\ sp_content r = content fl /\
    isPending (content fl) = true /\
    isBusy agents (targetOf (content fl)) = false /\
    content fl = pre ++ field ++ post /\
    Forall (fun x => is_space x = true) ws /\ quoteish oq /\ quoteish cq /\
    (cq = [] -> headQuote post = false) /\
    (forall a b, pre = a ++ b -> b <> [] ->
                 ~ pendingFieldAt (b ++ field ++ post)) /\
    st_log s' =
      l1 ++ [EvWrite (sp_file r) (pre ++ dispatchedField ++ post); EvExec r]
         ++ l2 /\
    st_fs s' !! sp_file r =
      Some (Regular (File (encodeUtf8 pre ++ dispatchedField ++ encodeUtf8 post)
                          (writeStamp E k) true true)) /\
    (wellFormedUtf8 (bytes fl) ->
     bytes fl = encodeUtf8 pre ++ encodeUtf8 field ++ encodeUtf8 post) /\
    (ws = [32%N] -> oq = [34%N] -> cq = [34%N] ->
     exists a b, content fl = a ++ js "pending" ++ b /\
                 pre ++ dispatchedField ++ post = a ++ js "dispatched" ++ b).
Proof.
  intros Hnd Hp Hr.
  pose proof (processInbox_final _ _ _ _ _ _ Hp) as [Hs' _].
  pose proof (scan_execs E agents fs files (RState fs [] [] 0) r Hnd
                (fun _ _ => eq_refl)) as Hex.
  rewrite <- Hs' in Hex.
  destruct (Hex Hr)
    as [Hin|(_ & _ & _ & Hd & (fl & k & Hfl & Hc & Hread & Hwrite & Hst)
             & l1 & l2 & Hl)].
  { by apply elem_of_nil in Hin. }
  rewrite Hc in Hd, Hl. apply dispatchable_true in Hd as [Hpend Hbusy].
  destruct (markDispatched_leftmost _ (isPending_status _ Hpend))
    as (pre & ws & oq & cq & post & Hcont & Hn & Hws & Hoq & Hcq & Hq & Hleft).
  exists fl, k, pre, ws, oq, cq, post, l1, l2. cbn zeta.
  rewrite <- Hn. split_and!; try done.
  - rewrite Hst. unfold dispatchedFile, written.
    by rewrite Hn, encode_markDispatched, Hread, Hwrite.
  - intros Hwf. rewrite <- (wellFormedUtf8_stable _ Hwf) at 1.
    fold (content fl). rewrite Hcont at 1.
    apply encode_between. by apply field_asciiEnds.
  - intros -> -> ->.
    exists (pre ++ js "status: " ++ [34%N]), ([34%N] ++ post).
    rewrite Hn, Hcont. unfold dispatchedField. rewrite <- !app_assoc.
    split; reflexivity.
Qed.

Lemma C3_dispatch_write_witness :
  let c := taskText "pending" "coding" in
  let res := processInbox exEnv [] (Inbox [js "a.md"; js "c.md"]) exInbox in
  exists pre post l1 l2,
    c = pre ++ js "status: pending" ++ post /\
    st_log res.2 =
      l1 ++ [EvWrite (js "a.md") (pre ++ dispatchedField ++ post);
             EvExec (spawnOf (js "a.md") c)] ++ l2 /\
    st_fs res.2 !! js "a.md" =
      Some (Regular (File (pre ++ dispatchedField ++ post)
                          (inject_Z 1000) true true)).
Proof.
  intros c res.
  destruct (C3_dispatch_write exEnv [] [js "a.md"; js "c.md"] exInbox
              res.1 res.2 (spawnOf (js "a.md") c))
    as (fl & k & pre & ws & oq & cq & post & l1 & l2 & Hfl & _ & _ & _
        & Hc & _ & _ & _ & _ & _ & Hl & _ & _ & _).
  - nodup_list.
  - apply surjective_pairing.
  - vm_compute. in_list.
  - exists (js "---" ++ nl), (nl ++ js "type: coding" ++ nl ++ js "---" ++ nl
                              ++ js "Fix the build"), [], [].
    by vm_compute.
Defined.

(** C5, as stated, fails: [a.md], dispatched in the tick, comes after
    [c.md], which is only shown. *)
Lemma C5_counterexample :
  let files := [js "a.md"; js "c.md"] in
  let res := processInbox exEnv [] (Inbox files) exInbox in
  let ta := freshTask exEnv 0 (js "a.md") (taskText "pending" "coding") in
  let tc := shownTask (js "c.md") (taskText "completed" "general")
                      (inject_Z 50) in
  res.1 = [tc; ta] /\
  freshEntry exEnv [] exInbox files res.2 ta /\
  shownEntry [] exInbox files tc.
Proof.
  intros files res ta tc. split; [by vm_compute|]. split.
  - exists (js "a.md"), (textFile (taskText "pending" "coding") 100), 0%nat.
    split_and!; [in_list | by vm_compute..].
  - exists (js "c.md"), (textFile (taskText "completed" "general") 50).
    split_and!; [in_list | by vm_compute..].
Qed.

(** C5 (amended): when the body of the loop throws on no listed [.md]
    entry (each is a readable file, and a writable one when it is
    dispatched), the list the router returns is in ascending order of
    [updatedAt], the oldest first; a task dispatched in the tick carries the
    time of its dispatch, so that, when the files were last modified before
    the dispatches, the tasks dispatched in the tick come after all the
    others. *)
Theorem C5_oldest_first E agents files fs out s' :
  NoDup files ->
  (forall f, f ∈ files -> isMd f = true -> passes agents fs f) ->
  processInbox E agents (Inbox files) fs = (out, s') ->
  StronglySorted (fun a b => updatedAt a <= updatedAt b) out /\
  ((forall f fl k, fs !! f = Some (Regular fl) ->
                   Qfloor (mtimeMs fl) < dateNow E k) ->
   forall i j ti tj,
     out !! i = Some ti -> out !! j = Some tj ->
     freshEntry E agents fs files s' ti ->
     shownEntry agents fs files tj ->
     (j < i)%nat).
Proof.
  intros Hnd Hr Hp.
  destruct (processInbox_completes _ _ _ _ _ _ Hr Hp) as [Hs ->].
  pose proof (sortTasks_sorted (st_tasks s')) as Hsorted.
  split; [done|]. intros Hold i j ti tj Hi Hj Hfresh Hshown.
  destruct Hfresh as (f & fl & k & _ & _ & _ & _ & _ & _ & _ & ->).
  destruct Hshown as (g & fl' & _ & _ & Hg & _ & _ & ->).
  pose proof (Hold g fl' k Hg) as Hlt.
  destruct (decide (j < i)%nat) as [|Hge]; [done|].
  destruct (decide (i = j)) as [->|Hne].
  - rewrite Hi in Hj. apply (inj Some) in Hj.
    apply (f_equal updatedAt) in Hj. simpl in Hj. lia.
  - assert (i < j)%nat as Hij by lia.
    pose proof (StronglySorted_lookup _ _ _ _ _ _ Hsorted Hij Hi Hj) as Hle.
    simpl in Hle. lia.
Qed.

Lemma exInbox_old f fl k :
  exInbox !! f = Some (Regular fl) -> Qfloor (mtimeMs fl) < dateNow exEnv k.
Proof.
  unfold exInbox, taskFile, textFile. intros Hf.
  repeat (rewrite lookup_insert in Hf; case_decide;
          [ first [ discriminate Hf
                  | injection Hf as <-; cbn [mtimeMs]; rewrite Qfloor_Z;
                    simpl; lia ] |]).
  by rewrite lookup_empty in Hf.
Defined.

Lemma C5_oldest_first_witness :
  let files := [js "a.md"; js "c.md"] in
  let res := processInbox exEnv [] (Inbox files) exInbox in
  StronglySorted (fun a b => updatedAt a <= updatedAt b) res.1 /\
  forall i j ti tj,
    res.1 !! i = Some ti -> res.1 !! j = Some tj ->
    freshEntry exEnv [] exInbox files res.2 ti ->
    shownEntry [] exInbox files tj ->
    (j < i)%nat.
Proof.
  intros files res.
  destruct (C5_oldest_first exEnv [] files exInbox res.1 res.2) as [H1 H2].
  - nodup_list.
  - apply exInbox_passes. unfold files. intros f. rewrite !elem_of_cons.
    tauto.
  - apply surjective_pairing.
  - split; [done|]. apply H2. apply exInbox_old.
Defined.

(** C6, as stated, fails: when the read of the sub-directory [d.md] throws,
    the records collected so far are returned as they are, [a.md] before the
    older [c.md]. *)
Lemma C6_counterexample :
  let res := processInbox exEnv [techWorker]
               (Inbox [js "a.md"; js "c.md"; js "d.md"]) exInbox in
  exists ta tc,
    res.1 !! 0%nat = Some ta /\ res.1 !! 1%nat = Some tc /\
    updatedAt tc < updatedAt ta.
Proof.
  intros res.
  exists (shownTask (js "a.md") (taskText "pending" "coding") (inject_Z 100)),
         (shownTask (js "c.md") (taskText "completed" "general") (inject_Z 50)).
  by vm_compute.
Qed.

(** C6 (amended): every record of the list returned is either the record of
    a file dispatched in the tick, whose [updatedAt] is the clock reading
    of its own dispatch (the [k]-th reading for the [k]-th invocation of
    the tick), or the record of a file shown as found, with the floor of
    the file's modification time; and when the body of the loop throws on
    no listed [.md] entry the list is in ascending order of [updatedAt]. *)
Theorem C6_sorted_by_updatedAt E agents files fs out s' :
  NoDup files ->
  processInbox E agents (Inbox files) fs = (out, s') ->
  Forall (fun t =>
            (freshEntry E agents fs files s' t /\
             exists r k, execsOf (st_log s') !! k = Some r /\
                         id t = inboxId (sp_file r) /\
                         status t = js "dispatched" /\
                         updatedAt t = dateNow E k) \/
            (shownEntry agents fs files t /\
             exists f fl, fs !! f = Some (Regular fl) /\
                          id t = inboxId f /\
                          status t = statusOf (content fl) /\
                          updatedAt t = Qfloor (mtimeMs fl))) out /\
  ((forall f, f ∈ files -> isMd f = true -> passes agents fs f) ->
   StronglySorted (fun a b => updatedAt a <= updatedAt b) out).
Proof.
  intros Hnd Hp. split.
  - pose proof (processInbox_final _ _ _ _ _ _ Hp) as [Hs' Hout].
    pose proof (scan_entries E agents fs files (RState fs [] [] 0) Hnd
                  (fun _ _ => eq_refl) eq_refl) as (ts & Hts & Hall).
    rewrite <- Hs' in Hts, Hall. simpl in Hts. subst ts.
    assert (Forall (fun t =>
      (freshEntry E agents fs files s' t /\
       exists r k, execsOf (st_log s') !! k = Some r /\
                   id t = inboxId (sp_file r) /\
                   status t = js "dispatched" /\
                   updatedAt t = dateNow E k) \/
      (shownEntry agents fs files t /\
       exists f fl, fs !! f = Some (Regular fl) /\
                    id t = inboxId f /\
                    status t = statusOf (content fl) /\
                    updatedAt t = Qfloor (mtimeMs fl)))
      (st_tasks s')) as Hall'.
    { eapply Forall_impl; [exact Hall|]. intros t [Hf|Hsh]; [left|right].
      - split; [done|].
        destruct Hf as (f & fl & k & _ & _ & _ & _ & _ & _ & Hk & ->).
        by exists (spawnOf f (content fl)), k.
      - split; [done|]. destruct Hsh as (f & fl & _ & _ & Hf & _ & _ & ->).
        by exists f, fl. }
    destruct Hout as [->| ->]; [|done].
    rewrite Forall_forall in Hall'. apply Forall_forall.
    intros t Ht. apply Hall'. by apply sortBy_elem_of in Ht.
  - intros Hr. destruct (processInbox_completes _ _ _ _ _ _ Hr Hp) as [_ ->].
    apply sortTasks_sorted.
Qed.

Lemma C6_sorted_by_updatedAt_witness :
  let files := [js "a.md"; js "c.md"] in
  let res := processInbox exEnv [] (Inbox files) exInbox in
  StronglySorted (fun a b => updatedAt a <= updatedAt b) res.1.
Proof.
  intros files res.
  apply (C6_sorted_by_updatedAt exEnv [] files exInbox res.1 res.2).
  - nodup_list.
  - apply surjective_pairing.
  - apply exInbox_passes. unfold files. intros f. rewrite !elem_of_cons.
    tauto.
Defined.

(** C7, as stated, fails: the read of the sub-directory [d.md] throws, the
    [catch] is outside the loop, and the readable file [c.md] listed after
    it is not processed: the router returns no record at all. *)
Lemma C7_counterexample :
  let res := processInbox exEnv [] (Inbox [js "d.md"; js "c.md"]) exInbox in
  isMd (js "c.md") = true /\
  exInbox !! js "c.md" = Some (taskFile "completed" "general" 50) /\
  step exEnv [] (js "d.md") (RState exInbox [] [] 0)
    = Thrown EISDIR (RState exInbox [] [] 0) /\
  res.1 = [].
Proof. by vm_compute. Qed.

(** C7 (amended): a task file without a readable status field has status
    [unknown], is left as it is, and gets its record when it can be read
    and the scan reaches it; a content without a type field is routed as
    [general]. The body of the loop throws on a listed [.md] entry exactly
    when the entry is not a regular file that can be read, or is a pending
    task with a free target whose file cannot be written; whatever the
    content of a file, it does not throw otherwise. When it throws, the
    exception is caught outside the loop, the entries listed after it are
    not processed, and the router returns the records collected before it,
    unsorted. *)
Theorem C7_unknown_and_abort E agents files fs out s' :
  processInbox E agents (Inbox files) fs = (out, s') ->
  (forall f fl,
     isMd f = true -> fs !! f = Some (Regular fl) ->
     noField (js "status") (content fl) ->
     statusOf (content fl) = js "unknown" /\ st_fs s' !! f = fs !! f /\
     (reached agents fs files f -> mayRead fl = true ->
      Task (inboxId f) (titleOf f (content fl)) (js "unknown")
           (Qfloor (mtimeMs fl)) ∈ out)) /\
  (forall c, noField (js "type") c ->
     typeOf c = js "general" /\ targetOf c = js "handyman") /\
  (forall s f, isMd f = true ->
     (passes agents (st_fs s) f -> exists s1, step E agents f s = Next s1) /\
     (~ passes agents (st_fs s) f ->
      exists e, step E agents f s = Thrown e s)) /\
  (forall l1 bad l2,
     files = l1 ++ bad :: l2 ->
     (forall g, g ∈ l1 -> isMd g = true -> passes agents fs g) ->
     isMd bad = true -> ~ passes agents fs bad ->
     scan E agents l1 (RState fs [] [] 0) = Next s' /\ out = st_tasks s').
Proof.
  intros Hp. split_and!.
  - intros f fl Hmd Hfs Hno.
    assert (statusOf (content fl) = js "unknown") as Hst.
    { rewrite statusOf_greedy. by rewrite noField_search. }
    assert (dispatchable agents (content fl) = false) as Hd.
    { unfold dispatchable, isPending. by rewrite Hst. }
    assert (mayRead fl && mayWrite fl && dispatchable agents (content fl)
            = false) as Hd' by (by rewrite Hd, andb_false_r).
    split; [done|].
    destruct (scan_leaves E agents files (RState fs [] [] 0) f fl Hfs Hd')
      as (Hkeep & _).
    pose proof (processInbox_final _ _ _ _ _ _ Hp) as [Hs' _].
    rewrite <- Hs' in Hkeep. split; [by rewrite Hfs|]. intros Hreach Hread.
    assert (dispatchable agents (content fl) = true -> mayWrite fl = true)
      as Hw by (by rewrite Hd).
    pose proof (processInbox_reached _ _ _ _ _ _ f fl Hp Hreach Hmd Hfs
                  Hread Hw) as H.
    rewrite Hd in H. by rewrite <- Hst.
  - intros c Hno.
    assert (typeOf c = js "general") as Hty.
    { rewrite typeOf_greedy. by rewrite noField_search. }
    split; [done|]. unfold targetOf. by rewrite Hty.
  - intros s f Hmd. split.
    + intros (fl & Hf & Hr & Hw). rewrite (step_file _ _ _ _ _ Hmd Hf Hr).
      destruct (dispatchable agents (content fl)); [|eauto].
      rewrite (Hw eq_refl). eauto.
    + by apply step_throws.
  - intros l1 bad l2 -> Hr Hmd Hbad. revert Hp. unfold processInbox.
    rewrite scan_app.
    destruct (scan_completes E agents l1 (RState fs [] [] 0) Hr) as [s1 Hs1].
    rewrite Hs1. simpl.
    destruct (step_throws E agents bad s1 Hmd) as [e He].
    { pose proof (scan_stuck E agents l1 (RState fs [] [] 0) bad Hbad)
        as Heq.
      rewrite Hs1 in Heq. simpl in Heq. unfold passes. by rewrite Heq. }
    rewrite He. by intros [= <- <-].
Qed.

Lemma C7_unknown_and_abort_witness :
  let files := [js "n.md"; js "c.md"; js "d.md"; js "a.md"] in
  let res := processInbox exEnv [] (Inbox files) exInbox in
  Task (inboxId (js "n.md")) (titleOf (js "n.md") (js "Buy milk"))
       (js "unknown") (Qfloor (inject_Z 70)) ∈ res.1 /\
  scan exEnv [] [js "n.md"; js "c.md"] (RState exInbox [] [] 0) = Next res.2 /\
  res.1 = st_tasks res.2.
Proof.
  intros files res.
  destruct (C7_unknown_and_abort exEnv [] files exInbox res.1 res.2)
    as (Ha & _ & _ & Hd); [apply surjective_pairing|].
  split.
  - apply (Ha (js "n.md") (textFile (js "Buy milk") 70)).
    + by vm_compute.
    + by vm_compute.
    + apply noField_absent. by vm_compute.
    + apply (exInbox_reached [] [] [js "c.md"; js "d.md"; js "a.md"]).
      by intros f Hf%elem_of_nil.
    + reflexivity.
  - apply (Hd [js "n.md"; js "c.md"] (js "d.md") [js "a.md"]).
    + reflexivity.
    + apply exInbox_passes. intros f. rewrite !elem_of_cons. tauto.
    + by vm_compute.
    + intros (fl & Hf & _). vm_compute in Hf. discriminate Hf.
Defined.

(** ** The claims on the session readers *)

(** C8, as stated, fails: a main record that is done for more than an hour
    is passed over by the [continue] that precedes the [return], and the
    reader returns its list, with the scheduled entry. *)
Lemma C8_counterexample :
  let registry := Some [mainRecord 1000; workerRecord "w1" (Some 4990000)] in
  s_key (mainRecord 1000) = Some mainKey /\
  getTasks asListed noLog 5000000 registry =
    TaskList [Shown (Some (js "w1")) (js "tech_team") (js "running")
                    (Some 4990000);
              Shown (Some (js "cron-daily")) cronTitle (js "scheduled")
                    (Some 5000000)] /\
  mergeTasks [] (getTasks asListed noLog 5000000 registry) <> TypeError.
Proof. by vm_compute. Qed.

(** Only a record without [sessionId] makes the body throw. *)
Lemma sessionBody_sessionId titleFromLog now s :
  s_sessionId s <> None -> sessionBody titleFromLog now s <> BThrow.
Proof.
  intros Hid. unfold sessionBody. destruct (hidden now s); [done|].
  destruct (s_sessionId s) as [sid|]; [|done].
  match goal with
  | |- context [match ?tr with Some _ => _ | None => _ end] =>
      assert (exists t, tr = Some t) as [t ->]
  end.
  { repeat match goal with
           | |- context [if ?b then _ else _] => destruct b
           end; eauto. }
  by destruct (optEqb (s_key s) mainKey).
Qed.

Lemma sessionBody_main titleFromLog now r :
  s_key r = Some mainKey -> hidden now r = false ->
  sessionBody titleFromLog now r <> BThrow ->
  sessionBody titleFromLog now r = BReturn.
Proof.
  intros Hkey Hvis. unfold sessionBody. rewrite Hvis.
  match goal with
  | |- context [match ?tr with Some _ => _ | None => _ end] =>
      destruct tr; [|done]
  end.
  rewrite Hkey. unfold optEqb, jseqb. by rewrite bool_decide_eq_true_2.
Qed.

Lemma sessionLoop_return titleFromLog now l tasks r :
  r ∈ l -> s_key r = Some mainKey -> hidden now r = false ->
  (forall s, s ∈ l -> sessionBody titleFromLog now s <> BThrow) ->
  sessionLoop titleFromLog now l tasks = LReturn.
Proof.
  intros Hr Hkey Hvis. revert tasks Hr.
  induction l as [|s l IH]; intros tasks Hr Hno.
  { by apply elem_of_nil in Hr. }
  assert (forall s', s' ∈ l -> sessionBody titleFromLog now s' <> BThrow)
    as Hno' by (intros s' Hs'; apply Hno; by right).
  pose proof (Hno s (list_elem_of_here _ _)) as Hs.
  apply elem_of_cons in Hr as [<-|Hr'].
  - simpl. by rewrite (sessionBody_main _ _ _ Hkey Hvis Hs).
  - simpl. destruct (sessionBody titleFromLog now s); try done; by apply IH.
Qed.

(** The array the loop of [getTasks] goes through holds the records of the
    registry, whatever the engine. *)
Lemma sortSessions_Permutation engine values :
  (forall l, engine l ≡ₚ l) -> sortSessions engine values ≡ₚ values.
Proof.
  intros Hperm. unfold sortSessions.
  destruct (forallb _ values); [apply sortBy_Permutation | apply Hperm].
Qed.

(** C8 (amended): when the registry holds a record whose [key] is
    [agent:main:main], which the filter of sessions done for more than an
    hour does not pass over, and no record makes the body of the loop throw
    (which only a record without [sessionId] does), the reader stops at that
    record and returns [undefined], not a list: no session task and no
    scheduled entry; to spread that result into the merged list is a
    TypeError. This holds in whatever order the sort gives the records. *)
Theorem C8_return_undefined engine titleFromLog now values inboxTasks r :
  (forall l, engine l ≡ₚ l) ->
  r ∈ values -> s_key r = Some mainKey -> hidden now r = false ->
  (forall s, s ∈ values -> sessionBody titleFromLog now s <> BThrow) ->
  getTasks engine titleFromLog now (Some values) = Undefined /\
  mergeTasks inboxTasks (getTasks engine titleFromLog now (Some values))
  = TypeError.
Proof.
  intros Hperm Hr Hkey Hvis Hno.
  assert (getTasks engine titleFromLog now (Some values) = Undefined) as ->;
    [|done].
  unfold getTasks, tasksFrom.
  rewrite (sessionLoop_return titleFromLog now _ [] r); try done.
  - by rewrite (sortSessions_Permutation engine values Hperm).
  - intros s Hs. apply Hno.
    by rewrite (sortSessions_Permutation engine values Hperm) in Hs.
Qed.

Lemma C8_return_undefined_witness :
  let values := [workerRecord "w1" (Some 4990000); mainRecord 4999000] in
  getTasks asListed noLog 5000000 (Some values) = Undefined /\
  mergeTasks [] (getTasks asListed noLog 5000000 (Some values)) = TypeError.
Proof.
  intros values.
  apply (C8_return_undefined asListed noLog 5000000 values []
           (mainRecord 4999000)).
  - done.
  - unfold values. in_list.
  - reflexivity.
  - by vm_compute.
  - unfold values. intros s Hs. rewrite !elem_of_cons, elem_of_nil in Hs.
    destruct Hs as [->|[->|[]]]; by vm_compute.
Defined.

Lemma suffixLabels_same lc cc l :
  Forall2 sameButLabel l (suffixLabels lc cc l).
Proof.
  revert cc. induction l as [|a l IH]; intros cc; simpl; [constructor|].
  destruct (_ && _); constructor; try apply IH; by destruct a.
Qed.

Lemma toAgent_derived now s : derivedFrom now s (toAgent now s).
Proof.
  unfold derivedFrom, toAgent.
  cbn [a_sessionId a_updatedAt a_ageMs a_status]. split_and!; [done..| |].
  - intros u ->. change (numOr0 (Some u)) with u. split; [done|].
    destruct (Z.ltb_spec (now - u) 300000); split; intros;
      first [done | exfalso; lia].
  - intros ->. change (numOr0 None) with 0. split; [done|].
    destruct (Z.ltb_spec (now - 0) 300000) as [Hlt|Hge].
    + split; [by split | intros; exfalso; lia].
    + split; [split; intros; [discriminate | exfalso; lia] | done].
Qed.

Lemma derivedFrom_label now s a b :
  sameButLabel a b -> derivedFrom now s a -> derivedFrom now s b.
Proof. intros ->. by destruct a. Qed.

(** C9: each record of the registry gives one worker of the list, and each
    worker comes from a record; the worker is [active] exactly when [now]
    minus the record's [updatedAt] is below 300000 milliseconds, and a
    record without [updatedAt] counts as updated at 0: its age is [now], and
    it is [idle] for any clock past the first five minutes of the epoch. *)
Theorem C9_active_window now sessions :
  (forall s, s ∈ sessions ->
     exists a, a ∈ parseSessionsFile now (Some sessions) /\
               derivedFrom now s a) /\
  (forall a, a ∈ parseSessionsFile now (Some sessions) ->
     exists s, s ∈ sessions /\ derivedFrom now s a).
Proof.
  unfold parseSessionsFile.
  set (agents := map (toAgent now) sessions).
  pose proof (suffixLabels_same (countLabels agents) ∅ agents) as Hsame.
  split.
  - intros s Hs.
    assert (toAgent now s ∈ agents) as Ha by (by apply list_elem_of_fmap_2).
    apply list_elem_of_lookup in Ha as [i Hi].
    destruct (Forall2_lookup_l _ _ _ _ _ Hsame Hi) as (b & Hb & Hab).
    exists b. split.
    + apply sortBy_elem_of. by eapply list_elem_of_lookup_2.
    + eapply derivedFrom_label; [exact Hab | apply toAgent_derived].
  - intros b Hb. apply sortBy_elem_of in Hb.
    apply list_elem_of_lookup in Hb as [i Hi].
    destruct (Forall2_lookup_r _ _ _ _ _ Hsame Hi) as (a & Ha & Hab).
    apply list_elem_of_lookup_2 in Ha.
    apply list_elem_of_fmap in Ha as (s & -> & Hs).
    exists s. split; [done|].
    eapply derivedFrom_label; [exact Hab | apply toAgent_derived].
Qed.

Lemma C9_active_window_witness :
  let now := 5000000 in
  let sessions := [workerRecord "w1" (Some 4990000); workerRecord "w2" None] in
  exists a1 a2,
    a1 ∈ parseSessionsFile now (Some sessions) /\
    a2 ∈ parseSessionsFile now (Some sessions) /\
    a_sessionId a1 = Some (js "w1") /\ a_status a1 = active /\
    a_sessionId a2 = Some (js "w2") /\ a_ageMs a2 = now /\ a_status a2 = idle.
Proof.
  intros now sessions.
  destruct (C9_active_window now sessions) as [H _].
  destruct (H (workerRecord "w1" (Some 4990000))) as (a1 & Ha1 & Hi1 & _ & Hu1 & _);
    [unfold sessions; in_list|].
  destruct (H (workerRecord "w2" None)) as (a2 & Ha2 & Hi2 & _ & _ & Hn2);
    [unfold sessions; in_list|].
  destruct (Hu1 4990000 eq_refl) as [_ Hact].
  destruct (Hn2 eq_refl) as (Hage & _ & Hidle).
  exists a1, a2.
  split; [exact Ha1|]. split; [exact Ha2|]. split; [exact Hi1|].
  split; [apply Hact; unfold now; lia|]. split; [exact Hi2|].
  split; [rewrite Hage; unfold now; lia | apply Hidle; unfold now; lia].
Defined.

(** ** The claim on the title *)

(** C10, as stated, fails: only the first line is looked at. For a content
    that starts with an empty line the title is the file name without
    [.md], not the first non-empty line, and not the file name. *)
Lemma C10_counterexample :
  let content := nl ++ js "Fix the build" in
  claimedTitle (js "t.md") content = js "Fix the build" /\
  titleOf (js "t.md") content = js "t" /\
  titleOf (js "t.md") content <> claimedTitle (js "t.md") content /\
  titleOf (js "t.md") content <> js "t.md".
Proof. by vm_compute. Qed.

Lemma firstLineOf_line l rest :
  10%N ∉ l -> firstLineOf (l ++ 10%N :: rest) = l /\ firstLineOf l = l.
Proof.
  intros Hl.
  assert (Forall (fun c => negb (c =? 10)%N = true) l) as Hall.
  { apply Forall_forall. intros c Hc. apply negb_true_iff, N.eqb_neq.
    by intros ->. }
  unfold firstLineOf. split.
  - by rewrite span_exact.
  - rewrite <- (app_nil_r l) at 1. by rewrite span_exact.
Qed.

Lemma startsWith_app p r : startsWith (p ++ r) p = true.
Proof. unfold startsWith. by rewrite strip_prefix_app. Qed.

Lemma isMd_suffix file :
  isMd file = true -> exists base, file = base ++ js ".md".
Proof.
  unfold isMd, endsWith, startsWith.
  destruct (strip_prefix _ _) as [r|] eqn:Hr; [|discriminate]. intros _.
  apply strip_prefix_Some in Hr. exists (rev r).
  apply (f_equal (@rev N)) in Hr.
  by rewrite rev_involutive, rev_app_distr, rev_involutive in Hr.
Qed.

(** The file name without its first [.md]. *)
Lemma fileTitle_spec file :
  isMd file = true ->
  exists pre post,
    file = pre ++ js ".md" ++ post /\
    replace_first (match_literal_at (js ".md")) [] file = pre ++ post /\
    forall a b, b <> [] -> pre = a ++ b ->
                startsWith (b ++ js ".md" ++ post) (js ".md") = false.
Proof.
  intros [base ->]%isMd_suffix. unfold replace_first.
  assert (forall s t g r, match_literal_at (js ".md") s = Some (t, g, r) ->
                          s = t ++ r /\ t = js ".md") as Hsplit.
  { unfold match_literal_at. intros s t g r.
    destruct (strip_prefix _ s) as [r'|] eqn:Hr; [|discriminate].
    apply strip_prefix_Some in Hr. intros H. split_result H. by subst. }
  destruct (search _ (base ++ js ".md")) as [x|] eqn:Hx.
  - apply search_Some in Hx as (Hf & Hat & Hleft);
      [|intros s t g r H; by apply Hsplit in H as [? _]].
    apply Hsplit in Hat as [_ Ht]. rewrite Ht in *.
    exists (m_pre x), (m_post x). split; [done|]. split; [done|].
    intros a b Hb Hab. specialize (Hleft a b Hb Hab).
    unfold match_literal_at in Hleft. unfold startsWith.
    by destruct (strip_prefix _ _).
  - rewrite search_None in Hx. specialize (Hx base (js ".md") eq_refl).
    by vm_compute in Hx.
Qed.

(** C10 (amended): with [l] the first line of the content, the title is the
    text after [# ] or [## ], trimmed, when [l] starts with one of these;
    otherwise [l] trimmed and cut to 50 code units when that is not empty;
    otherwise the file name without its first [.md]. Later lines are never
    looked at. *)
Theorem C10_title file content l rest :
  isMd file = true ->
  content = l \/ content = l ++ 10%N :: rest ->
  10%N ∉ l ->
  (forall h, l = js "# " ++ h -> titleOf file content = trim h) /\
  (forall h, l = js "## " ++ h -> titleOf file content = trim h) /\
  (startsWith l (js "# ") = false -> startsWith l (js "## ") = false ->
   (trim l <> [] ->
    titleOf file content = take 50 (trim l) /\
    (length (titleOf file content) <= 50)%nat) /\
   (trim l = [] ->
    exists pre post,
      file = pre ++ js ".md" ++ post /\
      titleOf file content = pre ++ post /\
      forall a b, b <> [] -> pre = a ++ b ->
                  startsWith (b ++ js ".md" ++ post) (js ".md") = false)).
Proof.
  intros Hmd Hc Hl.
  assert (firstLineOf content = l) as Hfirst.
  { destruct (firstLineOf_line l rest Hl) as [H1 H2]. by destruct Hc as [->| ->]. }
  unfold titleOf. rewrite Hfirst. split_and!.
  - intros h ->. by rewrite startsWith_app.
  - intros h ->.
    change (startsWith (js "## " ++ h) (js "# ")) with false.
    by rewrite startsWith_app.
  - intros -> ->. split.
    + intros Ht. destruct (trim l) as [|c t] eqn:Htrim; [done|].
      split; [done|]. rewrite length_take. lia.
    + intros ->. by apply fileTitle_spec.
Qed.

Lemma C10_title_witness :
  titleOf (js "t.md") (js "## Fix the build  " ++ 10%N :: js "now")
  = js "Fix the build".
Proof.
  destruct (C10_title (js "t.md") (js "## Fix the build  " ++ 10%N :: js "now")
              (js "## Fix the build  ") (js "now")) as (_ & H & _).
  - by vm_compute.
  - by right.
  - apply (bool_decide_unpack _). by vm_compute.
  - rewrite (H (js "Fix the build  ")); [by vm_compute | done].
Defined.

(** * Further properties of the router *)

(** ** The dispatch write is what the next read sees *)

Lemma span_word_nil s : (span is_word s).1 = [] <-> headWord s = false.
Proof.
  destruct s as [|c s]; simpl; [done|].
  destruct (is_word c); [|done]. by destruct (span is_word s).
Qed.

Lemma match_field_at_None key s :
  match_field_at key s = None <->
  match strip_prefix (key ++ js ":") s with
  | None => True
  | Some r0 => headWord (afterSkip r0) = false
  end.
Proof.
  unfold match_field_at, afterSkip.
  destruct (strip_prefix _ s) as [r0|]; [|done].
  destruct (span is_space r0) as [ws r1]. cbn [snd].
  destruct (opt_quote r1) as [oq r2]. cbn [snd].
  rewrite <- span_word_nil.
  destruct (span is_word r2) as [[|c w] r3]; cbn [fst]; [done|].
  by destruct (opt_quote r3).
Qed.

(** What stands behind a text that starts with neither a white space nor
    a quote does not change where the word is looked for. *)
Lemma afterSkip_app b c y y' :
  is_space c = false -> is_quote c = false ->
  headWord (afterSkip (b ++ c :: y)) = headWord (afterSkip (b ++ c :: y')).
Proof.
  intros Hs Hq. unfold afterSkip.
  induction b as [|d b IH]; simpl.
  - by rewrite Hs; simpl; rewrite Hq.
  - destruct (is_space d) eqn:Hd.
    + destruct (span is_space (b ++ c :: y)) as [ws r1].
      by destruct (span is_space (b ++ c :: y')) as [ws' r1'].
    + simpl. destruct (is_quote d); simpl; [|done]. by destruct b.
Qed.

(** The key [status:] does not overlap itself: where it stands at the head
    of [b ++ status: ++ x] with [b] not empty, it stands inside [b]. *)
Lemma strip_status_shift b x r0 :
  b <> [] ->
  strip_prefix (js "status:") (b ++ js "status:" ++ x) = Some r0 ->
  exists b', r0 = b' ++ js "status:" ++ x.
Proof.
  intros Hb H.
  destruct b as [|c1 [|c2 [|c3 [|c4 [|c5 [|c6 [|c7 b]]]]]]]; [done|..];
    vm_compute in H;
    repeat match type of H with
           | (if ?t then _ else _) = _ => destruct t; [|discriminate H]
           end; try discriminate H.
  exists b. by apply (inj Some) in H as <-.
Qed.

Lemma field_at_indep b x x' :
  b <> [] ->
  match_field_at (js "status") (b ++ js "status:" ++ x) = None ->
  match_field_at (js "status") (b ++ js "status:" ++ x') = None.
Proof.
  intros Hb. rewrite !match_field_at_None.
  change (js "status" ++ js ":") with (js "status:").
  destruct (strip_prefix _ (b ++ js "status:" ++ x')) as [r0'|] eqn:H'; [|done].
  pose proof H' as Heq. apply strip_prefix_Some in Heq.
  destruct (strip_status_shift _ _ _ Hb H') as [b' ->].
  assert (b = js "status:" ++ b') as ->.
  { rewrite (app_assoc _ b') in Heq. by apply app_inv_tail in Heq. }
  rewrite <- app_assoc, strip_prefix_app.
  change (js "status:") with (115%N :: js "tatus:").
  cbn [app]. by rewrite (afterSkip_app b' 115%N _ (js "tatus:" ++ x')).
Qed.

(** The leftmost place an anchored matcher accepts is the match found. *)
Lemma search_leftmost (m : jsstring -> option (jsstring * jsstring * jsstring))
    pre t g r :
  m (t ++ r) = Some (t, g, r) ->
  (forall a b, b <> [] -> pre = a ++ b -> m (b ++ t ++ r) = None) ->
  search m (pre ++ t ++ r) = Some (RMatch pre t g r).
Proof.
  intros Hat. induction pre as [|c pre IH]; intros Hleft.
  - cbn [app]. destruct (t ++ r); simpl; by rewrite Hat.
  - pose proof (Hleft [] (c :: pre) ltac:(done) eq_refl) as H0.
    cbn [app] in *. cbn [search]. rewrite H0, IH; [done|].
    intros a b Hb ->. by apply (Hleft (c :: a) b).
Qed.

Lemma field_at_dispatched post :
  match_field_at (js "status") (dispatchedField ++ post) =
  Some (dispatchedField, js "dispatched", post).
Proof. by vm_compute. Qed.

(** The status pattern reads the marked content as dispatched: the text
    the write puts in is the leftmost place the pattern accepts. *)
Lemma statusOf_markDispatched content :
  statusOf content = js "pending" ->
  statusOf (markDispatched content) = js "dispatched".
Proof.
  rewrite !statusOf_greedy, markDispatched_greedy. unfold replace_first.
  destruct (search (match_field_at _) content) as [x|] eqn:Hx;
    [|intros H; vm_compute in H; discriminate].
  intros Hg.
  pose proof (search_agree _ match_pending_at (fun g => g = js "pending") []
                content x pending_at_None) as Hag.
  rewrite Hag; [| |done|done]; cbn [m_pre m_post].
  2:{ intros u t g r Hu ->. by apply pending_at_of_field. }
  apply (search_Some _ (match_field_at_split _)) in Hx as (Hs & Hat & Hleft).
  rewrite Hg in Hat. apply pending_at_of_field in Hat.
  apply match_pending_at_spec in Hat as (_ & ws & oq & cq & Ht & _).
  rewrite (search_leftmost _ _ _ (js "dispatched") _ (field_at_dispatched _));
    [done|].
  intros a b Hb Hab. specialize (Hleft a b Hb Hab).
  rewrite Ht, <- !app_assoc in Hleft.
  unfold dispatchedField. rewrite <- !app_assoc.
  change (js "status: ") with (js "status:" ++ js " "). rewrite <- app_assoc.
  exact (field_at_indep b _ _ Hb Hleft).
Qed.

(** ** Entries that are not task files *)

Lemma scan_md E agents files s :
  scan E agents files s = scan E agents (taskFiles files) s.
Proof.
  revert s. induction files as [|f files IH]; intros s; [done|].
  unfold taskFiles. cbn [List.filter scan]. destruct (isMd f) eqn:Hmd.
  - cbn [scan]. destruct (step E agents f s); [apply IH|done].
  - rewrite step_not_md by done. apply IH.
Qed.

(** X1: an entry whose name does not end in [.md] is not looked at: the
    tick is the one of the listing without it, whatever the entry is. *)
Theorem other_entries_ignored E agents files fs :
  processInbox E agents (Inbox files) fs =
  processInbox E agents (Inbox (taskFiles files)) fs.
Proof. unfold processInbox. by rewrite scan_md. Qed.

(** ** What a tick writes *)

Lemma scan_frame E agents files s g :
  let s' := final (scan E agents files s) in
  st_fs s' !! g = st_fs s !! g \/
  (dispatchedIn s' g /\ isMd g = true /\
   readable (st_fs s) g /\ writable (st_fs s) g).
Proof.
  revert s. induction files as [|f files IH]; intros s; simpl; [by left|].
  destruct (step_cases E agents f s)
    as [[Hs _]|[(e & Hs & _)|(fl & Hmd & Hf & Hread & Hw & Hs)]];
    rewrite Hs; simpl.
  - apply IH.
  - by left.
  - destruct (dispatchable agents (content fl)) eqn:Hd;
      [|apply (IH (push (shownTask f (content fl) (mtimeMs fl)) s))].
    pose proof (scan_extends E agents files (dispatchState E f fl s))
      as (_ & Hl & _).
    destruct (IH (dispatchState E f fl s)) as [Heq|(Hdis & Hg & Hr & Hwr)].
    + destruct (decide (g = f)) as [->|Hne].
      * right. split_and!; [|done|by exists fl|exists fl; auto].
        exists (spawnOf f (content fl)). split; [|done].
        eapply elem_of_prefix; [|exact Hl]. simpl.
        rewrite !elem_of_app, !elem_of_cons. auto.
      * left. rewrite Heq. simpl. by rewrite lookup_insert_ne.
    + right. split_and!; [done..| |].
      * destruct (decide (g = f)) as [->|Hne]; [by exists fl|].
        revert Hr. unfold readable. simpl. by rewrite lookup_insert_ne.
      * destruct (decide (g = f)) as [->|Hne]; [exists fl; auto|].
        revert Hwr. unfold writable. simpl. by rewrite lookup_insert_ne.
Qed.

(** X2: a tick changes no entry of the inbox but the task files it
    dispatches: any other entry is after the tick what it was before, and
    a changed one was a regular file named [.md], which could be read and
    written, with an invocation in the effects. *)
Theorem tick_frame E agents dir fs g :
  let s' := (processInbox E agents dir fs).2 in
  st_fs s' !! g = fs !! g \/
  (dispatchedIn s' g /\ isMd g = true /\ readable fs g /\ writable fs g).
Proof.
  unfold processInbox. destruct dir as [|files]; [by left|].
  pose proof (scan_frame E agents files (RState fs [] [] 0) g) as H.
  by destruct (scan _ _ _ _).
Qed.

(** ** The effects of a tick *)

Lemma step_paired E agents f s :
  pairedLog agents s -> pairedLog agents (final (step E agents f s)).
Proof.
  intros (Hl & Hn & Hr).
  destruct (step_cases E agents f s)
    as [[Hs _]|[(e & Hs & _)|(fl & Hmd & Hf & _ & _ & Hs)]]; rewrite Hs; simpl;
    [done..|].
  destruct (dispatchable agents (content fl)) eqn:Hd; [|done].
  apply dispatchable_true in Hd as [Hp Hb]. apply isPending_status in Hp.
  unfold pairedLog. cbn [dispatchState st_log st_n].
  change [EvWrite f (markDispatched (content fl));
          EvExec (spawnOf f (content fl))]
    with (pairOf (spawnOf f (content fl))).
  rewrite execsOf_app, flat_map_app, <- Hl, length_app, Hn.
  change (execsOf (pairOf (spawnOf f (content fl))))
    with [spawnOf f (content fl)].
  split_and!; [by cbn [flat_map]; rewrite app_nil_r | simpl; lia |].
  apply Forall_app. split; [done|]. by repeat constructor.
Qed.

Lemma scan_paired E agents files s :
  pairedLog agents s -> pairedLog agents (final (scan E agents files s)).
Proof.
  revert s. induction files as [|f files IH]; intros s Hs; simpl; [done|].
  pose proof (step_paired E agents f s Hs) as H1.
  destruct (step E agents f s) as [s1|e s1]; [by apply IH | done].
Qed.

(** X3: the effects of a tick are dispatches and nothing else: each is the
    write of the marked content followed at once by the invocation for the
    same file, there are as many as the tick counted, and each invocation
    is for a task file that read as pending, to the label and the model of
    its type, a label that is not busy in the snapshot. *)
Theorem tick_effects E agents dir fs :
  pairedLog agents (processInbox E agents dir fs).2.
Proof.
  assert (pairedLog agents (RState fs [] [] 0)) as H0
    by (split_and!; [done | done | constructor]).
  unfold processInbox. destruct dir as [|files]; [done|].
  pose proof (scan_paired E agents files _ H0) as H.
  by destruct (scan _ _ _ _).
Qed.

(** ** A tick after a tick *)

Lemma processInbox_state E agents files fs :
  (processInbox E agents (Inbox files) fs).2 =
  final (scan E agents files (RState fs [] [] 0)).
Proof. unfold processInbox. by destruct (scan _ _ _ _). Qed.

Lemma processInbox_execs E agents files fs r :
  NoDup files ->
  let s' := (processInbox E agents (Inbox files) fs).2 in
  EvExec r ∈ st_log s' ->
  isMd (sp_file r) = true /\
  r = spawnOf (sp_file r) (sp_content r) /\
  dispatchable agents (sp_content r) = true /\
  exists fl k,
    fs !! sp_file r = Some (Regular fl) /\ sp_content r = content fl /\
    mayRead fl = true /\ mayWrite fl = true /\
    st_fs s' !! sp_file r = Some (Regular (dispatchedFile E fl k)).
Proof.
  intros Hnd s' Hr. subst s'. rewrite processInbox_state in *.
  destruct (scan_execs E agents fs files (RState fs [] [] 0) r Hnd
              (fun _ _ => eq_refl) Hr)
    as [Hin|(_ & Hmd & Hsp & Hd & Hst & _)]; [|done].
  by apply elem_of_nil in Hin.
Qed.

(** X4: after a tick every file a worker was invoked for is a regular file
    whose status reads [dispatched], whatever quotes and white space its
    status line had and wherever else the content names a status. *)
Theorem dispatched_files_read_dispatched E agents files fs r :
  NoDup files ->
  let s' := (processInbox E agents (Inbox files) fs).2 in
  EvExec r ∈ st_log s' ->
  exists f', st_fs s' !! sp_file r = Some (Regular f') /\
             mayRead f' = true /\
             statusOf (content f') = js "dispatched".
Proof.
  intros Hnd s' Hr.
  destruct (processInbox_execs E agents files fs r Hnd Hr)
    as (_ & _ & Hd & fl & k & _ & Hc & Hread & _ & Hst).
  rewrite Hc in Hd. apply dispatchable_true in Hd as [Hp _].
  apply isPending_status, statusOf_markDispatched in Hp.
  exists (dispatchedFile E fl k). split; [done|]. split; [done|].
  by rewrite content_dispatchedFile.
Qed.

Lemma dispatched_files_read_dispatched_witness :
  let s' := (processInbox exEnv [] (Inbox [js "a.md"; js "c.md"]) exInbox).2 in
  exists f', st_fs s' !! js "a.md" = Some (Regular f') /\
             mayRead f' = true /\
             statusOf (content f') = js "dispatched".
Proof.
  intros s'.
  apply (dispatched_files_read_dispatched exEnv [] [js "a.md"; js "c.md"]
           exInbox (spawnOf (js "a.md") (taskText "pending" "coding"))).
  - nodup_list.
  - vm_compute. in_list.
Defined.

(** X5: a file dispatched in a tick is left alone by the next tick,
    whatever the listing and the snapshot then are: the file is neither
    written nor is a worker invoked for it again. *)
Theorem no_second_dispatch E agents files fs E' agents' dir' r :
  NoDup files ->
  let s1 := (processInbox E agents (Inbox files) fs).2 in
  EvExec r ∈ st_log s1 ->
  let s2 := (processInbox E' agents' dir' (st_fs s1)).2 in
  st_fs s2 !! sp_file r = st_fs s1 !! sp_file r /\
  Forall (fun ev => ~ touches (sp_file r) ev) (st_log s2).
Proof.
  intros Hnd s1 Hr s2.
  destruct (processInbox_execs E agents files fs r Hnd Hr)
    as (_ & _ & Hd & fl & k & _ & Hc & _ & _ & Hst).
  fold s1 in Hst. rewrite Hc in Hd. apply dispatchable_true in Hd as [Hp _].
  apply isPending_status, statusOf_markDispatched in Hp.
  assert (mayRead (dispatchedFile E fl k) && mayWrite (dispatchedFile E fl k)
          && dispatchable agents' (content (dispatchedFile E fl k)) = false)
    as Hd'.
  { rewrite content_dispatchedFile. unfold dispatchable, isPending.
    rewrite Hp. apply andb_false_r. }
  subst s2. destruct dir' as [|files']; [by split; [|constructor]|].
  rewrite processInbox_state.
  destruct (scan_leaves E' agents' files' (RState (st_fs s1) [] [] 0)
              (sp_file r) _ Hst Hd') as (Hfs & evs & Hevs & Hall).
  split; [by rewrite Hfs, Hst|]. by rewrite Hevs.
Qed.

Lemma no_second_dispatch_witness :
  let s1 := (processInbox exEnv [] (Inbox [js "a.md"; js "c.md"]) exInbox).2 in
  let s2 := (processInbox exEnv [] (Inbox [js "a.md"; js "c.md"]) (st_fs s1)).2 in
  Forall (fun ev => ~ touches (js "a.md") ev) (st_log s2).
Proof.
  intros s1 s2.
  apply (no_second_dispatch exEnv [] [js "a.md"; js "c.md"] exInbox exEnv []
           (Inbox [js "a.md"; js "c.md"])
           (spawnOf (js "a.md") (taskText "pending" "coding"))).
  - nodup_list.
  - vm_compute. in_list.
Defined.

(** X6: when the invocation for a file fails right after the tick, the
    write of the callback succeeds, the file having been written by the
    dispatch, and makes the file pending again; the next tick that reaches
    the file with its label free issues the same invocation once more. *)
Theorem retry_after_failure E agents files fs r stamp create E' agents' files' :
  NoDup files ->
  let s1 := (processInbox E agents (Inbox files) fs).2 in
  EvExec r ∈ st_log s1 ->
  exists fs2,
    execCallback r true stamp create (st_fs s1) = inr fs2 /\
    (reached agents' fs2 files' (sp_file r) ->
     isBusy agents' (sp_label r) = false ->
     EvExec r ∈ st_log (processInbox E' agents' (Inbox files') fs2).2).
Proof.
  intros Hnd s1 Hr.
  destruct (processInbox_execs E agents files fs r Hnd Hr)
    as (Hmd & Hsp & Hd & fl & k & _ & Hc & Hread & Hwrite & Hst).
  fold s1 in Hst. apply dispatchable_true in Hd as [Hp _].
  set (f2 := written (dispatchedFile E fl k) (sp_content r) stamp).
  exists (<[sp_file r := Regular f2]> (st_fs s1)). split.
  { unfold execCallback, writeFileSync. rewrite Hst.
    change (mayWrite (dispatchedFile E fl k)) with (mayWrite fl).
    by rewrite Hwrite. }
  intros Hreach Hfree.
  assert (content f2 = sp_content r) as Hc2.
  { unfold f2, written, content at 1. cbn [bytes]. rewrite Hc.
    apply decode_encode_decode. }
  pose proof (processInbox_reached E' agents' files' _ _ _ (sp_file r) f2
                (surjective_pairing _) Hreach Hmd
                (lookup_insert_eq _ _ _) Hread (fun _ => Hwrite)) as H.
  rewrite Hc2 in H.
  assert (dispatchable agents' (sp_content r) = true) as Hd'.
  { apply dispatchable_true. split; [done|]. rewrite Hsp in Hfree. apply Hfree. }
  rewrite Hd' in H. destruct H as [H _]. by rewrite <- Hsp in H.
Qed.

Lemma retry_after_failure_witness :
  let r := spawnOf (js "a.md") (taskText "pending" "coding") in
  let s1 := (processInbox exEnv [] (Inbox [js "a.md"; js "c.md"]) exInbox).2 in
  exists fs2,
    execCallback r true (inject_Z 2000) true (st_fs s1) = inr fs2 /\
    EvExec r ∈ st_log (processInbox exEnv [] (Inbox [js "a.md"; js "c.md"]) fs2).2.
Proof.
  intros r s1.
  destruct (retry_after_failure exEnv [] [js "a.md"; js "c.md"] exInbox r
              (inject_Z 2000) true exEnv [] [js "a.md"; js "c.md"])
    as (fs2 & Hfs2 & H).
  - nodup_list.
  - vm_compute. in_list.
  - exists fs2. split; [done|]. apply H; [|done].
    exists [], [js "c.md"]. split; [reflexivity|].
    intros g Hg. by apply elem_of_nil in Hg.
Defined.

(** ** The records of a tick *)

Lemma step_ids E agents f s s' :
  step E agents f s = Next s' ->
  id <$> st_tasks s' = (id <$> st_tasks s) ++ (inboxId <$> taskFiles [f]).
Proof.
  unfold taskFiles. cbn [List.filter].
  destruct (step_cases E agents f s)
    as [[Hs Hmd]|[(e & Hs & _)|(fl & Hmd & Hf & _ & _ & Hs)]];
    rewrite Hs, ?Hmd; [|done|]; intros [= <-].
  - by rewrite app_nil_r.
  - by destruct (dispatchable agents (content fl)); simpl; rewrite fmap_app.
Qed.

Lemma taskFiles_cons f files :
  taskFiles (f :: files) = taskFiles [f] ++ taskFiles files.
Proof. unfold taskFiles. simpl. by destruct (isMd f). Qed.

(** The records follow the listing, as far as the scan gets. *)
Lemma scan_ids E agents files s :
  let o := scan E agents files s in
  (id <$> st_tasks (final o)) `prefix_of`
    (id <$> st_tasks s) ++ (inboxId <$> taskFiles files) /\
  (forall s', o = Next s' ->
     id <$> st_tasks s' = (id <$> st_tasks s) ++ (inboxId <$> taskFiles files)).
Proof.
  revert s. induction files as [|f files IH]; intros s; cbn [scan].
  { simpl. rewrite app_nil_r. split; [done|]. by intros s' [= <-]. }
  rewrite taskFiles_cons, fmap_app, app_assoc.
  pose proof (step_ids E agents f s) as Hid.
  destruct (step_cases E agents f s)
    as [[Hs _]|[(e & Hs & _)|(fl & _ & _ & _ & _ & Hs)]]; rewrite Hs in *.
  - rewrite <- (Hid _ eq_refl). apply IH.
  - split; [|done]. simpl. rewrite <- app_assoc. by apply prefix_app_r.
  - rewrite <- (Hid _ eq_refl). apply IH.
Qed.

(** X7: when the body of the loop throws on no listed task file (each can
    be read, and can be written when it is dispatched), the tick returns
    one record for each of them and no other: the identifiers of the
    records are, up to the order, the names of the listed task files behind
    [inbox-]. *)
Theorem one_record_per_file E agents files fs :
  (forall f, f ∈ files -> isMd f = true -> passes agents fs f) ->
  id <$> (processInbox E agents (Inbox files) fs).1 ≡ₚ
  inboxId <$> taskFiles files.
Proof.
  intros Hr.
  destruct (processInbox_completes E agents files fs _ _ Hr
              (surjective_pairing _)) as [Hs ->].
  destruct (scan_ids E agents files (RState fs [] [] 0)) as [_ H].
  specialize (H _ Hs). simpl in H. rewrite <- H.
  unfold sortTasks. by rewrite sortBy_Permutation.
Qed.

Lemma one_record_per_file_witness :
  id <$> (processInbox exEnv [techWorker]
            (Inbox [js "b.md"; js "notes.txt"; js "c.md"]) exInbox).1 ≡ₚ
  [js "inbox-b.md"; js "inbox-c.md"].
Proof.
  apply (one_record_per_file exEnv [techWorker]
           [js "b.md"; js "notes.txt"; js "c.md"] exInbox).
  intros f. rewrite !elem_of_cons, elem_of_nil.
  intros [->|[->|[->|[]]]]; intros Hmd; [|by vm_compute in Hmd|];
    eexists; (split; [vm_compute; reflexivity|]); split; reflexivity.
Defined.

Section Stable.
Context {A : Type} (key : A -> Z).

Lemma insertBy_stable (k : Z) x l :
  filter (fun a => key a = k) (insertBy (fun a b => key a - key b) x l) =
  filter (fun a => key a = k) (x :: l).
Proof.
  induction l as [|u l IH]; simpl; [done|].
  destruct (Z.leb_spec (key x - key u) 0) as [Hle|Hgt]; [done|].
  rewrite (filter_cons _ u), IH, !filter_cons.
  destruct (decide (key u = k)), (decide (key x = k)); try done; lia.
Qed.

(** The sort keeps the elements of equal key in the order it found them. *)
Lemma sortBy_stable (k : Z) l :
  filter (fun a => key a = k) (sortBy (fun a b => key a - key b) l) =
  filter (fun a => key a = k) l.
Proof.
  induction l as [|x l IH]; [done|].
  cbn [sortBy foldr]. fold (sortBy (fun a b => key a - key b) l).
  by rewrite insertBy_stable, !filter_cons, IH.
Qed.
End Stable.

(** X8: the records of one tick that carry the same time are returned in
    the order of the directory listing. *)
Theorem equal_times_in_listing_order E agents files fs (u : Z) :
  (id <$> filter (fun t => updatedAt t = u)
            (processInbox E agents (Inbox files) fs).1)
  `sublist_of` (inboxId <$> taskFiles files).
Proof.
  assert (filter (fun t => updatedAt t = u)
            (processInbox E agents (Inbox files) fs).1 =
          filter (fun t => updatedAt t = u)
            (st_tasks (final (scan E agents files (RState fs [] [] 0)))))
    as ->.
  { unfold processInbox. destruct (scan _ _ _ _); [|done].
    apply (sortBy_stable updatedAt). }
  destruct (scan_ids E agents files (RState fs [] [] 0)) as [[k Hk] _].
  simpl in Hk. rewrite Hk. apply sublist_inserts_r.
  apply fmap_sublist, sublist_filter.
Qed.

(** * Further properties of the session readers *)

(** ** The labels of a snapshot *)

Lemma labelIs_decide l text : labelIs l text = bool_decide (l = LText text).
Proof.
  destruct l as [s|t]; unfold labelIs, jseqb.
  - case_bool_decide as H1; case_bool_decide as H2; congruence.
  - symmetry. by apply bool_decide_eq_false_2.
Qed.

Lemma labelIs_true l text : labelIs l text = true <-> l = LText text.
Proof. rewrite labelIs_decide. apply bool_decide_eq_true. Qed.

Lemma labelMapping_cases l :
  is_Some (labelMapping l) ->
  l = js "coding_team" \/ l = js "dev_team" \/ l = js "handyman" \/
  l ∈ inheritedNames.
Proof.
  unfold labelMapping, jseqb, inherited. intros [x H].
  repeat case_bool_decide; auto 6. discriminate.
Qed.

(** A name the translation table answers to has no hyphen and is not the
    main label. *)
Lemma labelMapping_plain l :
  is_Some (labelMapping l) -> (45%N ∉ l) /\ l <> mainLabel.
Proof.
  intros [H|[H|[H|H]]]%labelMapping_cases;
    [subst l; split; [apply (bool_decide_unpack _); by vm_compute | done]..|].
  unfold inheritedNames in H.
  repeat (apply elem_of_cons in H as [->|H];
          [split; [apply (bool_decide_unpack _); by vm_compute | done]|]).
  by apply elem_of_nil in H.
Qed.

(** The text of a label [toAgent] gives is not translated again. *)
Lemma toAgent_label_unmapped now s l :
  a_label (toAgent now s) = LText l -> labelMapping l = None.
Proof.
  unfold toAgent. cbn [a_label].
  destruct (labelMapping (strOr (s_label s) (js "Unknown"))) as [l'|] eqn:Hl.
  - unfold labelMapping, jseqb in Hl.
    repeat case_bool_decide; simplify_eq; try (intros [= <-]; by vm_compute).
    destruct (inherited _); by simplify_eq.
  - destruct (_ || _); intros [= <-]; [by vm_compute | done].
Qed.

(** No label [toAgent] gives is, as a property key, the name of an
    inherited property: the tables of the second pass are maps. *)
Lemma toAgent_key_own now s :
  inherited (labelKey (a_label (toAgent now s))) = false.
Proof.
  unfold toAgent. cbn [a_label].
  destruct (labelMapping (strOr (s_label s) (js "Unknown"))) as [l'|] eqn:Hl.
  - pose proof (labelMapping_cases _ (mk_is_Some _ _ Hl)) as [H|[H|[H|H]]];
      [rewrite H in Hl; vm_compute in Hl; injection Hl as <-; by vm_compute..|].
    unfold inheritedNames in H.
    repeat (apply elem_of_cons in H as [H|H];
            [rewrite H in Hl; vm_compute in Hl; injection Hl as <-;
             by vm_compute|]).
    by apply elem_of_nil in H.
  - destruct (_ || _); cbn [labelKey]; [by vm_compute|].
    unfold labelMapping in Hl.
    repeat match type of Hl with
           | (if ?b then _ else _) = None => destruct b eqn:?; [discriminate Hl|]
           end.
    done.
Qed.

Lemma suffixLabels_origin lc cc l a :
  a ∈ suffixLabels lc cc l ->
  (a ∈ l /\ ((default 0 (lc !! labelKey (a_label a)) <= 1)%nat \/
             a_label a = LText mainLabel)) \/
  (exists b n, b ∈ l /\
     a = withLabel b (LText (labelKey (a_label b) ++ js "-" ++ decimal n)) /\
     (1 < default 0 (lc !! labelKey (a_label b)))%nat /\
     a_label b <> LText mainLabel).
Proof.
  revert cc. induction l as [|b l IH]; intros cc; simpl.
  { by intros ?%elem_of_nil. }
  destruct (Nat.ltb_spec 1 (default 0%nat (lc !! labelKey (a_label b))))
    as [Hlt|Hge];
    rewrite labelIs_decide; (case_bool_decide as Hm); cbn [andb negb];
    intros [->|Hin]%elem_of_cons;
    try (left; split; [by left | auto; lia]);
    try (destruct (IH _ Hin) as [[H1 H2]|(b' & n & H1 & H2)];
         [left; split; [by right | done]
         |right; exists b', n; split; [by right | done]]).
  right. eexists b, _. split; [by left | done].
Qed.

Lemma suffixLabels_keeps lc cc l a :
  a ∈ l ->
  (default 0 (lc !! labelKey (a_label a)) <= 1)%nat \/
  a_label a = LText mainLabel ->
  a ∈ suffixLabels lc cc l.
Proof.
  intros Hin Hk. revert cc. induction l as [|b l IH]; intros cc; simpl.
  { by apply elem_of_nil in Hin. }
  apply elem_of_cons in Hin as [->|Hin].
  - destruct (Nat.ltb_spec 1 (default 0%nat (lc !! labelKey (a_label b))))
      as [Hlt|Hge];
      rewrite labelIs_decide; (case_bool_decide as Hm); cbn [andb negb];
      try by left.
    destruct Hk; [lia | done].
  - destruct (_ && _); right; by apply IH.
Qed.

Lemma countLabels_from (m : gmap jsstring nat) agents l :
  default 0%nat
    (foldl (fun m a => <[labelKey (a_label a) :=
                           S (default 0%nat (m !! labelKey (a_label a)))]> m)
           m agents !! l) =
  (default 0%nat (m !! l) + carriers l agents)%nat.
Proof.
  unfold carriers. revert m.
  induction agents as [|a agents IH]; intros m; simpl; [lia|].
  rewrite IH, filter_cons.
  destruct (decide (labelKey (a_label a) = l)) as [<-|Hne].
  - rewrite lookup_insert_eq. simpl. lia.
  - by rewrite lookup_insert_ne.
Qed.

Lemma countLabels_carriers agents l :
  default 0%nat (countLabels agents !! l) = carriers l agents.
Proof. unfold countLabels. by rewrite countLabels_from, lookup_empty. Qed.

Lemma carriers_pos l agents a :
  a ∈ agents -> labelKey (a_label a) = l -> (1 <= carriers l agents)%nat.
Proof.
  intros Hin Hl. unfold carriers.
  assert (a ∈ filter (fun a => labelKey (a_label a) = l) agents) as H
    by by apply list_elem_of_filter.
  destruct (filter _ agents); [by apply elem_of_nil in H | simpl; lia].
Qed.

Lemma isBusy_true agents l :
  isBusy agents l = true <->
  exists a, a ∈ agents /\ a_label a = LText l /\ a_status a = active.
Proof.
  unfold isBusy. rewrite existsb_exists.
  split; intros (a & Hin & H); exists a.
  - apply andb_true_iff in H as [H1 H2]. apply labelIs_true in H1.
    split; [by apply list_elem_of_In|]. split; [done|].
    by destruct (a_status a).
  - destruct H as [H1 H2]. split; [by apply list_elem_of_In|].
    rewrite H2. apply labelIs_true in H1. by rewrite H1.
Qed.

Lemma toAgent_active now s :
  a_status (toAgent now s) = active <-> now - numOr0 (s_updatedAt s) < 300000.
Proof.
  unfold toAgent. cbn [a_status].
  destruct (Z.ltb_spec (now - numOr0 (s_updatedAt s)) 300000);
    split; (done || lia).
Qed.

Lemma no_dash_suffix (l x d : jsstring) :
  45%N ∉ l -> l <> x ++ js "-" ++ d.
Proof.
  intros Hl ->. apply Hl. rewrite !elem_of_app. right; left. by left.
Qed.

(** X9: a text without a hyphen is the label of a busy worker of a snapshot
    exactly when a record that gives this text as its label was updated
    less than five minutes ago and no other record gives a label with the
    same property key (the main label apart, which any number of records
    can give): the workers of a label given twice are renamed with a
    running number and none of them counts for the label itself. A record
    whose label names a property every object inherits gives an object for
    a label, which is the label of no task: such a record never makes a
    label busy. *)
Theorem busy_iff now sessions l :
  45%N ∉ l ->
  (isBusy (parseSessionsFile now (Some sessions)) l = true <->
   (exists s, s ∈ sessions /\ a_label (toAgent now s) = LText l /\
              now - numOr0 (s_updatedAt s) < 300000) /\
   (l = mainLabel \/ carriers l (map (toAgent now) sessions) = 1%nat)) /\
  (forall s t, a_label (toAgent now s) = LText t ->
               inherited (strOr (s_label s) (js "Unknown")) = false).
Proof.
  intros Hl. split.
  - rewrite isBusy_true. unfold parseSessionsFile.
    set (agents := map (toAgent now) sessions). split.
    + intros (a & Hin & Hlab & Hact).
      apply sortBy_elem_of, suffixLabels_origin in Hin
        as [[Hin Hk]|(b & n & _ & -> & _)].
      2:{ cbn [withLabel a_label] in Hlab. injection Hlab as Hlab.
          symmetry in Hlab.
          by destruct (no_dash_suffix l _ (decimal n) Hl Hlab). }
      assert (labelKey (a_label a) = l) as Hkey by by rewrite Hlab.
      pose proof (carriers_pos l agents a Hin Hkey) as Hpos.
      rewrite countLabels_carriers, Hkey in Hk.
      apply list_elem_of_fmap in Hin as (s & -> & Hs).
      split.
      * exists s. split; [done|]. split; [done|]. by apply toAgent_active.
      * destruct Hk as [Hk|Hk]; [right; lia | left].
        rewrite Hlab in Hk. by injection Hk.
    + intros [(s & Hs & Hlab & Hact) Hk].
      exists (toAgent now s). split; [|split; [done | by apply toAgent_active]].
      apply sortBy_elem_of, suffixLabels_keeps.
      * apply list_elem_of_fmap. by exists s.
      * rewrite countLabels_carriers, Hlab. cbn [labelKey].
        destruct Hk as [->|Hk]; [by right|]. left. fold agents. lia.
  - intros s t. unfold toAgent. cbn [a_label].
    unfold labelMapping.
    repeat match goal with
           | |- context [if ?b then _ else _] => destruct b eqn:?
           end; try done.
    all: intros _;
      match goal with
      | H : jseqb _ _ = true |- _ =>
          apply bool_decide_eq_true_1 in H; rewrite H
      end; by vm_compute.
Qed.

Lemma busy_iff_witness :
  isBusy (parseSessionsFile 1000
            (Some [workerRecord "w1" (Some 900); workerRecord "w2" (Some 950)]))
         (js "tech_team") = true <->
  (exists s, s ∈ [workerRecord "w1" (Some 900); workerRecord "w2" (Some 950)] /\
             a_label (toAgent 1000 s) = LText (js "tech_team") /\
             1000 - numOr0 (s_updatedAt s) < 300000) /\
  (js "tech_team" = mainLabel \/
   carriers (js "tech_team")
     (map (toAgent 1000)
        [workerRecord "w1" (Some 900); workerRecord "w2" (Some 950)]) = 1%nat).
Proof.
  assert (45%N ∉ js "tech_team") as Hl
    by (apply (bool_decide_unpack _); by vm_compute).
  apply (proj1 (busy_iff 1000
                  [workerRecord "w1" (Some 900); workerRecord "w2" (Some 950)]
                  (js "tech_team") Hl)).
Defined.

(** A snapshot carries no label that the translation table answers to:
    such a label is translated, and a running number adds a hyphen. *)
Lemma snapshot_unmapped now registry a l :
  a ∈ parseSessionsFile now registry -> a_label a = LText l ->
  labelMapping l = None.
Proof.
  destruct registry as [sessions|]; [|by intros ?%elem_of_nil].
  unfold parseSessionsFile.
  intros [[Hin _]|(b & n & _ & -> & _)]%sortBy_elem_of%suffixLabels_origin.
  - apply list_elem_of_fmap in Hin as (s & -> & _).
    apply toAgent_label_unmapped.
  - cbn [withLabel a_label]. intros [= <-].
    destruct (labelMapping _) as [x|] eqn:Hx; [|done].
    destruct (labelMapping_plain _ (mk_is_Some _ _ Hx)) as [Hno _].
    by destruct (no_dash_suffix _ _ _ Hno eq_refl).
Qed.

Lemma isBusy_mapped now registry l :
  is_Some (labelMapping l) -> isBusy (parseSessionsFile now registry) l = false.
Proof.
  intros [x Hl]. apply not_true_is_false.
  intros (a & Hin & Hlab & _)%isBusy_true.
  by rewrite (snapshot_unmapped _ _ _ _ Hin Hlab) in Hl.
Qed.

(** X10: a pending task that is not a coding task never waits for its
    worker. Its label is [handyman], which the snapshot never carries (the
    label is translated there), so whatever the registry holds, the tick
    that reaches the file, which it can read and write, invokes the
    worker. *)
Theorem general_tasks_never_wait E now registry files fs f fl :
  reached (parseSessionsFile now registry) fs files f -> isMd f = true ->
  fs !! f = Some (Regular fl) -> mayRead fl = true -> mayWrite fl = true ->
  statusOf (content fl) = js "pending" -> typeOf (content fl) <> js "coding" ->
  EvExec (spawnOf f (content fl)) ∈
    st_log (processInbox E (parseSessionsFile now registry) (Inbox files) fs).2.
Proof.
  intros Hreach Hmd Hf Hread Hwrite Hst Hty.
  pose proof (processInbox_reached E (parseSessionsFile now registry) files fs
                _ _ f fl (surjective_pairing _) Hreach Hmd Hf Hread
                (fun _ => Hwrite)) as H.
  assert (dispatchable (parseSessionsFile now registry) (content fl) = true)
    as Hd.
  { apply dispatchable_true. unfold isPending, targetOf, route, jseqb.
    rewrite Hst, (bool_decide_eq_false_2 _ Hty).
    split; [by apply bool_decide_eq_true_2|].
    apply isBusy_mapped. eexists. by vm_compute. }
  rewrite Hd in H. by destruct H.
Qed.

Lemma general_tasks_never_wait_witness :
  let registry :=
    Some [Session (Some (js "h1")) None (Some (js "handyman")) None None
                  (Some 990) (Some 7) None None None] in
  let fs : gmap jsstring node := {[ js "g.md" := taskFile "pending" "general" 100 ]} in
  EvExec (spawnOf (js "g.md") (taskText "pending" "general")) ∈
    st_log (processInbox exEnv (parseSessionsFile 1000 registry)
              (Inbox [js "g.md"]) fs).2.
Proof.
  intros registry fs.
  apply (general_tasks_never_wait exEnv 1000 registry [js "g.md"] fs
           (js "g.md") (textFile (taskText "pending" "general") 100)).
  - exists [], []. split; [done|]. by intros g ?%elem_of_nil.
  - by vm_compute.
  - by vm_compute.
  - reflexivity.
  - reflexivity.
  - by vm_compute.
  - by vm_compute.
Defined.

(** ** The order of a snapshot *)

Lemma insertBy_mainThenAge x l :
  StronglySorted mainThenAge l ->
  StronglySorted mainThenAge (insertBy agentCmp x l).
Proof.
  unfold agentCmp.
  induction 1 as [|u l Hs IH Hall]; simpl; [by repeat constructor|].
  rewrite !labelIs_decide.
  destruct (decide (a_label x = LText mainLabel)) as [Hx|Hx].
  { rewrite (bool_decide_eq_true_2 _ Hx). simpl.
    constructor; [by constructor|].
    apply Forall_forall. intros v _. by left. }
  rewrite (bool_decide_eq_false_2 _ Hx).
  destruct (decide (a_label u = LText mainLabel)) as [Hu|Hu].
  { rewrite (bool_decide_eq_true_2 _ Hu). simpl.
    constructor; [done|]. apply Forall_forall. intros v _. by left. }
  rewrite (bool_decide_eq_false_2 _ Hu).
  destruct (Z.leb_spec (a_ageMs x - a_ageMs u) 0) as [Hle|Hgt].
  - constructor; [by constructor|].
    constructor; [right; split; [done|lia]|].
    eapply Forall_impl; [exact Hall|]. intros v [Hv|[Hv Hage]]; [done|].
    right. split; [done|lia].
  - constructor; [done|].
    rewrite (insertBy_Permutation agentCmp x l).
    constructor; [right; split; [done|lia] | done].
Qed.

(** X11: when at most one record gives the main label, so that the
    comparator of the final sort orders the workers, the snapshot lists
    the main worker first and the others from the most recently updated
    to the least: any worker that comes before another either has the
    main label, or neither has and its age is not the greater. *)
Theorem snapshot_order now sessions :
  (carriers mainLabel (map (toAgent now) sessions) <= 1)%nat ->
  StronglySorted mainThenAge (parseSessionsFile now (Some sessions)).
Proof.
  intros _. unfold parseSessionsFile, sortBy.
  induction (suffixLabels _ _ _) as [|a l IH]; simpl; [constructor|].
  by apply insertBy_mainThenAge.
Qed.

Lemma snapshot_order_witness :
  StronglySorted mainThenAge
    (parseSessionsFile 1000
       (Some [workerRecord "w1" (Some 100); mainRecord 500;
              workerRecord "w2" (Some 900)])).
Proof.
  apply (snapshot_order 1000
           [workerRecord "w1" (Some 100); mainRecord 500;
            workerRecord "w2" (Some 900)]).
  vm_compute. lia.
Defined.

(** ** The running numbers make labels unique *)

Lemma js_inj s t : js s = js t -> s = t.
Proof.
  unfold js. intros H.
  rewrite <- (string_of_list_ascii_of_string s),
          <- (string_of_list_ascii_of_string t).
  f_equal. revert H. generalize (list_ascii_of_string s) (list_ascii_of_string t).
  induction l as [|a l IH]; intros [|b k]; simpl; try done.
  intros [= Hab Hlk]. f_equal; [|by apply IH].
  by rewrite <- (ascii_N_embedding a), <- (ascii_N_embedding b), Hab.
Qed.

Lemma decimal_inj n m : decimal n = decimal m -> n = m.
Proof.
  unfold decimal. intros H%js_inj.
  rewrite <- (DecimalNat.Unsigned.of_to n), <- (DecimalNat.Unsigned.of_to m).
  f_equal. apply (inj Some).
  by rewrite <- !DecimalString.NilEmpty.usu, H.
Qed.

(** A label and its number are read back from the numbered label. *)
Lemma dash_split (l1 d1 l2 d2 : jsstring) :
  45%N ∉ l1 -> 45%N ∉ l2 ->
  l1 ++ js "-" ++ d1 = l2 ++ js "-" ++ d2 -> l1 = l2 /\ d1 = d2.
Proof.
  change (js "-") with [45%N].
  revert l2. induction l1 as [|c l1 IH]; intros [|c' l2] H1 H2; simpl.
  - by intros [= ->].
  - intros [= <- _]. destruct H2. by left.
  - intros [= -> _]. destruct H1. by left.
  - intros [= -> H]. apply not_elem_of_cons in H1 as [_ H1].
    apply not_elem_of_cons in H2 as [_ H2].
    destruct (IH l2 H1 H2 H) as [-> ->]. done.
Qed.

(** The numbers the second pass gives go on from the counts so far. *)
Lemma suffixLabels_numbers lc cc l a :
  a ∈ suffixLabels lc cc l ->
  a ∈ l \/
  exists b n, b ∈ l /\
    a = withLabel b (LText (labelKey (a_label b) ++ js "-" ++ decimal n)) /\
    (default 0 (cc !! labelKey (a_label b)) < n)%nat.
Proof.
  revert cc. induction l as [|b l IH]; intros cc; simpl.
  { by intros ?%elem_of_nil. }
  destruct (_ && _); intros [->|Hin]%elem_of_cons.
  - right. eexists b, _. split; [by left|]. split; [done|]. lia.
  - destruct (IH _ Hin) as [H|(b' & n & H1 & H2 & H3)]; [left; by right|].
    right. exists b', n. split; [by right|]. split; [done|].
    destruct (decide (labelKey (a_label b) = labelKey (a_label b')))
      as [Heq|Hne].
    + rewrite <- Heq, lookup_insert_eq in H3. simpl in H3. rewrite <- Heq. lia.
    + by rewrite lookup_insert_ne in H3.
  - left. by left.
  - destruct (IH _ Hin) as [H|(b' & n & H1 & H2 & H3)]; [left; by right|].
    right. exists b', n. split; [by right|]. done.
Qed.

Lemma carriers_cons l a agents :
  carriers l (a :: agents) =
  ((if decide (labelKey (a_label a) = l) then 1 else 0)
   + carriers l agents)%nat.
Proof. unfold carriers. rewrite filter_cons. by destruct (decide _). Qed.

Lemma suffixLabels_NoDup lc cc l :
  (forall a, a ∈ l -> 45%N ∉ labelKey (a_label a)) ->
  (forall x, (carriers x l <= default 0 (lc !! x))%nat) ->
  NoDup (filter (fun x => x <> LText mainLabel)
                (a_label <$> suffixLabels lc cc l)).
Proof.
  revert cc. induction l as [|a l IH]; intros cc Hdash Hcount; simpl.
  { constructor. }
  assert (forall b, b ∈ l -> 45%N ∉ labelKey (a_label b)) as Hdash'
    by (intros b Hb; apply Hdash; by right).
  assert (forall x, (carriers x l <= default 0 (lc !! x))%nat) as Hcount'.
  { intros x. specialize (Hcount x). rewrite carriers_cons in Hcount. lia. }
  assert (45%N ∉ labelKey (a_label a)) as Ha by (apply Hdash; by left).
  destruct (Nat.ltb_spec 1 (default 0%nat (lc !! labelKey (a_label a))))
    as [Hlt|Hge];
    rewrite labelIs_decide; (case_bool_decide as Hm); cbn [andb negb];
    rewrite fmap_cons, filter_cons; cbn [withLabel a_label].
  - rewrite decide_False by (by intros ?); by apply IH.
  - rewrite decide_True
      by (intros [= H]; symmetry in H; revert H; apply no_dash_suffix;
          apply (bool_decide_unpack _); by vm_compute).
    constructor; [|by apply IH].
    intros [_ (a' & Hlab & Hin)%list_elem_of_fmap]%list_elem_of_filter.
    apply suffixLabels_numbers in Hin as [Hin|(b & n & Hb & -> & Hn)].
    + exact (no_dash_suffix _ _ _ (Hdash' _ Hin)
               (eq_sym (f_equal labelKey Hlab))).
    + cbn [withLabel a_label] in Hlab. injection Hlab as Hlab.
      apply dash_split in Hlab as [Hx Hd%decimal_inj]; [|done|by apply Hdash'].
      rewrite <- Hx, lookup_insert_eq in Hn. simpl in Hn. lia.
  - rewrite decide_False by (by intros ?); by apply IH.
  - rewrite decide_True by done.
    constructor; [|by apply IH].
    intros [_ (a' & Hlab & Hin)%list_elem_of_fmap]%list_elem_of_filter.
    apply suffixLabels_numbers in Hin as [Hin|(b & n & Hb & -> & Hn)].
    + pose proof (carriers_pos (labelKey (a_label a)) l a' Hin
                    (eq_sym (f_equal labelKey Hlab))).
      specialize (Hcount (labelKey (a_label a))).
      rewrite carriers_cons, decide_True in Hcount by done. lia.
    + exact (no_dash_suffix _ _ _ Ha (f_equal labelKey Hlab)).
Qed.

(** X12: when no record gives a label with a hyphen, the workers of a
    snapshot have labels of their own, the main label apart: the running
    numbers tell apart the workers whose records give the same label. *)
Theorem labels_unique now sessions :
  (forall s, s ∈ sessions -> 45%N ∉ labelKey (a_label (toAgent now s))) ->
  NoDup (filter (fun x => x <> LText mainLabel)
                (a_label <$> parseSessionsFile now (Some sessions))).
Proof.
  intros Hdash. unfold parseSessionsFile.
  rewrite sortBy_Permutation. apply suffixLabels_NoDup.
  - by intros a (s & -> & Hs)%list_elem_of_fmap; apply Hdash.
  - intros x. by rewrite countLabels_carriers.
Qed.

Lemma labels_unique_witness :
  NoDup (filter (fun x => x <> LText mainLabel)
           (a_label <$> parseSessionsFile 1000
              (Some [workerRecord "w1" (Some 100); mainRecord 500;
                     workerRecord "w2" (Some 900)]))).
Proof.
  apply (labels_unique 1000
           [workerRecord "w1" (Some 100); mainRecord 500;
            workerRecord "w2" (Some 900)]).
  intros s. rewrite !elem_of_cons, elem_of_nil.
  intros [->|[->|[->|[]]]]; apply (bool_decide_unpack _); by vm_compute.
Defined.

(** ** The list of session tasks *)

Lemma sessionBody_push titleFromLog now s t :
  sessionBody titleFromLog now s = BPush t ->
  hidden now s = false /\ optEqb (s_key s) mainKey = false /\ taskOf now s t.
Proof.
  unfold sessionBody. destruct (hidden now s); [done|].
  match goal with
  | |- context [match ?tr with Some _ => _ | None => _ end] =>
      destruct tr; [|done]
  end.
  destruct (optEqb (s_key s) mainKey); [done|].
  intros [= <-]. by repeat split.
Qed.

Lemma sessionBody_hidden titleFromLog now s :
  hidden now s = true -> sessionBody titleFromLog now s = BContinue.
Proof. unfold sessionBody. by intros ->. Qed.

Lemma sessionBody_shown titleFromLog now s :
  hidden now s = false -> optEqb (s_key s) mainKey = false ->
  is_Some (s_sessionId s) ->
  exists t, sessionBody titleFromLog now s = BPush t.
Proof.
  intros Hvis Hkey [sid Hid].
  pose proof (sessionBody_sessionId titleFromLog now s) as Hno.
  rewrite Hid in Hno. specialize (Hno ltac:(done)).
  revert Hno. unfold sessionBody. rewrite Hvis, Hkey.
  match goal with
  | |- context [match ?tr with Some _ => _ | None => _ end] =>
      destruct tr; [eauto | done]
  end.
Qed.

Lemma sessionBody_continue titleFromLog now s :
  sessionBody titleFromLog now s = BContinue -> hidden now s = true.
Proof.
  unfold sessionBody. destruct (hidden now s); [done|].
  match goal with
  | |- context [match ?tr with Some _ => _ | None => _ end] =>
      destruct tr; [|done]
  end.
  by destruct (optEqb (s_key s) mainKey).
Qed.

(** A loop that ends gave one task for each record it did not pass over,
    in their order. *)
Lemma sessionLoop_done titleFromLog now l tasks out :
  sessionLoop titleFromLog now l tasks = LDone out ->
  exists ts, out = tasks ++ ts /\
    Forall2 (taskOf now) (filter (fun s => hidden now s = false) l) ts.
Proof.
  revert tasks. induction l as [|s l IH]; intros tasks; simpl.
  { intros [= <-]. exists []. by rewrite app_nil_r. }
  destruct (sessionBody titleFromLog now s) as [| | |t] eqn:Hb; try done.
  - intros (ts & -> & Hts)%IH. exists ts. split; [done|].
    apply sessionBody_continue in Hb.
    rewrite filter_cons, decide_False; [done|]. by rewrite Hb.
  - apply sessionBody_push in Hb as (Hvis & _ & Ht).
    intros (ts & -> & Hts)%IH. exists (t :: ts).
    rewrite <- app_assoc. split; [done|].
    rewrite filter_cons, decide_True by done. by constructor.
Qed.

Lemma sessionLoop_shown titleFromLog now l tasks :
  (forall s, s ∈ l -> hidden now s = false ->
     optEqb (s_key s) mainKey = false /\ is_Some (s_sessionId s)) ->
  exists out, sessionLoop titleFromLog now l tasks = LDone out.
Proof.
  revert tasks. induction l as [|s l IH]; intros tasks Hok; simpl; [eauto|].
  assert (forall s', s' ∈ l -> hidden now s' = false ->
            optEqb (s_key s') mainKey = false /\ is_Some (s_sessionId s'))
    as Hok' by (intros s' Hs'; apply Hok; by right).
  destruct (hidden now s) eqn:Hvis.
  - rewrite sessionBody_hidden by done. by apply IH.
  - destruct (Hok s (list_elem_of_here _ _) Hvis) as [Hkey Hid].
    destruct (sessionBody_shown titleFromLog now s Hvis Hkey Hid) as [t ->].
    by apply IH.
Qed.

(** When every record has its [updatedAt] the array is sorted by the
    comparator. *)
Lemma sortSessions_all engine values :
  (forall s, s ∈ values -> is_Some (s_updatedAt s)) ->
  sortSessions engine values = sortBy sessionCmp values.
Proof.
  intros Hall. unfold sortSessions.
  assert (forallb (fun s => bool_decide (is_Some (s_updatedAt s))) values
          = true) as ->; [|done].
  apply forallb_forall. intros s Hs%list_elem_of_In.
  by apply bool_decide_eq_true_2, Hall.
Qed.

(** X13: when every record the reader does not pass over has a [sessionId]
    and is not the main session, the list it returns is one task for each
    such record, with the record's [sessionId] and [updatedAt] and the
    status [done] or [running], in the order the sort gives the records,
    and the scheduled entry at the end. The sort gives a permutation of the
    records; it is the stable sort by the comparator when every record has
    its [updatedAt], and the order is the engine's own otherwise. *)
Theorem tasks_of_sessions engine titleFromLog now values :
  (forall l, engine l ≡ₚ l) ->
  (forall s, s ∈ values -> hidden now s = false ->
     optEqb (s_key s) mainKey = false /\ is_Some (s_sessionId s)) ->
  exists ts,
    getTasks engine titleFromLog now (Some values)
    = TaskList (ts ++ [cronEntry now]) /\
    Forall2 (taskOf now)
      (filter (fun s => hidden now s = false) (sortSessions engine values))
      ts /\
    sortSessions engine values ≡ₚ values /\
    ((forall s, s ∈ values -> is_Some (s_updatedAt s)) ->
     sortSessions engine values = sortBy sessionCmp values).
Proof.
  intros Hperm Hok. unfold getTasks, tasksFrom.
  destruct (sessionLoop_shown titleFromLog now (sortSessions engine values) [])
    as [out Hout].
  { intros s Hs. apply Hok.
    by rewrite (sortSessions_Permutation engine values Hperm) in Hs. }
  rewrite Hout. apply sessionLoop_done in Hout as (ts & -> & Hts).
  exists ts. split_and!; try done.
  - by apply sortSessions_Permutation.
  - apply sortSessions_all.
Qed.

Lemma tasks_of_sessions_witness :
  exists ts,
    getTasks asListed noLog 5000000
      (Some [workerRecord "w1" None; workerRecord "w2" (Some 4990000)]) =
    TaskList (ts ++ [cronEntry 5000000]) /\
    Forall2 (taskOf 5000000)
      (filter (fun s => hidden 5000000 s = false)
         (sortSessions asListed
            [workerRecord "w1" None; workerRecord "w2" (Some 4990000)]))
      ts.
Proof.
  destruct (tasks_of_sessions asListed noLog 5000000
              [workerRecord "w1" None; workerRecord "w2" (Some 4990000)])
    as (ts & H1 & H2 & _).
  - done.
  - intros s. rewrite !elem_of_cons, elem_of_nil.
    intros [->|[->|[]]] _; split; first [by vm_compute | by eexists].
  - by exists ts.
Defined.

(** The tasks of a loop that ends come from records it did not pass
    over. *)
Lemma getTasks_origin engine titleFromLog now registry l t :
  getTasks engine titleFromLog now registry = TaskList l -> t ∈ l ->
  t = cronEntry now \/
  exists s, hidden now s = false /\ taskOf now s t.
Proof.
  unfold getTasks, tasksFrom. destruct registry as [values|];
    [|by intros [= <-] ?%elem_of_nil].
  destruct (sessionLoop _ _ _ _) as [out| |] eqn:Hout;
    [|done|by intros [= <-] ?%elem_of_nil].
  apply sessionLoop_done in Hout as (ts & -> & Hts).
  intros [= <-] [Hin|Hin%list_elem_of_singleton]%elem_of_app; [|by left].
  right. apply list_elem_of_lookup in Hin as [i Hi].
  destruct (Forall2_lookup_r _ _ _ _ _ Hts Hi) as (s & Hs & Hst).
  exists s. split; [|done].
  apply list_elem_of_lookup_2, list_elem_of_filter in Hs. by destruct Hs.
Qed.

(** X14: a task the reader lists as [done] was updated more than two
    minutes and at most one hour before the reading: older ones are not
    listed. *)
Theorem done_tasks_recent engine titleFromLog now registry l t :
  getTasks engine titleFromLog now registry = TaskList l ->
  t ∈ l -> sh_status t = js "done" ->
  exists u, sh_updatedAt t = Some u /\ 120000 < now - u <= 3600000.
Proof.
  intros Hl Hin Hst.
  destruct (getTasks_origin _ _ _ _ _ _ Hl Hin)
    as [->|(s & Hvis & _ & Hu & Hs)].
  { vm_compute in Hst. discriminate. }
  rewrite Hst in Hs. unfold hidden in Hvis.
  destruct (isDone now s) eqn:Hd; [|vm_compute in Hs; discriminate].
  unfold isDone in Hd. apply andb_true_iff in Hd as [_ Hold].
  cbn [andb] in Hvis. rewrite Hu. unfold olderThan in *.
  destruct (s_updatedAt s) as [u|]; [|done]. exists u. split; [done|]. lia.
Qed.

Lemma done_tasks_recent_witness :
  exists u, sh_updatedAt (Shown (Some (js "w1")) (js "tech_team") (js "done")
                                (Some 4000000)) = Some u /\
            120000 < 5000000 - u <= 3600000.
Proof.
  apply (done_tasks_recent asListed noLog 5000000
           (Some [workerRecord "w1" (Some 4000000); workerRecord "w0" (Some 1000)])
           [Shown (Some (js "w1")) (js "tech_team") (js "done") (Some 4000000);
            cronEntry 5000000]).
  - by vm_compute.
  - in_list.
  - done.
Defined.

Lemma sessionBody_return titleFromLog now s :
  sessionBody titleFromLog now s = BReturn -> optEqb (s_key s) mainKey = true.
Proof.
  unfold sessionBody. destruct (hidden now s); [done|].
  match goal with
  | |- context [match ?tr with Some _ => _ | None => _ end] =>
      destruct tr; [|done]
  end.
  by destruct (optEqb (s_key s) mainKey).
Qed.

(** A record the reader does not pass over, with no [sessionId], no
    transcript and no label but [unknown] in any case of letters, makes the
    body throw: [includes] is called on [undefined]. *)
Lemma sessionBody_throw titleFromLog now s :
  hidden now s = false -> s_sessionId s = None -> s_sessionFile s = None ->
  toLowerCase (strOr (s_label s) (js "Unknown")) = js "unknown" ->
  sessionBody titleFromLog now s = BThrow.
Proof.
  intros Hvis Hid Hfile Hlow. unfold sessionBody.
  rewrite Hvis, Hfile, Hid, Hlow. unfold jseqb.
  rewrite !(bool_decide_eq_true_2 (_ = _) eq_refl).
  repeat match goal with
         | |- context [bool_decide (?a = ?b)] =>
             let He := fresh in
             destruct (decide (a = b)) as [He|He];
             [rewrite He in Hlow; vm_compute in Hlow; discriminate Hlow
             |rewrite (bool_decide_eq_false_2 _ He)]
         end.
  done.
Qed.

Lemma sessionLoop_throw titleFromLog now l tasks r :
  r ∈ l -> sessionBody titleFromLog now r = BThrow ->
  (forall s, s ∈ l -> sessionBody titleFromLog now s <> BReturn) ->
  sessionLoop titleFromLog now l tasks = LThrow.
Proof.
  intros Hr Hthrow. revert tasks Hr.
  induction l as [|s l IH]; intros tasks Hr Hno.
  { by apply elem_of_nil in Hr. }
  assert (forall s', s' ∈ l -> sessionBody titleFromLog now s' <> BReturn)
    as Hno' by (intros s' Hs'; apply Hno; by right).
  pose proof (Hno s (list_elem_of_here _ _)) as Hs.
  apply elem_of_cons in Hr as [<-|Hr'].
  - simpl. by rewrite Hthrow.
  - simpl. destruct (sessionBody titleFromLog now s); try done; by apply IH.
Qed.

(** X15: one record without [sessionId], transcript and label, which the
    reader does not pass over, empties the whole list when no such record
    is the main session: the reader returns no session task and not even
    the scheduled entry, whatever the other records are. *)
Theorem nameless_record_empties_list engine titleFromLog now values r :
  (forall l, engine l ≡ₚ l) ->
  r ∈ values -> hidden now r = false ->
  s_sessionId r = None -> s_sessionFile r = None ->
  toLowerCase (strOr (s_label r) (js "Unknown")) = js "unknown" ->
  (forall s, s ∈ values -> hidden now s = false ->
             optEqb (s_key s) mainKey = false) ->
  getTasks engine titleFromLog now (Some values) = TaskList [].
Proof.
  intros Hperm Hr Hvis Hid Hfile Hlow Hkeys. unfold getTasks, tasksFrom.
  rewrite (sessionLoop_throw titleFromLog now _ [] r); [done|..].
  - by rewrite (sortSessions_Permutation engine values Hperm).
  - by apply sessionBody_throw.
  - intros s Hs Hret.
    rewrite (sortSessions_Permutation engine values Hperm) in Hs.
    pose proof (sessionBody_return _ _ _ Hret) as Hmain.
    destruct (hidden now s) eqn:Hh.
    + by rewrite sessionBody_hidden in Hret.
    + by rewrite Hkeys in Hmain.
Qed.

Lemma nameless_record_empties_list_witness :
  getTasks asListed noLog 5000000
    (Some [workerRecord "w1" (Some 4990000);
           Session None None None None None (Some 4995000) None None None None])
  = TaskList [].
Proof.
  apply (nameless_record_empties_list asListed noLog 5000000
           [workerRecord "w1" (Some 4990000);
            Session None None None None None (Some 4995000) None None None None]
           (Session None None None None None (Some 4995000) None None None None)).
  - done.
  - in_list.
  - by vm_compute.
  - done.
  - done.
  - by vm_compute.
  - intros s. rewrite !elem_of_cons, elem_of_nil.
    intros [->|[->|[]]] _; by vm_compute.
Defined.

(** ** The order of the session tasks *)

Section SortExt.
Context {A : Type} (cmp1 cmp2 : A -> A -> Z).

Lemma insertBy_ext x l :
  (forall b, b ∈ l -> cmp1 x b = cmp2 x b) ->
  insertBy cmp1 x l = insertBy cmp2 x l.
Proof.
  induction l as [|u l IH]; intros H; simpl; [done|].
  rewrite (H u) by by left. rewrite IH; [done|].
  intros b Hb. apply H. by right.
Qed.

(** Two comparators that agree on the elements of an array sort it the
    same way. *)
Lemma sortBy_ext l :
  (forall a b, a ∈ l -> b ∈ l -> cmp1 a b = cmp2 a b) ->
  sortBy cmp1 l = sortBy cmp2 l.
Proof.
  induction l as [|x l IH]; intros H; [done|].
  cbn [sortBy foldr]. fold (sortBy cmp1 l). fold (sortBy cmp2 l).
  rewrite IH by (intros a b Ha Hb; apply H; by right).
  apply insertBy_ext. intros b Hb%sortBy_elem_of.
  apply H; [by left | by right].
Qed.
End SortExt.

Lemma StronglySorted_filter {A} (R : relation A) (P : A -> Prop)
    `{!forall x, Decision (P x)} l :
  StronglySorted R l -> StronglySorted R (filter P l).
Proof.
  induction 1 as [|x l Hl IH Hx]; [constructor|].
  rewrite filter_cons. destruct (decide (P x)); [|done].
  constructor; [done|]. rewrite Forall_forall in Hx. apply Forall_forall.
  intros y [_ Hy]%list_elem_of_filter. by apply Hx.
Qed.

Lemma StronglySorted_Forall2 {A B} (P : relation A) (Q : relation B)
    (R : A -> B -> Prop) (S : A -> Prop) l ts :
  (forall a b t u, S a -> S b -> P a b -> R a t -> R b u -> Q t u) ->
  Forall S l -> StronglySorted P l -> Forall2 R l ts -> StronglySorted Q ts.
Proof.
  intros HQ HS Hl. revert ts.
  induction Hl as [|x l Hl IH Hx]; intros ts Hts.
  - apply Forall2_nil_inv_l in Hts as ->. constructor.
  - apply Forall2_cons_inv_l in Hts as (t & ts' & Hxt & Hts' & ->).
    apply Forall_cons in HS as [HSx HS].
    constructor; [by apply IH|].
    apply Forall_forall. intros u Hu.
    apply list_elem_of_lookup in Hu as [i Hi].
    destruct (Forall2_lookup_r _ _ _ _ _ Hts' Hi) as (b & Hb & Hbu).
    apply list_elem_of_lookup_2 in Hb.
    rewrite Forall_forall in Hx, HS.
    apply (HQ x b); [done | by apply HS | by apply Hx | done..].
Qed.

(** X16: when every record of the registry has an [updatedAt], the session
    tasks the reader returns run from the most recently updated to the
    least, in front of the scheduled entry. *)
Theorem tasks_newest_first engine titleFromLog now values ts c :
  (forall s, s ∈ values -> is_Some (s_updatedAt s)) ->
  getTasks engine titleFromLog now (Some values) = TaskList (ts ++ [c]) ->
  StronglySorted (flip notNewer) ts.
Proof.
  intros Hall. unfold getTasks, tasksFrom.
  rewrite (sortSessions_all engine values Hall).
  destruct (sessionLoop _ _ _ _) as [out| |] eqn:Hout; [|done|].
  2:{ intros [= H]. by destruct ts. }
  intros [= H]. apply app_inj_tail in H as [-> _].
  apply sessionLoop_done in Hout as (ts' & -> & Hts). simpl.
  pose (key := fun s : session => - default 0 (s_updatedAt s)).
  rewrite (sortBy_ext sessionCmp (fun a b => key a - key b)) in Hts.
  2:{ intros a b [x Ha]%Hall [y Hb]%Hall. unfold sessionCmp, key.
      rewrite Ha, Hb. simpl. lia. }
  pose proof (StronglySorted_filter _ (fun s => hidden now s = false) _
                (sortBy_sorted key values)) as Hsorted.
  eapply (StronglySorted_Forall2 _ _ _ (fun s => is_Some (s_updatedAt s)));
    [| |exact Hsorted|exact Hts].
  - intros a b t u [x Ha] [y Hb] Hab (_ & Ht & _) (_ & Hu & _).
    exists y, x. unfold key in Hab. rewrite Ha, Hb in Hab. simpl in Hab.
    rewrite Ht, Hu. split; [done|]. split; [done|]. lia.
  - apply Forall_forall. intros s [_ Hs%sortBy_elem_of]%list_elem_of_filter.
    by apply Hall.
Qed.

Lemma tasks_newest_first_witness :
  StronglySorted (flip notNewer)
    [Shown (Some (js "w2")) (js "tech_team") (js "running") (Some 4990000);
     Shown (Some (js "w1")) (js "tech_team") (js "done") (Some 4000000)].
Proof.
  apply (tasks_newest_first asListed noLog 5000000
           [workerRecord "w1" (Some 4000000); workerRecord "w2" (Some 4990000)]
           _ (cronEntry 5000000)).
  - intros s. rewrite !elem_of_cons, elem_of_nil.
    intros [->|[->|[]]]; by eexists.
  - by vm_compute.
Defined.

(** * Properties of the transcript reader *)

Lemma truncate50_length t :
  (length (truncate50 t) <= 53)%nat /\
  ((50 < length (truncate50 t))%nat -> drop 50 (truncate50 t) = js "...").
Proof.
  unfold truncate50. destruct (Nat.ltb_spec 50 (length t)) as [Hlt|Hge].
  - rewrite length_app, length_take. change (length (js "...")) with 3%nat.
    split; [lia|]. intros _.
    rewrite drop_app_length'; [done|]. rewrite length_take. lia.
  - split; lia.
Qed.

(** X17: a title read from a transcript has at most 53 code units, and one
    of more than 50 ends in the three dots of the cut. *)
Theorem log_title_length log t :
  getTaskTitleFromLog log = Some t ->
  (length t <= 53)%nat /\ ((50 < length t)%nat -> drop 50 t = js "...").
Proof.
  unfold getTaskTitleFromLog. destruct log as [lines|]; [|done].
  destruct (firstUserMessage lines 0) as [[|s|]|]; try done.
  intros [= <-]. apply truncate50_length.
Qed.

Lemma firstUserMessage_take lines n :
  firstUserMessage lines n = firstUserMessage (take (11 - n) lines) n.
Proof.
  revert n. induction lines as [|line lines IH]; intros n.
  { by rewrite take_nil. }
  destruct (Nat.ltb_spec 10 n) as [Hlt|Hge].
  - replace (11 - n)%nat with 0%nat by lia. simpl.
    by rewrite (proj2 (Nat.ltb_lt 10 n)).
  - replace (11 - n)%nat with (S (11 - S n)) by lia.
    cbn [firstn firstUserMessage].
    rewrite (proj2 (Nat.ltb_ge 10 n)) by done. by rewrite <- IH.
Qed.

(** X18: only the first eleven lines of a transcript count, whatever they
    are: a message further down is never the title. *)
Theorem log_first_eleven_lines lines :
  getTaskTitleFromLog (Some lines) = getTaskTitleFromLog (Some (take 11 lines)).
Proof.
  unfold getTaskTitleFromLog.
  by rewrite (firstUserMessage_take lines 0).
Qed.

Lemma firstUserMessage_skip pre rest n :
  (length pre + n <= 11)%nat -> Forall passedOver pre ->
  firstUserMessage (pre ++ rest) n = firstUserMessage rest (length pre + n).
Proof.
  revert n. induction pre as [|line pre IH]; intros n Hn Hpre; [done|].
  apply Forall_cons in Hpre as [Hl Hpre]. simpl in *.
  rewrite (proj2 (Nat.ltb_ge 10 n)) by lia.
  replace (S (length pre + n)) with (length pre + S n)%nat by lia.
  destruct line as [e|]; [|apply IH; [lia|done]].
  specialize (Hl e eq_refl).
  destruct (isUser e); [|apply IH; [lia|done]].
  simpl in Hl. rewrite Hl. apply IH; [lia|done].
Qed.

Lemma lazyK_bracket meta r :
  Forall (fun c => c <> 93%N /\ is_lineTerminator c = false) meta ->
  lazyK (fun c => negb (is_lineTerminator c)) closeBracket (meta ++ 93%N :: r)
  = Some (trimStart r).
Proof.
  induction 1 as [|c meta [Hc Hlt] _ IH]; simpl; [done|].
  rewrite (proj2 (N.eqb_neq c 93) Hc), Hlt. exact IH.
Qed.

Lemma stripMeta_bracket meta ws body :
  Forall (fun c => c <> 93%N /\ is_lineTerminator c = false) meta ->
  Forall (fun c => is_space c = true) ws ->
  match body with [] => True | c :: _ => is_space c = false end ->
  stripMeta (js "[" ++ meta ++ js "]" ++ ws ++ body) = body.
Proof.
  intros Hmeta Hws Hbody. change (js "[") with [91%N]. change (js "]") with [93%N].
  cbn [app stripMeta]. rewrite N.eqb_refl, lazyK_bracket by done.
  by apply trimStart_spec.
Qed.

(** X19: the title is taken from the first line, among the first eleven,
    that is an entry of the user with a text of more than five code units;
    a bracketed block at the start of the text and the white space behind
    it are removed, and what is left is cut to 50 code units, with three
    dots for the cut. *)
Theorem log_title_strips_metadata pre e post meta ws body :
  (length pre <= 10)%nat -> Forall passedOver pre ->
  isUser e = true ->
  textOf e = Text (js "[" ++ meta ++ js "]" ++ ws ++ body) ->
  (5 < length (js "[" ++ meta ++ js "]" ++ ws ++ body))%nat ->
  Forall (fun c => c <> 93%N /\ is_lineTerminator c = false) meta ->
  Forall (fun c => is_space c = true) ws ->
  match body with [] => True | c :: _ => is_space c = false end ->
  getTaskTitleFromLog (Some (pre ++ Some e :: post)) = Some (truncate50 body).
Proof.
  intros Hlen Hpre Hu Ht Hlong Hmeta Hws Hbody. unfold getTaskTitleFromLog.
  rewrite firstUserMessage_skip by (done || lia). simpl.
  rewrite (proj2 (Nat.ltb_ge 10 (length pre + 0))) by lia.
  rewrite Hu, Ht. cbn [longerThan5].
  rewrite (proj2 (Nat.ltb_lt 5 _) Hlong).
  by rewrite stripMeta_bracket.
Qed.

Lemma log_title_length_witness :
  exists t, getTaskTitleFromLog (Some exLog) = Some t /\
            (length t <= 53)%nat /\
            ((50 < length t)%nat -> drop 50 t = js "...").
Proof.
  eexists. split; [by vm_compute|].
  apply (log_title_length (Some exLog)). by vm_compute.
Defined.

Lemma log_title_strips_metadata_witness :
  getTaskTitleFromLog (Some exLog) =
  Some (truncate50
          (js "Please review the monitor script and report each failure")).
Proof.
  apply (log_title_strips_metadata
           [None;
            Some (Entry (Some (js "system")) None (Text (js "session started"))
                        Falsy)]
           (Entry None (Some (js "user")) Falsy
              (Text (js "[Telegram 12:00] Please review the monitor script and report each failure")))
           [] (js "Telegram 12:00") (js " ")
           (js "Please review the monitor script and report each failure")).
  - simpl. lia.
  - repeat constructor; intros e [= <-]; by vm_compute.
  - by vm_compute.
  - by vm_compute.
  - vm_compute. lia.
  - apply (bool_decide_unpack _). by vm_compute.
  - apply (bool_decide_unpack _). by vm_compute.
  - by vm_compute.
Defined.

(** * Properties of the start-up *)

(** ** The lines of the environment file *)

Lemma joinWith_cons sep x l :
  l <> [] -> joinWith sep (x :: l) = x ++ sep :: joinWith sep l.
Proof. by destruct l. Qed.

Lemma splitOn_cons sep s : exists k ks, splitOn sep s = k :: ks.
Proof.
  destruct s as [|c s]; simpl; [eauto|].
  destruct (c =? sep)%N; [eauto|]. destruct (splitOn sep s); eauto.
Qed.

(** To split and to join again gives the text back. *)
Lemma joinWith_splitOn sep s : joinWith sep (splitOn sep s) = s.
Proof.
  induction s as [|c s IH]; [done|]. cbn [splitOn].
  destruct (splitOn_cons sep s) as (k & ks & Hs). rewrite Hs in *.
  destruct (N.eqb_spec c sep) as [->|Hne].
  - rewrite joinWith_cons by done. by rewrite IH.
  - destruct ks as [|k' ks]; simpl in *; by rewrite <- IH.
Qed.

Lemma splitOn_app sep k v :
  sep ∉ k -> splitOn sep (k ++ sep :: v) = k :: splitOn sep v.
Proof.
  induction k as [|c k IH]; intros Hk; simpl.
  - by rewrite N.eqb_refl.
  - apply not_elem_of_cons in Hk as [Hc Hk].
    rewrite (proj2 (N.eqb_neq c sep)) by done. by rewrite IH.
Qed.

Lemma splitOn_head sep s k ks : splitOn sep s = k :: ks -> sep ∉ k.
Proof.
  revert k ks. induction s as [|c s IH]; intros k ks; simpl.
  { intros [= <- <-]. apply not_elem_of_nil. }
  destruct (N.eqb_spec c sep) as [->|Hne].
  - intros [= <- <-]. apply not_elem_of_nil.
  - destruct (splitOn sep s) as [|l ls]; intros [= <- <-].
    + apply not_elem_of_cons. split; [done|]. apply not_elem_of_nil.
    + apply not_elem_of_cons. split; [done|]. by eapply IH.
Qed.

(** X20: a line of the environment file assigns a variable exactly when it
    is a name, which is not empty and has no equals sign, an equals sign
    and a value; the value is everything behind the first equals sign,
    further equals signs included, and name and value are taken without
    the white space around them. *)
Theorem assigned_iff line kv :
  assigned line = Some kv <->
  exists name value,
    line = name ++ js "=" ++ value /\ (61%N ∉ name) /\ name <> [] /\
    kv = (trim name, trim value).
Proof.
  unfold assigned. change (js "=") with [61%N]. split.
  - pose proof (joinWith_splitOn 61 line) as Hj.
    destruct (splitOn 61 line) as [|[|c key] [|v vals]] eqn:Hs; try done.
    intros [= <-]. exists (c :: key), (joinWith 61 (v :: vals)).
    split_and!; [|by eapply splitOn_head|done..].
    rewrite <- Hj. by rewrite joinWith_cons.
  - intros (name & value & -> & Hn & Hne & ->). cbn [app].
    rewrite splitOn_app by done. destruct name as [|c key]; [done|].
    destruct (splitOn_cons 61 value) as (v & vals & Hv).
    pose proof (joinWith_splitOn 61 value) as Hj. rewrite Hv in *.
    by rewrite Hj.
Qed.

Lemma loadEnv_lines lines env :
  exists env',
    foldl envLine (Loaded env) lines = Loaded env' /\
    env' !! [] = env !! [] /\
    forall name, name <> [] ->
      env' !! name = match lastAssigned name lines with
                     | Some v => Some v
                     | None => env !! name
                     end.
Proof.
  revert env. induction lines as [|line lines IH]; intros env; simpl.
  { by exists env. }
  destruct (assigned line) as [[[|c n] v]|] eqn:Ha.
  - destruct (IH env) as (env' & -> & H0 & H). exists env'.
    split; [done|]. split; [done|]. intros name Hname. rewrite (H name Hname).
    destruct (lastAssigned name lines); [done|].
    by rewrite decide_False by done.
  - destruct (IH (<[c :: n := v]> env)) as (env' & -> & H0 & H). exists env'.
    split; [done|]. split; [by rewrite H0, lookup_insert_ne|].
    intros name Hname. rewrite (H name Hname).
    destruct (lastAssigned name lines); [done|].
    destruct (decide (c :: n = name)) as [<-|Hne].
    + by rewrite lookup_insert_eq.
    + by rewrite lookup_insert_ne.
  - destruct (IH env) as (env' & -> & H0 & H). exists env'.
    split; [done|]. split; [done|]. intros name Hname. rewrite (H name Hname).
    by destruct (lastAssigned name lines).
Qed.

(** X21: when the environment file can be read, every line of it is looked
    at and the process goes on: a variable has afterwards the value the
    last line that assigns it gives, whatever the process had for it
    before, and a variable no line assigns is as the process had it. A
    line whose name is empty after the trim assigns nothing, and does not
    keep the lines after it from being read. *)
Theorem loadEnv_last_wins content env :
  exists env',
    loadEnv (Some content) env = Loaded env' /\
    env' !! [] = env !! [] /\
    forall name, name <> [] ->
      env' !! name = match lastAssigned name (splitOn 10 content) with
                     | Some v => Some v
                     | None => env !! name
                     end.
Proof. apply loadEnv_lines. Qed.

Lemma loadEnv_last_wins_witness :
  let content := js "A=1" ++ nl ++ js " =x" ++ nl
                 ++ js "URL = http://h/?q=1 " ++ nl ++ js "A=2" in
  exists env',
    loadEnv (Some content) {[ js "A" := js "0"; js "HOME" := js "/root" ]}
      = Loaded env' /\
    env' !! js "A" = Some (js "2") /\
    env' !! js "URL" = Some (js "http://h/?q=1") /\
    env' !! js "HOME" = Some (js "/root").
Proof.
  intros content.
  destruct (loadEnv_last_wins content
              {[ js "A" := js "0"; js "HOME" := js "/root" ]})
    as (env' & Hl & _ & H).
  exists env'. split; [done|].
  split_and!; (rewrite H; [by vm_compute | done]).
Defined.
(** * Properties of the heartbeat *)

(** ** The failure counter *)

Lemma hcRun_counts evs s :
  Forall (fun n => (3 <= n)%nat) (hc_alerts s) ->
  let s' := hcRun evs s in
  Forall (fun n => (3 <= n)%nat) (hc_alerts s') /\
  (3 * length (hc_alerts s') + consecutiveFailures s' <=
   3 * length (hc_alerts s) + consecutiveFailures s
   + length (List.filter isFailure evs))%nat.
Proof.
  revert s. induction evs as [|ev evs IH]; intros s Hs; simpl; [split; [done|lia]|].
  assert (Forall (fun n => (3 <= n)%nat) (hc_alerts (hcStep s ev)) /\
          (3 * length (hc_alerts (hcStep s ev))
           + consecutiveFailures (hcStep s ev) <=
           3 * length (hc_alerts s) + consecutiveFailures s
           + (if isFailure ev then 1 else 0))%nat) as [H1 H2].
  { destruct ev as [code| |]; unfold hcStep, isFailure.
    - destruct (_ && _); simpl; split; (done || lia).
    - simpl. split; (done || lia).
    - unfold MAX_FAILURES_BEFORE_ALERT.
      destruct (Nat.leb_spec 3 (consecutiveFailures s));
        cbn [hc_alerts consecutiveFailures].
      + rewrite length_app. cbn [length]. split; [|lia].
        apply Forall_app. split; [done|]. by repeat constructor.
      + split; (done || lia). }
  destruct (IH _ H1) as [H3 H4]. split; [done|].
  unfold hcRun in *. destruct (isFailure ev); simpl; lia.
Qed.

(** X22: whatever the order of responses, errors and checks, every alert
    reports at least three failures, and there is never more than one
    alert for three failures counted: three times the number of alerts,
    plus the counter, is at most the number of failures so far. *)
Theorem alerts_need_failures evs :
  let s := hcRun evs (HcState 0 []) in
  Forall (fun n => (3 <= n)%nat) (hc_alerts s) /\
  (3 * length (hc_alerts s) + consecutiveFailures s <=
   length (List.filter isFailure evs))%nat.
Proof.
  destruct (hcRun_counts evs (HcState 0 []) ltac:(constructor)) as [H1 H2].
  split; [done|]. simpl in H2. lia.
Qed.

Lemma failingTicks_add n m :
  failingTicks (n + m) = failingTicks n ++ failingTicks m.
Proof. unfold failingTicks. by rewrite replicate_add, concat_app. Qed.

Lemma hcRun_app l1 l2 s : hcRun (l1 ++ l2) s = hcRun l2 (hcRun l1 s).
Proof. apply foldl_app. Qed.

(** X23: when every request fails, the check of a tick sees the failures of
    the ticks before it only: the first alert is sent by the fourth tick,
    and then one by every third tick, each reporting three failures. After
    [3k + r + 1] failing ticks, [r] below 3, there were [k] alerts and the
    counter is [r + 1]. *)
Theorem alert_every_third_tick (k r : nat) :
  (r < 3)%nat ->
  hcRun (failingTicks (3 * k + r + 1)) (HcState 0 []) =
  HcState (r + 1) (replicate k 3%nat).
Proof.
  intros Hr.
  assert (hcRun (failingTicks (3 * k + 1)) (HcState 0 []) =
          HcState 1 (replicate k 3%nat)) as Hk.
  { induction k as [|k IH]; [done|].
    replace (3 * S k + 1)%nat with ((3 * k + 1) + 3)%nat by lia.
    rewrite failingTicks_add, hcRun_app, IH, replicate_S_end. done. }
  replace (3 * k + r + 1)%nat with ((3 * k + 1) + r)%nat by lia.
  rewrite failingTicks_add, hcRun_app, Hk.
  destruct r as [|[|[|r]]]; [done..|lia].
Qed.

Lemma alert_every_third_tick_witness :
  hcRun (failingTicks 7) (HcState 0 []) = HcState 1 [3%nat; 3%nat].
Proof. apply (alert_every_third_tick 2 0). lia. Defined.

(** ** The task array *)

Lemma sessionLoop_task titleFromLog now l tasks out s :
  sessionLoop titleFromLog now l tasks = LDone out ->
  s ∈ l -> hidden now s = false ->
  exists t, t ∈ out /\ taskOf now s t.
Proof.
  intros (ts & -> & Hts)%sessionLoop_done Hs Hvis.
  assert (s ∈ filter (fun s => hidden now s = false) l) as Hin
    by by apply list_elem_of_filter.
  apply list_elem_of_lookup in Hin as [i Hi].
  destruct (Forall2_lookup_l _ _ _ _ _ Hts Hi) as (t & Ht & Hst).
  exists t. split; [|done]. apply elem_of_app. right.
  by eapply list_elem_of_lookup_2.
Qed.

(** X24: a registry with one record that has no [updatedAt] never gets its
    session tasks published: either the tick throws before it sends the
    heartbeat (the reader returned [undefined], or the number of the task
    of that record cannot be printed), or the reader returned the empty
    list. *)
Theorem record_without_time engine titleFromLog now values inboxTasks s :
  (forall l, engine l ≡ₚ l) ->
  s ∈ values -> s_updatedAt s = None ->
  publishedTasks inboxTasks (getTasks engine titleFromLog now (Some values))
  = None \/
  getTasks engine titleFromLog now (Some values) = TaskList [].
Proof.
  intros Hperm Hs Hu. unfold getTasks, tasksFrom.
  destruct (sessionLoop _ _ _ _) as [out| |] eqn:Hout; [|by left|by right].
  left. unfold publishedTasks, mergeTasks, tasksArray.
  assert (hidden now s = false) as Hvis.
  { unfold hidden, isDone, olderThan. rewrite Hu. by rewrite andb_false_r. }
  rewrite <- (sortSessions_Permutation engine values Hperm) in Hs.
  destruct (sessionLoop_task _ _ _ _ _ _ Hout Hs Hvis) as (t & Ht & _ & Htu & _).
  apply mapM_None, Exists_exists. exists t. split.
  - rewrite !elem_of_app. right. by left.
  - by rewrite Htu, Hu.
Qed.

Lemma record_without_time_witness :
  publishedTasks []
    (getTasks asListed noLog 5000000
       (Some [workerRecord "w1" (Some 4990000); workerRecord "w2" None])) = None \/
  getTasks asListed noLog 5000000
    (Some [workerRecord "w1" (Some 4990000); workerRecord "w2" None]) = TaskList [].
Proof.
  apply (record_without_time asListed noLog 5000000
           [workerRecord "w1" (Some 4990000); workerRecord "w2" None] []
           (workerRecord "w2" None)).
  - done.
  - in_list.
  - done.
Defined.

(** * Properties of the health check script *)


Lemma attemptLoop_ok net retries from n last a :
  (from <= a < from + n)%nat -> (from + n = S retries)%nat ->
  net a = Status 200 ->
  (forall k, (from <= k < a)%nat -> net k <> Status 200) ->
  attemptLoop net retries (seq from n) last =
  (inl a, failedAttempts from (a - from) ++ [Get a]).
Proof.
  revert from last. induction n as [|n IH]; intros from last Ha Hsum Hok Hnet.
  { lia. }
  cbn [seq attemptLoop].
  destruct (decide (from = a)) as [->|Hne].
  - rewrite Hok. simpl. by rewrite Nat.sub_diag.
  - assert (success (checkHealth (net from)) = false) as ->.
    { specialize (Hnet from ltac:(lia)).
      destruct (net from) as [c| |]; simpl; try done.
      apply Nat.eqb_neq. by intros ->. }
    rewrite (IH (S from) (Some (checkHealth (net from)))); [|lia|lia|done|].
    2:{ intros k Hk. apply Hnet. lia. }
    rewrite (proj2 (Nat.ltb_lt from retries)) by lia.
    replace (a - from)%nat with (S (a - S from)) by lia. done.
Qed.



(** X26: when an attempt gets the status 200, the script stops at the first
    such attempt: it made this many requests, with a delay between them,
    sends no alert, reports the number of attempts and exits with 0. *)
Theorem health_check_healthy net retries configured a :
  (1 <= a <= retries)%nat -> net a = Status 200 ->
  (forall k, (1 <= k < a)%nat -> net k <> Status 200) ->
  runHealthCheck net retries configured =
    (Healthy a, failedAttempts 1 (a - 1) ++ [Get a]) /\
  exitCode (runHealthCheck net retries configured).1 = 0.
Proof.
  intros Ha Hok Hnet. unfold runHealthCheck.
  rewrite (attemptLoop_ok net retries 1 retries None a); [done|lia|lia|done|].
  intros k Hk. apply Hnet. lia.
Qed.

Lemma health_check_healthy_witness :
  let net := fun k : nat => if (k =? 1)%nat then Timeout else Status 200 in
  runHealthCheck net 3 true = (Healthy 2, [Get 1; Sleep; Get 2]) /\
  exitCode (runHealthCheck net 3 true).1 = 0.
Proof.
  intros net. apply (health_check_healthy net 3 true 2); [lia|done|].
  intros k Hk. assert (k = 1%nat) as -> by lia. done.
Defined.

(** * Properties of the model quotas *)

Example parseModelsOutput_example :
  parseModelsOutput
    (js "Usage: 2 models" ++ nl ++
     [27; 91; 51; 50; 109]%N ++ js "gemini-3-pro-low" ++ [27; 91; 48; 109]%N ++
     js "  80% left  3h 44m" ++ nl ++
     js "claude-opus 0% left" ++ nl ++
     js "CONFIGURED models (3):  google/claude-opus, google/gemini-3-pro-low , x/new-model")
  = {[ js "gemini-3-pro-low" := Num 80; js "claude-opus" := Num (-1);
       js "new-model" := Num (-1) ]}.
Proof. by vm_compute. Qed.

(** ** Colour codes *)

(** The longest run is the first one tried: when the rest of the pattern
    accepts what follows it, that is the match. *)
Lemma starR_greedy {R} (f : N -> bool) (k : jsstring -> jsstring -> option R)
    acc run rest x :
  Forall (fun c => f c = true) run ->
  match rest with [] => True | c :: _ => f c = false end ->
  k (acc ++ run) rest = Some x ->
  starR f k acc (run ++ rest) = Some x.
Proof.
  intros Hrun Hrest. revert acc.
  induction Hrun as [|c run Hc _ IH]; intros acc Hk; simpl.
  - rewrite app_nil_r in Hk. destruct rest as [|c rest]; [done|].
    simpl. by rewrite Hrest.
  - rewrite Hc, IH; [done|]. by rewrite <- app_assoc.
Qed.

Lemma ansiAt_code params fin s :
  Forall (fun c => is_digit c || (c =? 59)%N = true) params ->
  fin = 109%N \/ fin = 75%N ->
  ansiAt ([27; 91]%N ++ params ++ fin :: s) = Some s.
Proof.
  intros Hp Hfin. unfold ansiAt, litR. cbn [app strip_prefix].
  rewrite !N.eqb_refl. apply starR_greedy; [done| |].
  - by destruct Hfin as [-> | ->].
  - by destruct Hfin as [-> | ->].
Qed.

Lemma ansiAt_other c s : c <> 27%N -> ansiAt (c :: s) = None.
Proof.
  intros Hc. unfold ansiAt, litR. cbn [strip_prefix].
  by rewrite (proj2 (N.eqb_neq 27 c)) by done.
Qed.

Lemma stripAnsi_skip a s : stripAnsi (a ++ s) (length a) = stripAnsi s 0.
Proof. induction a as [|c a IH]; [done|]. apply IH. Qed.

Lemma stripAnsi_text a s :
  27%N ∉ a -> stripAnsi (a ++ s) 0 = a ++ stripAnsi s 0.
Proof.
  induction a as [|c a IH]; intros Ha; [done|].
  apply not_elem_of_cons in Ha as [Hc Ha].
  cbn [app stripAnsi]. rewrite ansiAt_other by done. by rewrite IH.
Qed.

Lemma stripAnsi_code params fin s :
  Forall (fun c => is_digit c || (c =? 59)%N = true) params ->
  fin = 109%N \/ fin = 75%N ->
  stripAnsi (27%N :: 91%N :: params ++ fin :: s) 0 = stripAnsi s 0.
Proof.
  intros Hp Hfin.
  pose proof (ansiAt_code params fin s Hp Hfin) as Hat.
  cbn [app] in Hat. cbn [stripAnsi]. rewrite Hat.
  replace (length (27%N :: 91%N :: params ++ fin :: s) - length s - 1)%nat
    with (length (91%N :: params ++ [fin])).
  2:{ simpl. rewrite !length_app. simpl. lia. }
  rewrite <- (stripAnsi_skip (91%N :: params ++ [fin]) s).
  simpl. by rewrite <- app_assoc.
Qed.

Lemma stripAnsi_coloured chunks :
  wellColoured chunks -> stripAnsi (coloured chunks) 0 = plain chunks.
Proof.
  induction 1 as [|[[text params] fin] chunks (Ht & Hp & Hfin) _ IH]; [done|].
  cbn [coloured plain flat_map]. fold (coloured chunks). fold (plain chunks).
  rewrite <- !app_assoc, stripAnsi_text by done.
  cbn [app]. rewrite (stripAnsi_code params fin) by done. by rewrite IH.
Qed.

Lemma stripAnsi_plain chunks :
  wellColoured chunks -> stripAnsi (plain chunks) 0 = plain chunks.
Proof.
  induction 1 as [|[[text params] fin] chunks (Ht & _) _ IH]; [done|].
  cbn [plain flat_map]. fold (plain chunks).
  by rewrite stripAnsi_text, IH.
Qed.

(** X27: colour codes do not change what is read: an output in which
    codes (the escape character, a bracket, digits and semicolons, and
    [m] or [K]) stand between pieces of text gives the quotas of the text
    alone. *)
Theorem colours_are_ignored chunks :
  wellColoured chunks ->
  parseModelsOutput (coloured chunks) = parseModelsOutput (plain chunks).
Proof.
  intros H. unfold parseModelsOutput, usageOf, configuredNames.
  by rewrite stripAnsi_coloured, stripAnsi_plain.
Qed.

Lemma colours_are_ignored_witness :
  parseModelsOutput
    (coloured [(js "gemini-3-pro-low ", js "1;32", 109%N);
               (js "80% left", js "0", 109%N)])
  = parseModelsOutput (js "gemini-3-pro-low 80% left").
Proof.
  apply (colours_are_ignored
           [(js "gemini-3-pro-low ", js "1;32", 109%N);
            (js "80% left", js "0", 109%N)]).
  repeat constructor; first [by vm_compute | by left |
    apply (bool_decide_unpack _); by vm_compute].
Defined.

(** ** The quotas *)

Lemma starR_Some {R} (f : N -> bool) (k : jsstring -> jsstring -> option R)
    acc s x :
  starR f k acc s = Some x ->
  exists run rest, s = run ++ rest /\ Forall (fun c => f c = true) run /\
                   k (acc ++ run) rest = Some x.
Proof.
  revert acc. induction s as [|c s IH]; intros acc; simpl.
  { intros H. exists [], []. rewrite (app_nil_r acc).
    split_and!; [done | apply List.Forall_nil | done]. }
  assert (k acc (c :: s) = Some x ->
          exists run rest, c :: s = run ++ rest /\
            Forall (fun c => f c = true) run /\ k (acc ++ run) rest = Some x)
    as Hstop.
  { intros H. exists [], (c :: s). rewrite (app_nil_r acc).
    split_and!; [done | apply List.Forall_nil | done]. }
  destruct (f c) eqn:Hc; [|done].
  destruct (starR f k (acc ++ [c]) s) as [y|] eqn:Hy; [|done].
  intros [= ->]. apply IH in Hy as (run & rest & -> & Hrun & Hk).
  exists (c :: run), rest. rewrite <- app_assoc in Hk.
  split; [done|]. split; [by constructor | done].
Qed.

Lemma plusR_Some {R} (f : N -> bool) (k : jsstring -> jsstring -> option R)
    s x :
  plusR f k s = Some x ->
  exists run rest, s = run ++ rest /\ run <> [] /\
                   Forall (fun c => f c = true) run /\ k run rest = Some x.
Proof.
  unfold plusR. destruct s as [|c s]; [done|].
  destruct (f c) eqn:Hc; [|done].
  intros (run & rest & -> & Hrun & Hk)%starR_Some.
  exists (c :: run), rest. split; [done|]. split; [done|].
  split; [by constructor | done].
Qed.

Lemma litR_Some {R} l (k : jsstring -> option R) s x :
  litR l k s = Some x -> exists r, s = l ++ r /\ k r = Some x.
Proof.
  unfold litR. destruct (strip_prefix l s) as [r|] eqn:Hr; [|done].
  apply strip_prefix_Some in Hr. eauto.
Qed.

(** What the usage pattern captures: a name without white space and a
    number in digits, neither empty. *)
Lemma usageAt_Some s name digits rest :
  usageAt s = Some (name, digits, rest) ->
  Forall (fun c => is_space c = false) name /\
  digits <> [] /\ Forall (fun c => is_digit c = true) digits.
Proof.
  unfold usageAt.
  intros (name' & r1 & _ & _ & Hname & H)%plusR_Some.
  apply plusR_Some in H as (_ & r2 & _ & _ & _ & H).
  apply plusR_Some in H as (digits' & r3 & _ & Hne & Hdigits & H).
  apply litR_Some in H as (r4 & _ & H).
  apply plusR_Some in H as (_ & r5 & _ & _ & _ & H).
  apply litR_Some in H as (r6 & _ & H).
  apply (inj Some) in H. apply pair_equal_spec in H as [H _].
  apply pair_equal_spec in H as [<- <-].
  split; [|done]. eapply Forall_impl; [exact Hname|].
  intros c Hc. by apply negb_true_iff.
Qed.

Lemma decimalValue_nonneg digits :
  Forall (fun c => is_digit c = true) digits -> 0 <= decimalValue digits.
Proof.
  unfold decimalValue. intros H.
  assert (forall acc, 0 <= acc ->
            0 <= foldl (fun acc c => 10 * acc + (Z.of_N c - 48)) acc digits)
    as Hacc; [|by apply Hacc].
  induction H as [|c digits Hc _ IH]; intros acc Hacc; simpl; [done|].
  apply IH. unfold is_digit in Hc.
  apply andb_true_iff in Hc as [H1%N.leb_le H2]. lia.
Qed.

Lemma toDouble_nonneg z :
  0 <= z -> match toDouble z with Num v => 0 <= v | Infinity => True end.
Proof.
  intros Hz. unfold toDouble. destruct (z <? 2 ^ 53); [done|].
  destruct (2 ^ 1024 <=? _); [done|].
  assert (0 <= 2 ^ (Z.log2 z - 52)) as Hp by (apply Z.pow_nonneg; lia).
  apply Z.mul_nonneg_nonneg; [|done].
  pose proof (Z_div_nonneg_nonneg z _ Hz Hp) as Hq.
  destruct (_ || _); lia.
Qed.

Lemma parseInt_nonneg digits :
  Forall (fun c => is_digit c = true) digits ->
  match parseInt digits with Num v => 0 <= v | Infinity => True end.
Proof. intros H. by apply toDouble_nonneg, decimalValue_nonneg. Qed.

Lemma usageLoop_read s skip models :
  (forall n v, models !! n = Some v -> readQuota n v) ->
  forall n v, usageLoop s skip models !! n = Some v -> readQuota n v.
Proof.
  revert skip models. induction s as [|c s IH]; intros skip models Hm; [done|].
  cbn [usageLoop]. destruct skip as [|skip]; [|by apply IH].
  destruct (usageAt (c :: s)) as [[[name digits] rest]|] eqn:Hat; [|by apply IH].
  apply IH. destruct (keepName name) eqn:Hk; [|done].
  apply usageAt_Some in Hat as (Hname & _ & Hdigits).
  intros n v. destruct (decide (n = name)) as [->|Hne].
  - rewrite lookup_insert_eq. intros [= <-].
    split; [by apply parseInt_nonneg | done].
  - rewrite lookup_insert_ne by done. apply Hm.
Qed.

(** The entry of a name after the configured models were added. *)
Lemma addMissing_lookup names models n :
  foldl addMissing models names !! n =
  if decide (n ∈ names /\ (3 < length n)%nat /\ noQuota models n = true)
  then Some (Num (-1)) else models !! n.
Proof.
  revert models. induction names as [|m names IH]; intros models.
  { cbn [foldl]. destruct (decide _) as [[H _]|_]; [|done].
    by apply elem_of_nil in H. }
  cbn [foldl]. rewrite IH. clear IH. unfold addMissing.
  destruct (decide (m = n)) as [->|Hne].
  - destruct (noQuota models n && (3 <? length n)%nat) eqn:Hc.
    + apply andb_true_iff in Hc as [Hq Hlen%Nat.ltb_lt].
      assert (noQuota (<[n := Num (-1)]> models) n = false) as Hq'
        by (unfold noQuota; by rewrite lookup_insert_eq).
      rewrite Hq', lookup_insert_eq.
      destruct (decide (n ∈ names /\ _)) as [(_ & _ & ?)|_]; [done|].
      destruct (decide (n ∈ n :: names /\ _)) as [_|Hn]; [done|].
      destruct Hn. split; [by left | done].
    + destruct (decide (n ∈ names /\ _)) as [(_ & Hlen%Nat.ltb_lt & Hq)|_].
      { by rewrite Hq, Hlen in Hc. }
      destruct (decide (n ∈ n :: names /\ _))
        as [(_ & Hlen%Nat.ltb_lt & Hq)|_]; [|done].
      by rewrite Hq, Hlen in Hc.
  - set (models' := if noQuota models m && (3 <? length m)%nat
                     then <[m := Num (-1)]> models else models).
    assert (models' !! n = models !! n) as Heq.
    { unfold models'. destruct (_ && _); [|done]. by rewrite lookup_insert_ne. }
    assert (noQuota models' n = noQuota models n) as Hq
      by (unfold noQuota; by rewrite Heq).
    rewrite Heq. apply decide_ext. rewrite Hq, elem_of_cons.
    split; intros (H1 & H2 & H3); (split; [|done]); [by right|].
    by destruct H1 as [->|H1].
Qed.

(** X28: the quota reported for a model is [-1] when the model is among
    the configured ones, its name has more than three code units and the
    usage lines gave it the quota 0, or gave it none and the name is not
    the name of a property every object inherits (the look-up of such a
    name finds the inherited property, and nothing is added); otherwise it
    is what the usage lines gave. A configured model that is used up is
    thus reported like one without usage data, and any other quota is left
    as read. *)
Theorem quota_lookup output n :
  parseModelsOutput output !! n =
  (if decide (n ∈ configuredNames output /\ (3 < length n)%nat /\
              noQuota (usageOf output) n = true)
   then Some (Num (-1)) else usageOf output !! n) /\
  (noQuota (usageOf output) n = true <->
   usageOf output !! n = Some (Num 0) \/
   (usageOf output !! n = None /\ inherited n = false)).
Proof.
  split; [apply addMissing_lookup|]. unfold noQuota.
  destruct (usageOf output !! n) as [[v|]|].
  - rewrite Z.eqb_eq. split; [intros ->; by left|].
    by intros [[= ->]|[? _]].
  - split; [done|]. by intros [?|[? _]].
  - rewrite negb_true_iff. split; [by right|]. by intros [?|[_ ?]].
Qed.

(** A configured model named like an inherited property gets no entry. *)
Example parseModelsOutput_inherited :
  parseModelsOutput (js "Configured models (2): x/constructor, x/new-model")
  = {[ js "new-model" := Num (-1) ]} /\
  keepName (js "__proto__") = false.
Proof. by vm_compute. Qed.

(** X29: every quota the function reports is either [-1], for a name of
    more than three code units, or a number that is not negative, read
    from a usage line for a name without white space that passed the two
    filters. *)
Theorem quota_values output n v :
  parseModelsOutput output !! n = Some v ->
  (v = Num (-1) /\ (3 < length n)%nat) \/ readQuota n v.
Proof.
  unfold parseModelsOutput. rewrite addMissing_lookup.
  destruct (decide _) as [(_ & Hlen & _)|_]; [intros [= <-]; by left|].
  intros H. right. revert H. unfold usageOf. by apply usageLoop_read.
Qed.

Lemma quota_values_witness :
  (Num 80 = Num (-1) /\ (3 < length (js "gemini-3-pro-low"))%nat) \/
  readQuota (js "gemini-3-pro-low") (Num 80).
Proof.
  apply (quota_values (js "gemini-3-pro-low 80% left")). by vm_compute.
Defined.

(** ** Usage lines *)

Lemma plusR_greedy {R} (f : N -> bool) (k : jsstring -> jsstring -> option R)
    run rest x :
  run <> [] -> Forall (fun c => f c = true) run ->
  match rest with [] => True | c :: _ => f c = false end ->
  k run rest = Some x ->
  plusR f k (run ++ rest) = Some x.
Proof.
  intros Hne Hrun Hrest Hk. destruct run as [|c run]; [done|].
  apply Forall_cons in Hrun as [Hc Hrun]. cbn [app plusR]. rewrite Hc.
  by apply starR_greedy.
Qed.

Lemma digit_not_space c : is_digit c = true -> is_space c = false.
Proof.
  unfold is_digit. intros [H1%N.leb_le H2%N.leb_le]%andb_true_iff.
  apply not_true_is_false. class_lia.
Qed.

(** At the start of a line the pattern matches the line as far as
    [left]. *)
Lemma usageAt_line name digits rest :
  name <> [] -> Forall (fun c => is_space c = false) name ->
  digits <> [] -> Forall (fun c => is_digit c = true) digits ->
  usageAt (name ++ js " " ++ digits ++ js "% left" ++ rest) =
  Some (name, digits, rest).
Proof.
  intros Hn Hname Hd Hdigits. unfold usageAt.
  destruct digits as [|d digits]; [done|].
  pose proof (Forall_inv Hdigits) as Hd0.
  apply plusR_greedy; [done| | |].
  { eapply Forall_impl; [exact Hname|]. intros c Hc. by rewrite Hc. }
  { done. }
  apply (plusR_greedy _ _ (js " ")); [done|by repeat constructor| |].
  { cbn [app]. by apply digit_not_space. }
  change (js "% left") with ([37%N] ++ js " " ++ js "left").
  rewrite <- !app_assoc.
  apply plusR_greedy; [done|done|done|].
  unfold litR at 1. change (js "%") with [37%N].
  cbn [app strip_prefix]. rewrite N.eqb_refl.
  apply (plusR_greedy _ _ [32%N]); [done|by repeat constructor|done|].
  unfold litR. by rewrite strip_prefix_app.
Qed.

(** The place of a code unit that the text in front does not have. *)
Lemma split_in_second {A} (P : A -> Prop) (a b t k : list A) c :
  Forall P a -> ~ P c -> a ++ b = t ++ c :: k ->
  exists t', t = a ++ t' /\ b = t' ++ c :: k.
Proof.
  intros Ha Hc. revert t. induction Ha as [|x a Hx _ IH]; intros t Heq.
  { by exists t. }
  destruct t as [|y t]; simpl in Heq.
  - injection Heq as -> _. done.
  - injection Heq as -> Heq. destruct (IH t Heq) as (t' & -> & ->).
    by exists t'.
Qed.

Lemma split_in_first {A} (Q : A -> Prop) (w d t k : list A) c :
  Forall Q d -> ~ Q c -> w ++ d = t ++ c :: k ->
  exists k', k = k' ++ d /\ w = t ++ c :: k'.
Proof.
  intros Hd Hc. revert w. induction t as [|y t IH]; intros w Heq.
  - destruct w as [|x w]; simpl in Heq.
    + subst d. apply Forall_cons in Hd as [? _]. done.
    + injection Heq as -> <-. by exists w.
  - destruct w as [|x w]; simpl in Heq.
    + subst d. apply Forall_cons in Hd as [_ Hd].
      apply Forall_app in Hd as [_ Hd]. apply Forall_cons in Hd as [? _]. done.
    + injection Heq as -> Heq. destruct (IH w Heq) as (k' & -> & ->).
      by exists k'.
Qed.

(** What a match of the usage pattern starts with. *)
Lemma usageAt_shape s x :
  usageAt s = Some x ->
  exists tok ws d r,
    s = tok ++ ws ++ d ++ 37%N :: r /\
    Forall (fun c => is_space c = false) tok /\
    Forall (fun c => is_space c = true) ws /\
    d <> [] /\ Forall (fun c => is_digit c = true) d.
Proof.
  unfold usageAt.
  intros (tok & r1 & -> & _ & Htok & H)%plusR_Some.
  apply plusR_Some in H as (ws & r2 & -> & _ & Hws & H).
  apply plusR_Some in H as (d & r3 & -> & Hne & Hd & H).
  apply litR_Some in H as (r4 & -> & _).
  exists tok, ws, d, r4. split_and!; try done.
  eapply Forall_impl; [exact Htok|]. intros c Hc. by apply negb_true_iff.
Qed.

(** Between the end of a match and the next line nothing matches. *)
Lemma usageAt_gap t rest :
  37%N ∉ t -> lineStart rest -> usageAt (t ++ 10%N :: rest) = None.
Proof.
  intros Ht Hrest. destruct (usageAt _) as [x|] eqn:Hx; [|done]. exfalso.
  apply usageAt_shape in Hx as (tok & ws & d & r & Heq & Htok & Hws & Hne & Hd).
  assert (Forall (fun c => is_space c = false) d) as Hd'
    by (eapply Forall_impl; [exact Hd|]; apply digit_not_space).
  (* the percent sign of the match stands behind the line feed *)
  rewrite !app_assoc in Heq. rewrite (cons_middle 10%N), app_assoc in Heq.
  apply (split_in_second (fun c => c <> 37%N)) in Heq as (k & Hk & Hr);
    [| |by intros ?].
  2:{ apply Forall_app. split; [|by repeat constructor].
      apply Forall_forall. by intros c Hc ->. }
  (* the line feed stands in the white space of the match *)
  rewrite <- !app_assoc in Hk. cbn [app] in Hk.
  apply (split_in_second (fun c => is_space c = false)) in Hk
    as (t' & _ & Hk); [|done|by intros ?].
  apply (split_in_first (fun c => is_space c = false)) in Hk
    as (k' & -> & Hws'); [|done|by intros ?].
  assert (Forall (fun c => is_space c = true) k') as Hk'.
  { rewrite Hws' in Hws. apply Forall_app in Hws as [_ Hws].
    by apply Forall_cons in Hws as [_ Hws]. }
  destruct Hrest as [->|(name & r' & -> & Hn & Hname & Hpct)].
  { destruct k', d; done. }
  (* the name of the next line would start with the digits and the sign *)
  destruct k' as [|c k'].
  2:{ destruct name as [|c' name]; [done|]. injection Hr as -> _.
      apply Forall_cons in Hk' as [Hc _]. apply Forall_cons in Hname as [Hc' _].
      congruence. }
  cbn [app] in Hr. rewrite (cons_middle 37%N), app_assoc in Hr.
  symmetry in Hr.
  apply (split_in_second (fun c => is_space c = false)) in Hr
    as (t'' & -> & _); [| |by intros ?].
  - apply Hpct. rewrite !elem_of_app. left. right. by left.
  - apply Forall_app. split; [done|]. by repeat constructor.
Qed.

Lemma usageLoop_skip a s models :
  usageLoop (a ++ s) (length a) models = usageLoop s 0 models.
Proof. induction a as [|c a IH]; [done|]. apply IH. Qed.

Lemma usageLoop_gap t rest models :
  37%N ∉ t -> lineStart rest ->
  usageLoop (t ++ 10%N :: rest) 0 models = usageLoop rest 0 models.
Proof.
  intros Ht Hrest. induction t as [|c t IH].
  - pose proof (usageAt_gap [] rest Ht Hrest) as Hat.
    cbn [app] in *. cbn [usageLoop]. by rewrite Hat.
  - pose proof (usageAt_gap (c :: t) rest Ht Hrest) as Hat.
    cbn [app] in *. cbn [usageLoop]. rewrite Hat. apply IH.
    by apply not_elem_of_cons in Ht as [_ Ht].
Qed.

(** The loop on a line: the match is recorded and the search goes on
    behind the line. *)
Lemma usageLoop_line l rest models :
  wellFormedLine l -> lineStart rest ->
  usageLoop (usageLine l ++ rest) 0 models =
  usageLoop rest 0 (recordLine models l).
Proof.
  destruct l as [[name digits] tail].
  intros (Hn & Hname & _ & _ & Hd & Hdigits & Htail & _) Hrest.
  unfold usageLine, recordLine, nl. rewrite <- !app_assoc.
  pose proof (usageAt_line name digits (tail ++ [10%N] ++ rest)
                Hn Hname Hd Hdigits) as Hat.
  destruct name as [|c name]; [done|]. cbn [app] in *. cbn [usageLoop].
  rewrite Hat.
  replace (length (c :: name ++ js " " ++ digits ++ js "% left"
                     ++ tail ++ 10%N :: rest)
           - length (tail ++ 10%N :: rest) - 1)%nat
    with (length (name ++ js " " ++ digits ++ js "% left")).
  2:{ repeat (rewrite ?length_app; simpl). lia. }
  assert (name ++ js " " ++ digits ++ js "% left" ++ tail ++ 10%N :: rest =
          (name ++ js " " ++ digits ++ js "% left") ++ tail ++ 10%N :: rest)
    as -> by (by rewrite <- !app_assoc).
  by rewrite usageLoop_skip, usageLoop_gap.
Qed.

Lemma usageLines_start lines :
  Forall wellFormedLine lines -> lineStart (flat_map usageLine lines).
Proof.
  intros [|l ls Hl _]; [by left|].
  destruct l as [[name digits] tail]. destruct Hl as (Hn & Hname & Hpct & _).
  right. exists name. eexists. split; [|done].
  cbn [flat_map usageLine]. rewrite <- !app_assoc. done.
Qed.

Lemma usageLines_loop lines models :
  Forall wellFormedLine lines ->
  usageLoop (flat_map usageLine lines) 0 models = foldl recordLine models lines.
Proof.
  intros H. revert models. induction H as [|l ls Hl Hls IH]; intros models.
  { done. }
  cbn [flat_map foldl]. rewrite usageLoop_line; [apply IH|done|].
  by apply usageLines_start.
Qed.

Lemma stripAnsi_none s : 27%N ∉ s -> stripAnsi s 0 = s.
Proof.
  intros Hs. rewrite <- (app_nil_r s) at 1.
  by rewrite stripAnsi_text, app_nil_r.
Qed.

Lemma usageLines_plain lines :
  Forall wellFormedLine lines -> 27%N ∉ flat_map usageLine lines.
Proof.
  induction 1 as [|l ls Hl _ IH]; [apply not_elem_of_nil|].
  destruct l as [[name digits] tail].
  destruct Hl as (_ & _ & _ & Hn & _ & Hd & _ & Ht).
  cbn [flat_map usageLine]. rewrite <- !app_assoc, !elem_of_app. intros [H|[H|[H|[H|[H|[H|H]]]]]]; try done.
  - vm_compute in H. by apply list_elem_of_singleton in H.
  - rewrite Forall_forall in Hd. by specialize (Hd _ H).
  - revert H. apply (bool_decide_unpack _). by vm_compute.
  - unfold nl in H. by apply list_elem_of_singleton in H.
Qed.

(** X30: an output made of usage lines, each a name that is not empty and
    has no white space, no percent sign and no escape character, a space,
    one or more digits, [% left], any text without a percent sign and
    without an escape character, and the line feed, is read line by line:
    every line whose name passes the two filters gives the name the number
    its digits write, as [parseInt] gives it (the nearest double: the
    number itself below [2^53]), a later line for the same name replacing
    an earlier one, and nothing else is recorded. *)
Theorem usage_lines_read lines :
  Forall wellFormedLine lines ->
  usageOf (flat_map usageLine lines) = foldl recordLine ∅ lines.
Proof.
  intros H. unfold usageOf.
  rewrite stripAnsi_none by by apply usageLines_plain.
  by apply usageLines_loop.
Qed.

Lemma usage_lines_read_witness :
  usageOf (js "gemini-3-pro-low 80% left 3h 44m" ++ nl ++
           js "usage: 5% left today" ++ nl ++
           js "claude-opus 0% left" ++ nl)
  = {[ js "gemini-3-pro-low" := Num 80; js "claude-opus" := Num 0 ]}.
Proof.
  assert (Forall wellFormedLine
            [(js "gemini-3-pro-low", js "80", js " 3h 44m");
             (js "usage:", js "5", js " today");
             (js "claude-opus", js "0", [])]) as H.
  { repeat constructor;
      first [by intros [=] | by vm_compute
            | apply (bool_decide_unpack _); by vm_compute]. }
  pose proof (usage_lines_read _ H) as Hr.
  vm_compute in Hr. vm_compute. exact Hr.
Defined.
